(** * Spotify-network: harvesting and collaboration extraction

    A shallow embedding of the rate-limited harvesting pipeline of
    [Code/Analysis/collaborationDataGathering/build_collaboration_matrix.py]
    (restricted mode) and [artist_collab.py] (ego mode), followed by the
    properties proved about it.

    Conventions.
    - Wall-clock time ([time.time()]) and durations are rationals; the
      readings of the clock are inputs of the model.
    - Python [set] is [gset], [dict] is [gmap]; lists stay lists.
    - A call to the remote API is an oracle indexed by the number of the
      call; an exception is a value of [exn]. *)

From Stdlib Require Import QArith Lqa.
From stdpp Require Import gmap strings list sorting.

(* ================================================================== *)
(** * Part I: the embedding                                            *)
(* ================================================================== *)

(** ** build_collaboration_matrix.py: rate limiting *)

Definition RATE_LIMIT_WINDOW : Q := 5.
Definition MAX_REQUESTS_PER_WINDOW : nat := 20.

(** [a > b] on rationals, as a boolean. *)
Definition Qgtb (a b : Q) : bool := negb (Qle_bool a b).

(** The loop
    [while request_timestamps and current_time - request_timestamps[0] > RATE_LIMIT_WINDOW:
         request_timestamps.popleft()].
    The head of the list is the left end of the deque. *)
Fixpoint popleft_expired (current_time : Q) (request_timestamps : list Q) : list Q :=
  match request_timestamps with
  | [] => []
  | oldest :: rest =>
      if Qgtb (current_time - oldest) RATE_LIMIT_WINDOW
      then popleft_expired current_time rest
      else request_timestamps
  end.

(** The two readings of [time.time()] one call of [rate_limit_check] can
    make: on entry, and after [time.sleep] (read only when it slept). *)
Record clock := Clock { at_entry : Q; after_sleep : Q }.

(** What one call did: the deque it leaves, the duration it slept (if it
    did) and the timestamp it recorded. *)
Record admission := Admission {
  timestamps_after : list Q;
  slept : option Q;
  recorded : Q
}.

(** [rate_limit_check()], the deque [request_timestamps] passed explicitly.
    The branch [[]] under [len >= MAX_REQUESTS_PER_WINDOW] cannot be taken
    (the bound is 20); Python would raise IndexError at
    [request_timestamps[0]] there. *)
Definition rate_limit_check (c : clock) (request_timestamps : list Q) : admission :=
  let current_time := at_entry c in
  let ts := popleft_expired current_time request_timestamps in
  if (MAX_REQUESTS_PER_WINDOW <=? length ts)%nat then
    match ts with
    | oldest_timestamp :: _ =>
        let time_to_wait :=
          (RATE_LIMIT_WINDOW - (current_time - oldest_timestamp) + 0.1)%Q in
        if Qgtb time_to_wait 0 then
          let current_time := after_sleep c in
          let ts := popleft_expired current_time ts in
          Admission (ts ++ [current_time]) (Some time_to_wait) current_time
        else Admission (ts ++ [current_time]) None current_time
    | [] => Admission (ts ++ [current_time]) None current_time
    end
  else Admission (ts ++ [current_time]) None current_time.

(** A sequence of calls, from a given deque: the deque at the end. *)
Fixpoint run_limiter (cs : list clock) (request_timestamps : list Q) : list Q :=
  match cs with
  | [] => request_timestamps
  | c :: cs' => run_limiter cs' (timestamps_after (rate_limit_check c request_timestamps))
  end.

(** Every timestamp the calls recorded, oldest first. *)
Fixpoint admissions (cs : list clock) (request_timestamps : list Q) : list Q :=
  match cs with
  | [] => []
  | c :: cs' =>
      let a := rate_limit_check c request_timestamps in
      recorded a :: admissions cs' (timestamps_after a)
  end.

(** The clock the limiter runs against: [time.time()] never goes back
    ([last] is the previous reading), and [time.sleep(d)] returns no
    earlier than [d] seconds later. *)
Fixpoint clock_ok (last : Q) (cs : list clock) (request_timestamps : list Q) : Prop :=
  match cs with
  | [] => True
  | c :: cs' =>
      let a := rate_limit_check c request_timestamps in
      (last <= at_entry c)%Q /\
      match slept a with
      | Some d => (at_entry c + d <= after_sleep c)%Q
      | None => True
      end /\
      clock_ok (recorded a) cs' (timestamps_after a)
  end.

(** Number of timestamps of [h] in the trailing interval [[t - W, t]]. *)
Definition in_window (t x : Q) : bool :=
  Qle_bool (t - RATE_LIMIT_WINDOW) x && Qle_bool x t.

Definition count_in_window (t : Q) (h : list Q) : nat :=
  length (filter (fun x => in_window t x = true) h).

(** ** Exceptions and outcomes *)

(** The exceptions the pipeline meets. [SpotifyException] (spotipy) and
    [HTTPError] (requests' [raise_for_status]) carry the status and the
    [Retry-After] header of the response; [MaxRetriesExceeded n] is the
    plain [Exception(f"Max retries ({n}) exceeded for API call")], whose
    only payload is the number in its message. *)
Inductive exn : Type :=
  | SpotifyException (http_status : Z) (retry_after : option string)
  | HTTPError (status_code : Z) (retry_after : option string)
  | RequestException (msg : string)
  | ValueError
  | UnboundLocalError
  | AttributeError
  | KeyError (key : string)
  | MaxRetriesExceeded (max_retries : nat)
  | KeyboardInterrupt.

(** [KeyboardInterrupt] derives from [BaseException] only: a clause
    [except Exception] does not catch it. *)
Definition is_Exception (e : exn) : bool :=
  match e with
  | KeyboardInterrupt => false
  | _ => true
  end.

Inductive outcome (A : Type) : Type :=
  | Returns (a : A)
  | Raises (e : exn).
Arguments Returns {A} a.
Arguments Raises {A} e.

(** What a function did to the outside, in order. [EvRateLimitCheck] is
    a call of [rate_limit_check], whose own sleep belongs to the limiter
    above; [EvSleep] is a [time.sleep] of the retry logic;
    [EvRequestSleep] is [time.sleep(REQUEST_SLEEP_SECONDS)]. *)
Inductive event : Type :=
  | EvRateLimitCheck
  | EvCall (attempt : nat)
  | EvSleep (wait_time : Z)
  | EvRequestSleep.

(** The sleeps of a trace, in order. *)
Definition delays (tr : list event) : list Z :=
  omap (fun ev => match ev with EvSleep w => Some w | _ => None end) tr.

(** Truth value of [headers.get('Retry-After')]: [None] and the empty
    string are false. *)
Definition truthy (s : option string) : bool :=
  match s with
  | Some s => negb (String.eqb s "")
  | None => false
  end.

(** ** build_collaboration_matrix.py: api_call_with_backoff *)

Section Backoff.
(** [int(s)] on a string: [None] when Python raises ValueError. *)
Variable py_int : string -> option Z.

Context {A : Type}.
(** [func k] is what the [k]-th invocation [func] on its arguments
    does (invocations are numbered from 0, like [attempt]). *)
Variable func : nat -> outcome A.
Variable max_retries : nat.
Variable initial_wait : Z.

(** The [except] clauses: sleep for some time and go on, or let an
    exception out. *)
Inductive handled : Type :=
  | SleepFor (wait_time : Z)
  | Propagate (e : exn).

Definition on_failure (e : exn) (attempt : nat) : handled :=
  match e with
  | SpotifyException http_status retry_after =>
      if (http_status =? 429)%Z then
        if truthy retry_after then
          match py_int (default "" retry_after) with
          | Some wait_time => SleepFor wait_time
          | None => Propagate ValueError
          end
        else SleepFor (initial_wait * 2 ^ Z.of_nat attempt)
      else if (500 <=? http_status)%Z then
        SleepFor (initial_wait * 2 ^ Z.of_nat attempt)
      else Propagate e
  | KeyboardInterrupt => Propagate e
  | _ => SleepFor (initial_wait * 2 ^ Z.of_nat attempt)
  end.

(** [for attempt in range(max_retries)], with [todo] iterations left.
    [time.sleep] raises ValueError on a negative duration. *)
Fixpoint backoff_loop (todo attempt : nat) : list event * outcome A :=
  match todo with
  | O => ([], Raises (MaxRetriesExceeded max_retries))
  | S todo' =>
      match func attempt with
      | Returns a => ([EvRateLimitCheck; EvCall attempt], Returns a)
      | Raises e =>
          match on_failure e attempt with
          | SleepFor wait_time =>
              if (wait_time <? 0)%Z
              then ([EvRateLimitCheck; EvCall attempt], Raises ValueError)
              else
                let '(tr, r) := backoff_loop todo' (S attempt) in
                (EvRateLimitCheck :: EvCall attempt :: EvSleep wait_time :: tr, r)
          | Propagate e' => ([EvRateLimitCheck; EvCall attempt], Raises e')
          end
      end
  end.

Definition api_call_with_backoff : list event * outcome A :=
  backoff_loop max_retries 0.
End Backoff.

(** ** artist_collab.py: spotify_get *)

Record response (J : Type) := Response {
  status_code : Z;
  header_retry_after : option string;
  json : J
}.
Arguments Response {J}.
Arguments status_code {J}.
Arguments header_retry_after {J}.
Arguments json {J}.

(** [r.raise_for_status()]. *)
Definition raise_for_status {J} (r : response J) : option exn :=
  if ((400 <=? status_code r) && (status_code r <? 600))%Z
  then Some (HTTPError (status_code r) (header_retry_after r))
  else None.

Section SpotifyGet.
Variable py_int : string -> option Z.
Context {J : Type}.
(** [get k] is what the [k]-th [requests.get] of this call does. *)
Variable get : nat -> outcome (response J).

(** The loop of [spotify_get]; [r] is the variable [r] of the source,
    unbound before the first response. *)
Fixpoint spotify_get_loop (todo attempt : nat) (r : option (response J))
  : list event * outcome (option J) :=
  match todo with
  | O =>
      match r with
      | None => ([], Raises UnboundLocalError)
      | Some r =>
          match raise_for_status r with
          | Some e => ([], Raises e)
          | None => ([], Returns None)
          end
      end
  | S todo' =>
      match get attempt with
      | Raises e => ([EvRequestSleep; EvCall attempt], Raises e)
      | Returns r =>
          if (status_code r =? 429)%Z then
            match py_int (default "1" (header_retry_after r)) with
            | None => ([EvRequestSleep; EvCall attempt], Raises ValueError)
            | Some retry_after =>
                if (retry_after <? 0)%Z
                then ([EvRequestSleep; EvCall attempt], Raises ValueError)
                else
                  let '(tr, res) := spotify_get_loop todo' (S attempt) (Some r) in
                  (EvRequestSleep :: EvCall attempt :: EvSleep retry_after :: tr, res)
            end
          else
            match raise_for_status r with
            | Some e => ([EvRequestSleep; EvCall attempt], Raises e)
            | None => ([EvRequestSleep; EvCall attempt], Returns (Some (json r)))
            end
      end
  end.

Definition spotify_get (max_retries : nat) : list event * outcome (option J) :=
  spotify_get_loop max_retries 0 None.
End SpotifyGet.

(** A reading of decimal numerals, used to run the model on examples:
    [int] on a string of ASCII digits. *)
Fixpoint int_digits (acc : Z) (s : string) : option Z :=
  match s with
  | EmptyString => Some acc
  | String c s' =>
      let n := Ascii.nat_of_ascii c in
      if (48 <=? n)%nat && (n <=? 57)%nat
      then int_digits (10 * acc + Z.of_nat (n - 48)) s'
      else None
  end.

Definition int_decimal (s : string) : option Z :=
  match s with
  | EmptyString => None
  | _ => int_digits 0 s
  end.

(** [str.lower] on ASCII letters, used to run the model on examples. *)
Definition ascii_lower_char (c : Ascii.ascii) : Ascii.ascii :=
  let n := Ascii.nat_of_ascii c in
  if (65 <=? n)%nat && (n <=? 90)%nat then Ascii.ascii_of_nat (n + 32) else c.

Fixpoint ascii_lower (s : string) : string :=
  match s with
  | EmptyString => EmptyString
  | String c s' => String (ascii_lower_char c) (ascii_lower s')
  end.

(** ** Data of the API *)

(** An artist credit of a track: [id] may be null; [find_collaborations]
    reads [a['id']], [extract_collaborators_from_tracks] reads
    [a.get("id")] and [a["name"]]. *)
Record artist := Artist { a_id : option string; a_name : string }.

(** A track: [id] may be absent or null ([None]). *)
Record track := Track {
  t_id : option string;
  t_name : string;
  t_artists : list artist
}.

(** A release: [alb["id"]] and its name. *)
Record album := Album { alb_id : string; alb_name : string }.

(** One page of a listing: [data.get("items", [])] and whether
    [data.get("next")] is true. *)
Record page (X : Type) := Page { items : list X; next : bool }.
Arguments Page {X}.
Arguments items {X}.
Arguments next {X}.

(** ** artist_collab.py: the release and track listings *)

Section Albums.
(** [fetch k] is the outcome of the [k]-th call
    [spotify_get(url, params=params, token=token)] of the loop, the one
    with [offset = k * per_page]; [Returns None] is a call that fell off
    the end of [spotify_get]. *)
Variable fetch : nat -> outcome (option (page album)).
Variable max_albums : Z.

(** The loop [for alb in items] of one page. The boolean tells that the
    [return all_items] under [len(all_items) >= max_albums] was taken. *)
Fixpoint scan_albums (items : list album) (all_items : list album)
    (seen_album_ids : gset string) : bool * list album * gset string :=
  match items with
  | [] => (false, all_items, seen_album_ids)
  | alb :: rest =>
      if decide (alb_id alb ∈ seen_album_ids)
      then scan_albums rest all_items seen_album_ids
      else
        let seen_album_ids := {[alb_id alb]} ∪ seen_album_ids in
        let all_items := all_items ++ [alb] in
        if (max_albums <=? Z.of_nat (length all_items))%Z
        then (true, all_items, seen_album_ids)
        else scan_albums rest all_items seen_album_ids
  end.

(** [while True:], at most [fuel] rounds; [None] when they do not
    suffice. [call] counts the calls made so far. *)
Fixpoint albums_loop (fuel call : nat) (all_items : list album)
    (seen_album_ids : gset string) : option (outcome (list album)) :=
  match fuel with
  | O => None
  | S fuel' =>
      match fetch call with
      | Raises e => Some (Raises e)
      | Returns None => Some (Raises AttributeError)
      | Returns (Some data) =>
          match items data with
          | [] => Some (Returns all_items)
          | _ =>
              let '(stop, all_items, seen_album_ids) :=
                scan_albums (items data) all_items seen_album_ids in
              if stop then Some (Returns all_items)
              else if next data
                   then albums_loop fuel' (S call) all_items seen_album_ids
                   else Some (Returns all_items)
          end
      end
  end.

Definition get_artist_albums_albums_and_singles (fuel : nat)
  : option (outcome (list album)) :=
  albums_loop fuel 0 [] ∅.
End Albums.

Section Tracks.
Variable fetch : nat -> outcome (option (page track)).

Fixpoint tracks_loop (fuel call : nat) (tracks : list track)
  : option (outcome (list track)) :=
  match fuel with
  | O => None
  | S fuel' =>
      match fetch call with
      | Raises e => Some (Raises e)
      | Returns None => Some (Raises AttributeError)
      | Returns (Some data) =>
          match items data with
          | [] => Some (Returns tracks)
          | _ =>
              let tracks := tracks ++ items data in
              if next data
              then tracks_loop fuel' (S call) tracks
              else Some (Returns tracks)
          end
      end
  end.

Definition get_all_album_tracks (fuel : nat) : option (outcome (list track)) :=
  tracks_loop fuel 0 [].
End Tracks.

(** ** artist_collab.py: ego-mode extraction *)

(** [{a["id"] for a in artists if a.get("id")}] *)
Definition credited_ids (artists : list artist) : gset string :=
  list_to_set (omap (fun a => if truthy (a_id a) then a_id a else None) artists).

(** The loop [for a in artists] of one track. *)
Definition add_collaborators (primary_artist_id : string)
    (collaborators : gset (string * string)) (artists : list artist)
  : gset (string * string) :=
  foldl (fun acc a =>
           match a_id a with
           | Some aid =>
               if negb (truthy (Some aid)) || String.eqb aid primary_artist_id
               then acc
               else {[ (aid, a_name a) ]} ∪ acc
           | None => acc
           end) collaborators artists.

Definition extract_collaborators_from_tracks (tracks : list track)
    (primary_artist_id : string) : gset (string * string) :=
  foldl (fun collaborators t =>
           if decide (primary_artist_id ∈ credited_ids (t_artists t))
           then add_collaborators primary_artist_id collaborators (t_artists t)
           else collaborators) ∅ tracks.

(** A row of the output: a dict, its keys in insertion order. *)
Definition row : Type := list (string * string).

Definition collab_row (artist_name artist_id : string) (c : string * string) : row :=
  [ ("primary_artist", artist_name);
    ("primary_artist_id", artist_id);
    ("collaborator_id", c.1);
    ("collaborator_name", c.2) ].

(** The API as one artist's harvest sees it: the pages of the release
    listing, and for each release id the pages of its track listing. *)
Record api := Api {
  albums_pages : nat -> outcome (option (page album));
  tracks_pages : string -> nat -> outcome (option (page track))
}.

Section Harvest.
(** [str.lower]. *)
Variable lower : string -> string.
(** Bound on the rounds of each [while True]. *)
Variable fuel : nat.

Definition by_lower_name (x y : string * string) : Prop :=
  String.leb (lower x.2) (lower y.2) = true.

#[global] Instance by_lower_name_dec x y : Decision (by_lower_name x y).
Proof. unfold by_lower_name. apply _. Defined.

(** The loop [for idx, alb in enumerate(albums, start=1)]. *)
Fixpoint collect_tracks (srv : api) (albums : list album) (all_tracks : list track)
  : option (outcome (list track)) :=
  match albums with
  | [] => Some (Returns all_tracks)
  | alb :: rest =>
      match get_all_album_tracks (tracks_pages srv (alb_id alb)) fuel with
      | None => None
      | Some (Raises e) => Some (Raises e)
      | Some (Returns tracks) => collect_tracks srv rest (all_tracks ++ tracks)
      end
  end.

Definition MAX_ALBUMS_PER_ARTIST : Z := 300.

Definition get_collaborators_for_artist_id (srv : api)
    (artist_name artist_id : string) : option (outcome (list row)) :=
  match get_artist_albums_albums_and_singles (albums_pages srv) MAX_ALBUMS_PER_ARTIST fuel with
  | None => None
  | Some (Raises e) => Some (Raises e)
  | Some (Returns albums) =>
      match collect_tracks srv albums [] with
      | None => None
      | Some (Raises e) => Some (Raises e)
      | Some (Returns all_tracks) =>
          let collab_set := extract_collaborators_from_tracks all_tracks artist_id in
          Some (Returns (map (collab_row artist_name artist_id)
                             (merge_sort by_lower_name (elements collab_set))))
      end
  end.
End Harvest.

(** ** artist_collab.py: the output file and the driver *)

(** A CSV file as [csv] reads and writes it: the header line and the
    data lines, each a list of fields. A path holds [None] when
    [os.path.exists] is false. *)
Record csv_file := CsvFile { header : list string; lines : list (list string) }.

(** [dict(zip(fieldnames, line)).get(key)], the row [csv.DictReader]
    yields: a later column of the same name wins, a column the line is
    too short for has no value. *)
Fixpoint dict_reader_get (key : string) (fieldnames line : list string) : option string :=
  match fieldnames, line with
  | k :: fieldnames', v :: line' =>
      match dict_reader_get key fieldnames' line' with
      | Some w => Some w
      | None => if String.eqb k key then Some v else None
      end
  | _, _ => None
  end.

(** [rowdict.get(key, "")] of [csv.DictWriter]. *)
Fixpoint dict_get (key : string) (r : row) : option string :=
  match r with
  | [] => None
  | (k, v) :: r' => if String.eqb k key then Some v else dict_get key r'
  end.

Definition load_already_processed_artists (output_csv : option csv_file) : gset string :=
  match output_csv with
  | None => ∅
  | Some f =>
      foldl (fun processed line =>
               match dict_reader_get "primary_artist_id" (header f) line with
               | Some artist_id =>
                   if truthy (Some artist_id) then {[artist_id]} ∪ processed else processed
               | None => processed
               end) ∅ (lines f)
  end.

(** All rows of one artist carry the same keys, so [DictWriter] never
    meets a key outside [fieldnames]. *)
Definition append_collaborators_to_csv (collaborators : list row)
    (output_csv : option csv_file) : option csv_file :=
  match collaborators with
  | [] => output_csv
  | first :: _ =>
      let fieldnames := map fst first in
      let written := map (fun r => map (fun k => default "" (dict_get k r)) fieldnames) collaborators in
      match output_csv with
      | Some f => Some (CsvFile (header f) (lines f ++ written))
      | None => Some (CsvFile fieldnames written)
      end
  end.

Definition load_artists_from_input (input_csv : csv_file) : list (string * string) :=
  omap (fun line =>
          match dict_reader_get "name" (header input_csv) line,
                dict_reader_get "id" (header input_csv) line with
          | Some name, Some artist_id =>
              if truthy (Some name) && truthy (Some artist_id)
              then Some (name, artist_id) else None
          | _, _ => None
          end) (lines input_csv).

(** How a run of the driver ended: the roster was exhausted, Ctrl+C
    arrived while artist number [idx] was harvested, or one of the loops
    of that harvest did not finish. *)
Inductive run_end : Type :=
  | Completed
  | Interrupted (idx : nat)
  | Diverged (idx : nat).

(** The state of the driver when it stops: the output file, the numbers
    of the artists whose harvest was started, in order, the set
    [processed_ids], and how the run ended. *)
Record run_result := RunResult {
  final_csv : option csv_file;
  harvested : list nat;
  processed : gset string;
  ending : run_end
}.

Section Driver.
Variable lower : string -> string.
Variable fuel : nat.
(** [world idx]: the API during the harvest of artist number [idx]. *)
Variable world : nat -> api.

(** [for idx, (name, artist_id) in enumerate(artists, start=1)] *)
Fixpoint main_loop (artists : list (string * string)) (idx : nat)
    (processed_ids : gset string) (output_csv : option csv_file)
    (log : list nat) : run_result :=
  match artists with
  | [] => RunResult output_csv log processed_ids Completed
  | (name, artist_id) :: rest =>
      if decide (artist_id ∈ processed_ids)
      then main_loop rest (S idx) processed_ids output_csv log
      else
        match get_collaborators_for_artist_id lower fuel (world idx) name artist_id with
        | None => RunResult output_csv (log ++ [idx]) processed_ids (Diverged idx)
        | Some (Returns collabs) =>
            main_loop rest (S idx) ({[artist_id]} ∪ processed_ids)
                      (append_collaborators_to_csv collabs output_csv)
                      (log ++ [idx])
        | Some (Raises e) =>
            if is_Exception e
            then main_loop rest (S idx) processed_ids output_csv (log ++ [idx])
            else RunResult output_csv (log ++ [idx]) processed_ids (Interrupted idx)
        end
  end.

(** [main()], once the input file was found and the token obtained. *)
Definition main (input_csv : csv_file) (output_csv : option csv_file) : run_result :=
  let artists := load_artists_from_input input_csv in
  let processed_ids := load_already_processed_artists output_csv in
  main_loop artists 1 processed_ids output_csv [].
End Driver.

(** ** build_collaboration_matrix.py: restricted-mode extraction *)

(** [tuple(sorted([artist1, artist2]))] *)
Definition sorted_pair (artist1 artist2 : string) : string * string :=
  if String.leb artist1 artist2 then (artist1, artist2) else (artist2, artist1).

(** The pairs the two nested loops over [collaborating_artists] visit. *)
Fixpoint pairs (collaborating_artists : list string) : list (string * string) :=
  match collaborating_artists with
  | [] => []
  | artist1 :: rest => map (sorted_pair artist1) rest ++ pairs rest
  end.

(** [collaborations[pair].append(track_name)] on a [defaultdict(list)]. *)
Definition append_evidence (track_name : string)
    (collaborations : gmap (string * string) (list string)) (pair : string * string)
  : gmap (string * string) (list string) :=
  <[pair := default [] (collaborations !! pair) ++ [track_name]]> collaborations.

(** [[aid for aid in track_artist_ids if aid in artist_ids]] *)
Definition collaborating (artist_ids : gset string) (t : track) : list string :=
  omap (fun a => match a_id a with
                 | Some aid => if decide (aid ∈ artist_ids) then Some aid else None
                 | None => None
                 end) (t_artists t).

(** One round of the loop over [all_tracks]; the state is
    [(collaborations, processed_tracks)]. *)
Definition analyse_track (artist_ids : gset string)
    (st : gmap (string * string) (list string) * gset string) (t : track)
  : gmap (string * string) (list string) * gset string :=
  match t_id t with
  | None => st
  | Some track_id =>
      if decide (track_id ∈ st.2) then st
      else
        let processed_tracks := {[track_id]} ∪ st.2 in
        let collaborating_artists := collaborating artist_ids t in
        if (2 <=? length collaborating_artists)%nat
        then (foldl (append_evidence (t_name t)) st.1 (pairs collaborating_artists),
              processed_tracks)
        else (st.1, processed_tracks)
  end.

Definition find_collaborations (all_tracks : list track) (artist_ids : gset string)
  : gmap (string * string) (list string) :=
  (foldl (analyse_track artist_ids) (∅, ∅) all_tracks).1.

(** ** build_collaboration_matrix.py: the detail table *)

Record detail_row := DetailRow {
  artist_1 : string;
  artist_2 : string;
  number_of_collaborations : nat;
  track_names : string
}.

(** [{artist['id']: artist['name'] for artist in artists}], artists as
    pairs [(name, id)]. *)
Definition id_to_name (artists : list (string * string)) : gmap string string :=
  foldl (fun m a => <[a.2 := a.1]> m) ∅ artists.

(** The order of [sorted(collaborations.items())]: by key, the keys being
    pairwise different. *)
Definition pair_le (x y : string * string) : Prop :=
  String.ltb x.1 y.1 = true \/ (x.1 = y.1 /\ String.leb x.2 y.2 = true).

Definition item_le (x y : (string * string) * list string) : Prop :=
  pair_le x.1 y.1.

#[global] Instance item_le_dec x y : Decision (item_le x y).
Proof. unfold item_le, pair_le. apply _. Defined.

Fixpoint detail_rows (names : gmap string string)
    (sorted_items : list ((string * string) * list string))
  : outcome (list detail_row) :=
  match sorted_items with
  | [] => Returns []
  | ((artist1_id, artist2_id), tracks) :: rest =>
      match names !! artist1_id, names !! artist2_id with
      | None, _ => Raises (KeyError artist1_id)
      | Some _, None => Raises (KeyError artist2_id)
      | Some artist1_name, Some artist2_name =>
          match detail_rows names rest with
          | Raises e => Raises e
          | Returns rows =>
              Returns (DetailRow artist1_name artist2_name (length tracks)
                                 (String.concat "; " tracks) :: rows)
          end
      end
  end.

(** The data lines [save_collaboration_details] writes under its header
    [Artist 1, Artist 2, Number of Collaborations, Track Names]. *)
Definition save_collaboration_details
    (collaborations : gmap (string * string) (list string))
    (artists : list (string * string)) : outcome (list detail_row) :=
  detail_rows (id_to_name artists) (merge_sort item_le (map_to_list collaborations)).

(** The numbers of the attempts of a trace, in order. *)
Definition calls (tr : list event) : list nat :=
  omap (fun ev => match ev with EvCall k => Some k | _ => None end) tr.

(** The number of calls of [rate_limit_check] in a trace. *)
Definition rate_limit_checks (tr : list event) : nat :=
  length (omap (fun ev => match ev with EvRateLimitCheck => Some tt | _ => None end) tr).

(** The number of [time.sleep(REQUEST_SLEEP_SECONDS)] in a trace. *)
Definition request_sleeps (tr : list event) : nat :=
  length (omap (fun ev => match ev with EvRequestSleep => Some tt | _ => None end) tr).

(** [get_rate_limit_status()], at the reading [current_time] of the
    clock. *)
Definition get_rate_limit_status (current_time : Q) (request_timestamps : list Q)
  : nat * nat :=
  (foldl (fun count timestamp =>
            if Qle_bool (current_time - timestamp) RATE_LIMIT_WINDOW
            then S count else count) 0%nat request_timestamps,
   MAX_REQUESTS_PER_WINDOW).

(** ** build_collaboration_matrix.py: the roster *)

(** [load_artists_from_csv]: the artists as pairs [(name, id)] and the
    set [artist_ids]. *)
Definition load_artists_from_csv (f : csv_file) : list (string * string) * gset string :=
  foldl (fun (st : list (string * string) * gset string) line =>
           match dict_reader_get "name" (header f) line,
                 dict_reader_get "id" (header f) line with
           | Some name, Some artist_id =>
               if truthy (Some name) && truthy (Some artist_id)
               then (st.1 ++ [(name, artist_id)], {[artist_id]} ∪ st.2)
               else st
           | _, _ => st
           end) ([], ∅) (lines f).

(** ** build_collaboration_matrix.py: the two harvesting steps *)

Section AlbumIds.
(** [artist_albums idx artist_id k] is the outcome of the wrapped call
    [api_call_with_backoff(sp.artist_albums, artist_id, ..., offset=offset)]
    made for artist number [idx] of the roster with [offset = 50 * k]:
    the releases of [results['items']], or the error the wrapper
    raised. *)
Variable artist_albums : nat -> string -> nat -> outcome (list album).
(** Bound on the rounds of each [while True]. *)
Variable fuel : nat.

(** [for album in results['items']: album_ids.add(album['id'])] *)
Definition add_album_ids (album_ids : gset string) (items : list album) : gset string :=
  foldl (fun album_ids album => {[alb_id album]} ∪ album_ids) album_ids items.

(** The [while True] of one artist: the set it leaves and the error
    that ended it, if one did. *)
Fixpoint artist_albums_loop (idx : nat) (artist_id : string) (todo page : nat)
    (album_ids : gset string) : option (gset string * option exn) :=
  match todo with
  | O => None
  | S todo =>
      match artist_albums idx artist_id page with
      | Raises e => Some (album_ids, Some e)
      | Returns results_items =>
          let album_ids := add_album_ids album_ids results_items in
          if (length results_items <? 50)%nat
          then Some (album_ids, None)
          else artist_albums_loop idx artist_id todo (S page) album_ids
      end
  end.

(** [for idx, artist in enumerate(artists)] with its [try]; artists as
    pairs [(name, id)]. *)
Fixpoint all_album_ids_loop (artists : list (string * string)) (idx : nat)
    (album_ids : gset string) : option (outcome (gset string)) :=
  match artists with
  | [] => Some (Returns album_ids)
  | artist :: rest =>
      match artist_albums_loop idx artist.2 fuel 0 album_ids with
      | None => None
      | Some (album_ids, None) => all_album_ids_loop rest (S idx) album_ids
      | Some (album_ids, Some e) =>
          if is_Exception e
          then all_album_ids_loop rest (S idx) album_ids
          else Some (Raises e)
      end
  end.

(** [get_all_album_ids(artists)]: the set [album_ids], of which the
    function returns the elements as a list in the order of the set. *)
Definition get_all_album_ids (artists : list (string * string))
  : option (outcome (gset string)) :=
  all_album_ids_loop artists 0 ∅.
End AlbumIds.

(** An album of the answer of [sp.albums]: its id and [album['tracks']],
    when the key is there, as the first page of its tracks. *)
Record full_album := FullAlbum {
  fa_id : string;
  fa_tracks : option (page track)
}.

(** [range(0, total, step)] *)
Definition range_step (total step : nat) : list nat :=
  map (fun k => (k * step)%nat) (seq 0 ((total + step - 1) / step)).

(** The slices [album_ids[i:i+batch_size]] of the loop over
    [range(0, total_albums, batch_size)], [batch_size = 20]. *)
Definition batches (album_ids : list string) : list (list string) :=
  map (fun i => take 20 (drop i album_ids)) (range_step (length album_ids) 20).

Section Batched.
(** [sp_albums n batch] is the outcome of the wrapped call
    [api_call_with_backoff(sp.albums, batch)] of batch number [n]
    (from 0): the list [results['albums']], where [None] is an album
    that is null or empty. *)
Variable sp_albums : nat -> list string -> outcome (list (option full_album)).
(** [sp_album_tracks n pos album_id k] is the outcome of the wrapped
    call [api_call_with_backoff(sp.album_tracks, album_id, limit=50,
    offset=offset)] with [offset = 50 + 50 * k], made for the album at
    position [pos] of the answer to batch [n]: [more_results['items']],
    where [[]] stands for every answer that is false or has no items. *)
Variable sp_album_tracks : nat -> nat -> string -> nat -> outcome (list track).
Variable fuel : nat.

(** The inner [while True] with its own [try]. *)
Fixpoint more_tracks_loop (n pos : nat) (album_id : string) (todo page : nat)
    (all_tracks : list track) : option (outcome (list track)) :=
  match todo with
  | O => None
  | S todo =>
      match sp_album_tracks n pos album_id page with
      | Raises e => if is_Exception e then Some (Returns all_tracks) else Some (Raises e)
      | Returns [] => Some (Returns all_tracks)
      | Returns more_items =>
          let all_tracks := all_tracks ++ more_items in
          if (length more_items <? 50)%nat
          then Some (Returns all_tracks)
          else more_tracks_loop n pos album_id todo (S page) all_tracks
      end
  end.

(** [for album in results['albums']], under
    [if album and 'tracks' in album]. *)
Fixpoint batch_albums_loop (n : nat) (albums : list (option full_album)) (pos : nat)
    (all_tracks : list track) : option (outcome (list track)) :=
  match albums with
  | [] => Some (Returns all_tracks)
  | album :: rest =>
      match album with
      | Some (FullAlbum album_id (Some tracks)) =>
          let all_tracks := all_tracks ++ items tracks in
          if next tracks then
            match more_tracks_loop n pos album_id fuel 0 all_tracks with
            | None => None
            | Some (Raises e) => Some (Raises e)
            | Some (Returns all_tracks) => batch_albums_loop n rest (S pos) all_tracks
            end
          else batch_albums_loop n rest (S pos) all_tracks
      | _ => batch_albums_loop n rest (S pos) all_tracks
      end
  end.

(** [for i in range(0, total_albums, batch_size)] with its [try]. *)
Fixpoint batches_loop (bs : list (list string)) (n : nat) (all_tracks : list track)
  : option (outcome (list track)) :=
  match bs with
  | [] => Some (Returns all_tracks)
  | batch :: rest =>
      match sp_albums n batch with
      | Raises e =>
          if is_Exception e then batches_loop rest (S n) all_tracks else Some (Raises e)
      | Returns albums =>
          match batch_albums_loop n albums 0 all_tracks with
          | None => None
          | Some (Raises e) => Some (Raises e)
          | Some (Returns all_tracks) => batches_loop rest (S n) all_tracks
          end
      end
  end.

Definition get_albums_with_tracks_batched (album_ids : list string)
  : option (outcome (list track)) :=
  batches_loop (batches album_ids) 0 [].
End Batched.

(** ** build_collaboration_matrix.py: the adjacency matrix *)

(** [{artist['id']: idx for idx, artist in enumerate(artists)}] *)
Definition artist_id_to_idx (artists : list (string * string)) : gmap string nat :=
  foldl (fun m (p : nat * (string * string)) => <[p.2.2 := p.1]> m) ∅
        (zip (seq 0 (length artists)) artists).

(** [matrix[i][j] = 1]. The indices the function uses come from
    [artist_id_to_idx] and are below the size of the matrix. *)
Definition set_entry (matrix : list (list nat)) (i j : nat) : list (list nat) :=
  alter (fun row => <[j := 1%nat]> row) i matrix.

(** The loop over [collaborations.items()]. *)
Fixpoint fill_matrix (idx_of : gmap string nat)
    (items : list ((string * string) * list string)) (matrix : list (list nat))
  : outcome (list (list nat)) :=
  match items with
  | [] => Returns matrix
  | ((artist1_id, artist2_id), tracks) :: rest =>
      match idx_of !! artist1_id with
      | None => Raises (KeyError artist1_id)
      | Some idx1 =>
          match idx_of !! artist2_id with
          | None => Raises (KeyError artist2_id)
          | Some idx2 =>
              fill_matrix idx_of rest (set_entry (set_entry matrix idx1 idx2) idx2 idx1)
          end
      end
  end.

(** [build_adjacency_matrix(artists, collaborations)], the dict given
    by its items in the order of the dict; the matrix as the list of
    its rows, from [np.zeros((n, n), dtype=int)]. *)
Definition build_adjacency_matrix (artists : list (string * string))
    (collaborations : list ((string * string) * list string))
  : outcome (list (list nat)) :=
  let n := length artists in
  fill_matrix (artist_id_to_idx artists) collaborations (replicate n (replicate n 0%nat)).

(** ** artist_collab.py: the driver, with Ctrl+C at any point *)

(** Where Ctrl+C arrives in the iteration of one artist, when it does
    not arrive inside a call of the API (there the call itself raises
    [KeyboardInterrupt] in [world]):
    - [AtLoopHead]: at lines 352-357, before the [try]; nothing
      catches the interrupt there and it leaves [main];
    - [InHarvest]: in [get_collaborators_for_artist_id], outside its
      calls of the API;
    - [InAppend n]: in [append_collaborators_to_csv], when the header
      (of a new file) and [n] rows are written: [writer.writerows]
      takes the rows one by one, and leaving the [with] block closes
      the file with what was written;
    - [AfterAppend]: after the file was closed, at the [print] of line
      283 or at [processed_ids.add].
    The last three are inside the [try] and end the loop at line 365.
    The moment between the creation of a new file and the write of
    its header, which leaves an empty file, has no counterpart here:
    a [csv_file] has a header. *)
Inductive interrupt : Type :=
  | AtLoopHead
  | InHarvest
  | InAppend (rows_written : nat)
  | AfterAppend.

(** [append_collaborators_to_csv] left by Ctrl+C after [rows_written]
    rows. *)
Definition interrupted_append (collaborators : list row) (rows_written : nat)
    (output_csv : option csv_file) : option csv_file :=
  match collaborators with
  | [] => output_csv
  | first :: _ =>
      match take rows_written collaborators, output_csv with
      | [], None => Some (CsvFile (map fst first) [])
      | written, _ => append_collaborators_to_csv written output_csv
      end
  end.

(** How a run with such interrupts ends: the roster was exhausted;
    Ctrl+C was caught in the [try] of artist number [idx] and ended the
    loop; Ctrl+C left [main] at the head of iteration [idx]; a loop of
    the harvest of artist [idx] did not finish. *)
Inductive stop : Type :=
  | Finished
  | CaughtCtrlC (idx : nat)
  | UncaughtCtrlC (idx : nat)
  | Unfinished (idx : nat).

(** The output file, the numbers of the artists whose harvest was
    started, and the end of the run. *)
Record interrupted_run := InterruptedRun {
  file_left : option csv_file;
  harvest_log : list nat;
  how : stop
}.

Section SignalledDriver.
Variable lower : string -> string.
Variable fuel : nat.
Variable world : nat -> api.
(** [signals idx]: the interrupt of iteration [idx], if one arrives at
    a point the iteration reaches. *)
Variable signals : nat -> option interrupt.

(** [for idx, (name, artist_id) in enumerate(artists, start=1)] *)
Fixpoint signalled_loop (artists : list (string * string)) (idx : nat)
    (processed_ids : gset string) (output_csv : option csv_file)
    (log : list nat) : interrupted_run :=
  match artists with
  | [] => InterruptedRun output_csv log Finished
  | (name, artist_id) :: rest =>
      match signals idx with
      | Some AtLoopHead => InterruptedRun output_csv log (UncaughtCtrlC idx)
      | signal =>
          if decide (artist_id ∈ processed_ids)
          then signalled_loop rest (S idx) processed_ids output_csv log
          else
            match signal with
            | Some InHarvest => InterruptedRun output_csv (log ++ [idx]) (CaughtCtrlC idx)
            | _ =>
                match get_collaborators_for_artist_id lower fuel (world idx) name artist_id with
                | None => InterruptedRun output_csv (log ++ [idx]) (Unfinished idx)
                | Some (Raises e) =>
                    if is_Exception e
                    then signalled_loop rest (S idx) processed_ids output_csv (log ++ [idx])
                    else InterruptedRun output_csv (log ++ [idx]) (CaughtCtrlC idx)
                | Some (Returns collabs) =>
                    match signal with
                    | Some (InAppend rows_written) =>
                        InterruptedRun (interrupted_append collabs rows_written output_csv)
                                       (log ++ [idx]) (CaughtCtrlC idx)
                    | Some AfterAppend =>
                        InterruptedRun (append_collaborators_to_csv collabs output_csv)
                                       (log ++ [idx]) (CaughtCtrlC idx)
                    | _ =>
                        signalled_loop rest (S idx) ({[artist_id]} ∪ processed_ids)
                                       (append_collaborators_to_csv collabs output_csv)
                                       (log ++ [idx])
                    end
                end
            end
      end
  end.

(** [main()] with such interrupts, once the input file was found and
    read, the output file was read and the token obtained. *)
Definition main_with_interrupts (input_csv : csv_file) (output_csv : option csv_file)
  : interrupted_run :=
  let artists := load_artists_from_input input_csv in
  let processed_ids := load_already_processed_artists output_csv in
  signalled_loop artists 1 processed_ids output_csv [].
End SignalledDriver.

(* ================================================================== *)
(** * Part II: properties                                              *)
(* ================================================================== *)

(** ** Rate limiter *)

Lemma Qgtb_true a b : Qgtb a b = true <-> (b < a)%Q.
Proof.
  unfold Qgtb. rewrite negb_true_iff, <- not_true_iff_false, Qle_bool_iff.
  split; [apply Qnot_le_lt | apply Qlt_not_le].
Qed.

Lemma Qgtb_false a b : Qgtb a b = false <-> (a <= b)%Q.
Proof.
  unfold Qgtb. rewrite negb_false_iff, Qle_bool_iff. reflexivity.
Qed.

Definition expired (now x : Q) : Prop := (RATE_LIMIT_WINDOW < now - x)%Q.

(** The cleaning loop splits the deque into an expired prefix and the
    rest, whose head (if any) is still inside the window. *)
Lemma popleft_expired_split now ts :
  exists dropped,
    ts = dropped ++ popleft_expired now ts /\
    Forall (expired now) dropped /\
    match popleft_expired now ts with
    | [] => True
    | x :: _ => (now - x <= RATE_LIMIT_WINDOW)%Q
    end.
Proof.
  induction ts as [|x ts IH]; simpl.
  - exists []. repeat split; constructor.
  - destruct (Qgtb (now - x) RATE_LIMIT_WINDOW) eqn:E.
    + destruct IH as (d & Heq & Hd & Hh).
      exists (x :: d). split; [simpl; congruence|]. split; [|exact Hh].
      constructor; [apply Qgtb_true in E; exact E | exact Hd].
    + exists []. split; [reflexivity|]. split; [constructor|].
      apply Qgtb_false in E. exact E.
Qed.

Lemma popleft_expired_length now ts :
  (length (popleft_expired now ts) <= length ts)%nat.
Proof.
  destruct (popleft_expired_split now ts) as (d & Heq & _).
  rewrite Heq at 2. rewrite length_app. lia.
Qed.

(** While a call sleeps, the clock advances by at least the duration. *)
Definition sleep_ok (c : clock) (ts : list Q) : Prop :=
  match slept (rate_limit_check c ts) with
  | Some d => (at_entry c + d <= after_sleep c)%Q
  | None => True
  end.

(** One call: an expired prefix is dropped, one timestamp is appended, and
    fewer than the maximum survive next to the new one. *)
Lemma rate_limit_check_spec c ts :
  (length ts <= MAX_REQUESTS_PER_WINDOW)%nat ->
  sleep_ok c ts ->
  let a := rate_limit_check c ts in
  exists dropped kept,
    ts = dropped ++ kept /\
    timestamps_after a = kept ++ [recorded a] /\
    Forall (expired (recorded a)) dropped /\
    (at_entry c <= recorded a)%Q /\
    (length kept < MAX_REQUESTS_PER_WINDOW)%nat.
Proof.
  intros Hlen Hsleep. unfold sleep_ok in Hsleep. revert Hsleep.
  unfold rate_limit_check.
  destruct (popleft_expired_split (at_entry c) ts) as (d1 & Heq1 & Hd1 & Hhd1).
  pose proof (popleft_expired_length (at_entry c) ts) as Hl1.
  destruct (MAX_REQUESTS_PER_WINDOW <=? length (popleft_expired (at_entry c) ts))%nat eqn:Efull.
  - apply Nat.leb_le in Efull.
    destruct (popleft_expired (at_entry c) ts) as [|oldest rest] eqn:Ets1.
    { unfold MAX_REQUESTS_PER_WINDOW in Efull. simpl in Efull. lia. }
    assert (Hwait : Qgtb (RATE_LIMIT_WINDOW - (at_entry c - oldest) + 0.1) 0 = true).
    { apply Qgtb_true. unfold RATE_LIMIT_WINDOW in *. lra. }
    rewrite Hwait. simpl. intros Hsleep.
    destruct (popleft_expired_split (after_sleep c) (oldest :: rest))
      as (d2 & Heq2 & Hd2 & _).
    assert (Hpop : Qgtb (after_sleep c - oldest) RATE_LIMIT_WINDOW = true).
    { apply Qgtb_true. unfold RATE_LIMIT_WINDOW in *. lra. }
    exists (d1 ++ d2), (popleft_expired (after_sleep c) (oldest :: rest)).
    split; [rewrite <- app_assoc, <- Heq2; exact Heq1|].
    split; [reflexivity|].
    split.
    { apply Forall_app. split; [|exact Hd2].
      eapply Forall_impl; [exact Hd1|]. unfold expired, RATE_LIMIT_WINDOW in *.
      intros x Hx. simpl in Hx. lra. }
    split; [unfold RATE_LIMIT_WINDOW in *; lra|].
    simpl. rewrite Hpop.
    pose proof (popleft_expired_length (after_sleep c) rest).
    simpl in Hl1. lia.
  - apply Nat.leb_gt in Efull. simpl. intros _.
    exists d1, (popleft_expired (at_entry c) ts).
    split; [exact Heq1|]. split; [reflexivity|].
    split; [exact Hd1|]. split; [lra|exact Efull].
Qed.

Lemma count_in_window_app t h1 h2 :
  count_in_window t (h1 ++ h2) = (count_in_window t h1 + count_in_window t h2)%nat.
Proof. unfold count_in_window. rewrite filter_app, length_app. reflexivity. Qed.

Lemma count_in_window_le_length t h :
  (count_in_window t h <= length h)%nat.
Proof. unfold count_in_window. apply length_filter. Qed.

Lemma count_in_window_expired t now h :
  (now <= t)%Q -> Forall (expired now) h -> count_in_window t h = 0%nat.
Proof.
  intros Hle. unfold count_in_window. induction 1 as [|x h Hx _ IH]; [reflexivity|].
  rewrite filter_cons. destruct (decide (in_window t x = true)) as [Hin|_]; [|exact IH].
  exfalso. unfold in_window in Hin. apply andb_true_iff in Hin as [Hlo _].
  apply Qle_bool_iff in Hlo. unfold expired, RATE_LIMIT_WINDOW in *. lra.
Qed.

Lemma count_in_window_later t a :
  (t < a)%Q -> count_in_window t [a] = 0%nat.
Proof.
  intros Hlt. unfold count_in_window. rewrite filter_cons.
  destruct (decide (in_window t a = true)) as [Hin|_]; [|reflexivity].
  exfalso. unfold in_window in Hin. apply andb_true_iff in Hin as [_ Hhi].
  apply Qle_bool_iff in Hhi. lra.
Qed.

(** The invariant of the limiter: [h] is the history of recorded
    timestamps, [dq] the deque, [last] the last reading of the clock. *)
Record limiter_inv (last : Q) (dq h : list Q) : Prop := LimiterInv {
  inv_split : exists old, h = old ++ dq /\ Forall (expired last) old;
  inv_length : (length dq <= MAX_REQUESTS_PER_WINDOW)%nat;
  inv_count : forall t, (count_in_window t h <= MAX_REQUESTS_PER_WINDOW)%nat
}.

Lemma limiter_inv_init last : limiter_inv last [] [].
Proof.
  split.
  - exists []. split; [reflexivity|constructor].
  - simpl. lia.
  - intros t. unfold count_in_window. simpl. lia.
Qed.

Lemma limiter_inv_step last dq h c :
  limiter_inv last dq h ->
  (last <= at_entry c)%Q ->
  sleep_ok c dq ->
  let a := rate_limit_check c dq in
  limiter_inv (recorded a) (timestamps_after a) (h ++ [recorded a]).
Proof.
  intros [(old & Hh & Hold) Hlen Hcount] Hlast Hsleep a.
  destruct (rate_limit_check_spec c dq Hlen Hsleep)
    as (dropped & kept & Hdq & Hafter & Hdropped & Hrec & Hkept).
  fold a in Hafter, Hdropped, Hrec.
  assert (Hold' : Forall (expired (recorded a)) (old ++ dropped)).
  { apply Forall_app. split; [|exact Hdropped].
    eapply Forall_impl; [exact Hold|]. unfold expired.
    intros x Hx. simpl in Hx. lra. }
  split.
  - exists (old ++ dropped). split; [|exact Hold'].
    rewrite Hafter, Hh, Hdq, <- !app_assoc. reflexivity.
  - rewrite Hafter, length_app. simpl. lia.
  - intros t. destruct (Qlt_le_dec t (recorded a)) as [Hlt|Hle].
    + rewrite count_in_window_app, (count_in_window_later _ _ Hlt).
      specialize (Hcount t). lia.
    + rewrite Hh, Hdq, app_assoc, <- app_assoc.
      rewrite count_in_window_app, (count_in_window_expired _ _ _ Hle Hold').
      pose proof (count_in_window_le_length t (kept ++ [recorded a])) as Hk.
      rewrite length_app in Hk. simpl in Hk. lia.
Qed.

Lemma admissions_inv cs : forall last dq h,
  limiter_inv last dq h ->
  clock_ok last cs dq ->
  exists last', limiter_inv last' (run_limiter cs dq) (h ++ admissions cs dq).
Proof.
  induction cs as [|c cs IH]; intros last dq h Hinv Hok; simpl.
  - exists last. rewrite app_nil_r. exact Hinv.
  - simpl in Hok. destruct Hok as (Hlast & Hsleep & Hok).
    pose proof (limiter_inv_step last dq h c Hinv Hlast Hsleep) as Hstep.
    simpl in Hstep.
    destruct (IH _ _ _ Hstep Hok) as (last' & Hinv').
    exists last'. rewrite <- app_assoc in Hinv'. exact Hinv'.
Qed.

Lemma clock_ok_app cs1 : forall cs2 last dq,
  clock_ok last (cs1 ++ cs2) dq ->
  clock_ok last cs1 dq /\
  exists last', clock_ok last' cs2 (run_limiter cs1 dq).
Proof.
  induction cs1 as [|c cs1 IH]; intros cs2 last dq Hok; simpl in *.
  - split; [exact I|]. exists last. exact Hok.
  - destruct Hok as (H1 & H2 & H3). destruct (IH _ _ _ H3) as (Ha & last' & Hb).
    split; [repeat split; assumption|]. exists last'. exact Hb.
Qed.

(** C1. Against a clock that never goes back and a sleep that lasts at
    least as long as asked, after any number of calls of
    [rate_limit_check] (any prefix [cs1] of the calls [cs]) no trailing
    interval [[t - RATE_LIMIT_WINDOW, t]] holds more than
    [MAX_REQUESTS_PER_WINDOW] of the recorded timestamps; and each call
    [c] drops a prefix of the deque made of timestamps that are expired
    at the time it records, keeps the rest and appends that one time. *)
Theorem rate_limit_check_window_bound (cs : list clock) (t0 : Q) :
  clock_ok t0 cs [] ->
  (forall cs1 cs2 t, cs = cs1 ++ cs2 ->
     (count_in_window t (admissions cs1 []) <= MAX_REQUESTS_PER_WINDOW)%nat) /\
  (forall cs1 c cs2, cs = cs1 ++ c :: cs2 ->
     let dq := run_limiter cs1 [] in
     let a := rate_limit_check c dq in
     exists dropped kept,
       dq = dropped ++ kept /\
       timestamps_after a = kept ++ [recorded a] /\
       Forall (fun x => (RATE_LIMIT_WINDOW < recorded a - x)%Q) dropped).
Proof.
  intros Hok. split.
  - intros cs1 cs2 t ->. apply clock_ok_app in Hok as [Hok1 _].
    destruct (admissions_inv cs1 t0 [] [] (limiter_inv_init t0) Hok1) as (last & Hinv).
    simpl in Hinv. apply (inv_count _ _ _ Hinv).
  - intros cs1 c cs2 ->. apply clock_ok_app in Hok as [Hok1 (last' & Hok2)].
    destruct (admissions_inv cs1 t0 [] [] (limiter_inv_init t0) Hok1) as (last & Hinv).
    simpl in Hok2. destruct Hok2 as (_ & Hsleep & _).
    destruct (rate_limit_check_spec c _ (inv_length _ _ _ Hinv) Hsleep)
      as (dropped & kept & H1 & H2 & H3 & _).
    exists dropped, kept. repeat split; assumption.
Qed.

(** Twenty calls at time 0 fill the window; the next one, at time 1, has
    to sleep 4.1 seconds and wakes up at 5.2. *)
Definition burst : list clock :=
  repeat (Clock 0 0) 20 ++ [Clock 1 5.2].

Lemma burst_clock_ok : clock_ok 0 burst [].
Proof.
  vm_compute.
  repeat match goal with |- _ /\ _ => split end;
    try exact I; intros H; discriminate H.
Qed.

Example burst_sleeps :
  slept (rate_limit_check (Clock 1 5.2) (run_limiter (repeat (Clock 0 0) 20) []))
  = Some (RATE_LIMIT_WINDOW - (1 - 0) + 0.1)%Q.
Proof. reflexivity. Qed.

Example burst_deque : run_limiter burst [] = [5.2%Q].
Proof. reflexivity. Qed.

Lemma rate_limit_check_window_bound_witness :
  (forall cs1 cs2 t, burst = cs1 ++ cs2 ->
     (count_in_window t (admissions cs1 []) <= MAX_REQUESTS_PER_WINDOW)%nat) /\
  (forall cs1 c cs2, burst = cs1 ++ c :: cs2 ->
     let dq := run_limiter cs1 [] in
     let a := rate_limit_check c dq in
     exists dropped kept,
       dq = dropped ++ kept /\
       timestamps_after a = kept ++ [recorded a] /\
       Forall (fun x => (RATE_LIMIT_WINDOW < recorded a - x)%Q) dropped).
Proof.
  apply (rate_limit_check_window_bound burst 0).
  vm_compute.
  repeat match goal with |- _ /\ _ => split end;
    try exact I; intros H; discriminate H.
Defined.

(** ** Backoff executor *)

Section BackoffFacts.
Variable py_int : string -> option Z.
Context {A : Type}.
Variable func : nat -> outcome A.
Variable max_retries : nat.
Variable initial_wait : Z.

Local Abbreviation loop := (backoff_loop py_int func max_retries initial_wait).
Local Abbreviation handler := (on_failure py_int initial_wait).

(** The [j]-th sleep of the loop started at attempt [a] is the one
    that follows attempt [a + j]. *)
Lemma backoff_loop_delay todo : forall a j e w,
  In (EvCall (a + j)) (fst (loop todo a)) ->
  func (a + j) = Raises e ->
  handler e (a + j) = SleepFor w ->
  (0 <= w)%Z ->
  delays (fst (loop todo a)) !! j = Some w.
Proof.
  induction todo as [|todo IH]; intros a j e w Hin Hf Hh Hw; simpl in *.
  - destruct Hin.
  - destruct (func a) as [v|e0] eqn:Efa.
    + simpl in Hin. destruct Hin as [Hin|[Hin|[]]]; [discriminate|].
      assert (j = 0)%nat by (injection Hin; lia). subst j.
      rewrite Nat.add_0_r in Hf. congruence.
    + destruct (handler e0 a) as [w0|e'] eqn:Eh.
      * destruct (w0 <? 0)%Z eqn:Eneg.
        { simpl in Hin. destruct Hin as [Hin|[Hin|[]]]; [discriminate|].
          assert (j = 0)%nat by (injection Hin; lia). subst j.
          rewrite Nat.add_0_r in Hf, Hh.
          assert (e0 = e) by congruence. subst e0.
          assert (w0 = w) by congruence. subst w0.
          apply Z.ltb_lt in Eneg. lia. }
        destruct (loop todo (S a)) as [tr r] eqn:Eloop. simpl in *.
        destruct j as [|j].
        { rewrite Nat.add_0_r in Hf, Hh.
          assert (e0 = e) by congruence. subst e0.
          assert (w0 = w) by congruence. subst w0. reflexivity. }
        destruct Hin as [Hin|[Hin|[Hin|Hin]]]; try discriminate.
        { injection Hin. lia. }
        specialize (IH (S a) j e w). rewrite Eloop in IH. simpl in IH.
        replace (S (a + j))%nat with (a + S j)%nat in IH by lia.
        apply IH; assumption.
      * simpl in Hin. destruct Hin as [Hin|[Hin|[]]]; [discriminate|].
        assert (j = 0)%nat by (injection Hin; lia). subst j.
        rewrite Nat.add_0_r in Hf, Hh. congruence.
Qed.

(** When every one of the [todo] attempts is answered by a sleep, the
    loop ends in the generic exception. *)
Lemma backoff_loop_exhausted todo : forall a,
  (forall k, (a <= k < a + todo)%nat ->
     exists e w, func k = Raises e /\ handler e k = SleepFor w /\ (0 <= w)%Z) ->
  snd (loop todo a) = Raises (MaxRetriesExceeded max_retries) /\
  length (delays (fst (loop todo a))) = todo.
Proof.
  induction todo as [|todo IH]; intros a Hall; simpl.
  - split; reflexivity.
  - destruct (Hall a ltac:(lia)) as (e & w & Hf & Hh & Hw).
    rewrite Hf, Hh.
    destruct (w <? 0)%Z eqn:Eneg; [apply Z.ltb_lt in Eneg; lia|].
    destruct (IH (S a)) as [IH1 IH2].
    { intros k Hk. apply Hall. lia. }
    destruct (loop todo (S a)) as [tr r]. simpl in *.
    split; [exact IH1|]. rewrite IH2. reflexivity.
Qed.
End BackoffFacts.

(** C2. In [api_call_with_backoff], let the [n]-th attempt (numbered from
    1) be made and fail with HTTP 429. Without a [Retry-After] value (the
    header is absent or empty) the [n]-th delay is
    [initial_wait * 2^(n-1)], for a non-negative [initial_wait]; with a
    [Retry-After] value [v] (a non-empty header that [int] reads as
    [v >= 0]) the [n]-th delay is [v], whatever [n] is and whatever
    happened in the attempts before. *)
Theorem api_call_with_backoff_delay
    (py_int : string -> option Z) (A : Type) (func : nat -> outcome A)
    (max_retries : nat) (initial_wait : Z) (n : nat) (retry_after : option string) :
  (1 <= n)%nat ->
  In (EvCall (n - 1))
     (fst (api_call_with_backoff py_int func max_retries initial_wait)) ->
  func (n - 1)%nat = Raises (SpotifyException 429 retry_after) ->
  let tr := fst (api_call_with_backoff py_int func max_retries initial_wait) in
  (truthy retry_after = false -> (0 <= initial_wait)%Z ->
     delays tr !! (n - 1)%nat = Some (initial_wait * 2 ^ (Z.of_nat n - 1))%Z) /\
  (forall s v, retry_after = Some s -> s <> "" -> py_int s = Some v -> (0 <= v)%Z ->
     delays tr !! (n - 1)%nat = Some v).
Proof.
  intros Hn Hin Hf tr. unfold tr, api_call_with_backoff in *. split.
  - intros Hra Hw.
    apply (backoff_loop_delay py_int func max_retries initial_wait max_retries 0 (n - 1)
             (SpotifyException 429 retry_after)); try assumption.
    + simpl. rewrite Hra. f_equal. f_equal. f_equal. lia.
    + apply Z.mul_nonneg_nonneg; [exact Hw|]. apply Z.pow_nonneg. lia.
  - intros s v -> Hs Hint Hv.
    apply (backoff_loop_delay py_int func max_retries initial_wait max_retries 0 (n - 1)
             (SpotifyException 429 (Some s))); try assumption.
    simpl. destruct (String.eqb_spec s ""); [contradiction|]. simpl.
    rewrite Hint. reflexivity.
Qed.

(** Three attempts: 429 without header, 429 with [Retry-After: 7], then
    a result. *)
Definition flaky (k : nat) : outcome nat :=
  match k with
  | 0%nat => Raises (SpotifyException 429 None)
  | 1%nat => Raises (SpotifyException 429 (Some "7"))
  | _ => Returns 42%nat
  end.

Example flaky_run :
  api_call_with_backoff int_decimal flaky 5 2 =
  ([EvRateLimitCheck; EvCall 0; EvSleep 2;
    EvRateLimitCheck; EvCall 1; EvSleep 7;
    EvRateLimitCheck; EvCall 2], Returns 42%nat).
Proof. reflexivity. Qed.

Lemma api_call_with_backoff_delay_witness :
  let tr := fst (api_call_with_backoff int_decimal flaky 5 2) in
  (truthy (Some "7") = false -> (0 <= 2)%Z ->
     delays tr !! (2 - 1)%nat = Some (2 * 2 ^ (Z.of_nat 2 - 1))%Z) /\
  (forall s v, Some "7" = Some s -> s <> "" -> int_decimal s = Some v -> (0 <= v)%Z ->
     delays tr !! (2 - 1)%nat = Some v).
Proof.
  apply (api_call_with_backoff_delay int_decimal nat flaky 5 2 2 (Some "7")).
  - lia.
  - vm_compute. tauto.
  - reflexivity.
Defined.

(** C3, as claimed: the error raised after the last attempt would let one
    recover the failure of that attempt. It does not: two runs of two
    attempts whose failures differ (a 503 and a network error) raise the
    same exception. *)
Lemma api_call_with_backoff_forgets_last_error :
  ~ exists recover : exn -> exn,
      forall (func : nat -> outcome nat) (e0 e1 : exn),
        func 0%nat = Raises e0 -> func 1%nat = Raises e1 ->
        In (EvCall 1) (fst (api_call_with_backoff int_decimal func 2 1)) ->
        exists err,
          snd (api_call_with_backoff int_decimal func 2 1) = Raises err /\
          recover err = e1.
Proof.
  intros (recover & Hrec).
  pose (f1 := fun _ : nat => @Raises nat (SpotifyException 503 None)).
  pose (f2 := fun _ : nat => @Raises nat (RequestException "timeout")).
  destruct (Hrec f1 _ _ eq_refl eq_refl) as (err1 & Hr1 & He1).
  { vm_compute. tauto. }
  destruct (Hrec f2 _ _ eq_refl eq_refl) as (err2 & Hr2 & He2).
  { vm_compute. tauto. }
  vm_compute in Hr1, Hr2.
  assert (err1 = err2) by congruence. subst err2.
  rewrite He1 in He2. discriminate He2.
Qed.

(** C3, amended. When each of the [max_retries] attempts of
    [api_call_with_backoff] fails with an error that is retried (429, a
    5xx, or an exception other than a SpotifyException) the call makes
    [max_retries] sleeps and raises the generic exception
    "Max retries (max_retries) exceeded for API call": the same value
    whatever the failures were. *)
Theorem api_call_with_backoff_exhausted
    (py_int : string -> option Z) (A : Type) (func : nat -> outcome A)
    (max_retries : nat) (initial_wait : Z) :
  (forall k, (k < max_retries)%nat ->
     exists e w, func k = Raises e /\
       on_failure py_int initial_wait e k = SleepFor w /\ (0 <= w)%Z) ->
  snd (api_call_with_backoff py_int func max_retries initial_wait)
    = Raises (MaxRetriesExceeded max_retries) /\
  length (delays (fst (api_call_with_backoff py_int func max_retries initial_wait)))
    = max_retries.
Proof.
  intros Hall. unfold api_call_with_backoff.
  apply backoff_loop_exhausted. intros k Hk. apply Hall. lia.
Qed.

Definition always_503 (k : nat) : outcome nat :=
  Raises (SpotifyException 503 None).

Lemma api_call_with_backoff_exhausted_witness :
  snd (api_call_with_backoff int_decimal always_503 3 2)
    = Raises (MaxRetriesExceeded 3) /\
  length (delays (fst (api_call_with_backoff int_decimal always_503 3 2))) = 3%nat.
Proof.
  apply (api_call_with_backoff_exhausted int_decimal nat always_503 3 2).
  intros k Hk. exists (SpotifyException 503 None), (2 * 2 ^ Z.of_nat k)%Z.
  split; [reflexivity|]. split; [reflexivity|]. lia.
Defined.

(** The sibling [spotify_get] retries on 429 only; when all of its
    attempts are answered 429 it raises the HTTP error of the last
    response. *)
Section SpotifyGetFacts.
Variable py_int : string -> option Z.
Context {J : Type}.
Variable get : nat -> outcome (response J).

Definition answered_429 (k : nat) : Prop :=
  exists r v, get k = Returns r /\ status_code r = 429%Z /\
    py_int (default "1" (header_retry_after r)) = Some v /\ (0 <= v)%Z.

Lemma spotify_get_loop_exhausted todo : forall a r0,
  (forall k, (a <= k < a + todo)%nat -> answered_429 k) ->
  status_code r0 = 429%Z ->
  exists rl,
    (match todo with
     | O => rl = r0
     | S n => get (a + n)%nat = Returns rl
     end) /\
    snd (spotify_get_loop py_int get todo a (Some r0))
      = Raises (HTTPError 429 (header_retry_after rl)).
Proof.
  induction todo as [|todo IH]; intros a r0 Hall H0; simpl.
  - exists r0. split; [reflexivity|]. unfold raise_for_status. rewrite H0. reflexivity.
  - destruct (Hall a ltac:(lia)) as (r & v & Hg & Hs & Hi & Hv).
    rewrite Hg, Hs, Hi. simpl.
    destruct (v <? 0)%Z eqn:Eneg; [apply Z.ltb_lt in Eneg; lia|].
    destruct (IH (S a) r) as (rl & Hrl & Hres).
    { intros k Hk. apply Hall. lia. }
    { exact Hs. }
    destruct (spotify_get_loop py_int get todo (S a) (Some r)) as [tr res].
    simpl in *. exists rl. split; [|exact Hres].
    destruct todo as [|n]; [subst rl; rewrite Nat.add_0_r; exact Hg|].
    replace (a + S n)%nat with (S a + n)%nat by lia. exact Hrl.
Qed.

Lemma spotify_get_exhausted n :
  (forall k, (k <= n)%nat -> answered_429 k) ->
  exists rl, get n = Returns rl /\
    snd (spotify_get py_int get (S n)) = Raises (HTTPError 429 (header_retry_after rl)).
Proof.
  intros Hall. unfold spotify_get. simpl.
  destruct (Hall 0%nat ltac:(lia)) as (r & v & Hg & Hs & Hi & Hv).
  rewrite Hg, Hs, Hi. simpl.
  destruct (v <? 0)%Z eqn:Eneg; [apply Z.ltb_lt in Eneg; lia|].
  destruct (spotify_get_loop_exhausted n 1 r) as (rl & Hrl & Hres).
  { intros k Hk. apply Hall. lia. }
  { exact Hs. }
  destruct (spotify_get_loop py_int get n 1 (Some r)) as [tr res].
  simpl in *. exists rl. split; [|exact Hres].
  destruct n as [|m]; [subst rl; exact Hg|exact Hrl].
Qed.

Lemma spotify_get_no_attempt :
  spotify_get py_int get 0 = ([], Raises UnboundLocalError).
Proof. reflexivity. Qed.
End SpotifyGetFacts.

(** ** Release listing *)

Definition album_ids (l : list album) : list string := map alb_id l.

(** The running set [seen_album_ids] is the set of the ids collected in
    [all_items], and those ids are pairwise different. *)
Definition albums_inv (all_items : list album) (seen : gset string) : Prop :=
  seen = list_to_set (album_ids all_items) /\ NoDup (album_ids all_items).

Lemma albums_inv_init : albums_inv [] ∅.
Proof. split; [reflexivity|constructor]. Qed.

Lemma albums_inv_size all_items seen :
  albums_inv all_items seen -> size seen = length all_items.
Proof.
  intros [-> Hnd]. rewrite size_list_to_set by exact Hnd.
  unfold album_ids. apply length_map.
Qed.

Section AlbumsFacts.
Variable fetch : nat -> outcome (option (page album)).
Variable max_albums : Z.

Lemma scan_albums_spec its : forall all_items seen,
  albums_inv all_items seen ->
  exists stop all' seen',
    scan_albums max_albums its all_items seen = (stop, all', seen') /\
    albums_inv all' seen' /\
    (exists ext, all' = all_items ++ ext /\ ext ⊆ its) /\
    (stop = true ->
       (max_albums <= Z.of_nat (length all'))%Z /\
       ((Z.of_nat (length all_items) < max_albums)%Z ->
        Z.of_nat (length all') = max_albums)) /\
    (stop = false ->
       seen' = seen ∪ list_to_set (album_ids its) /\
       ((Z.of_nat (length all_items) < max_albums)%Z ->
        (Z.of_nat (length all') < max_albums)%Z)).
Proof.
  induction its as [|alb its IH]; intros all_items seen Hinv; simpl.
  - exists false, all_items, seen. split; [reflexivity|]. split; [exact Hinv|].
    split; [exists []; rewrite app_nil_r; split; [reflexivity|set_solver]|].
    split; [discriminate|]. intros _. split; [set_solver|tauto].
  - destruct (decide (alb_id alb ∈ seen)) as [Hseen|Hnew].
    + destruct (IH all_items seen Hinv) as (stop & all' & seen' & Heq & Hinv' & Hext & Ht & Hf).
      exists stop, all', seen'. split; [exact Heq|]. split; [exact Hinv'|].
      split; [destruct Hext as (ext & ? & ?); exists ext; split; [assumption|set_solver]|].
      split; [exact Ht|]. intros Hs. destruct (Hf Hs) as [-> Hlen].
      split; [set_solver|exact Hlen].
    + assert (Hinv1 : albums_inv (all_items ++ [alb]) ({[alb_id alb]} ∪ seen)).
      { destruct Hinv as [-> Hnd]. unfold albums_inv, album_ids in *. split.
        - rewrite map_app, list_to_set_app_L. simpl. set_solver.
        - rewrite map_app. apply NoDup_app. split; [exact Hnd|]. split.
          + intros x Hx Hx'. simpl in Hx'. apply list_elem_of_singleton in Hx'. subst x.
            apply Hnew. apply elem_of_list_to_set. exact Hx.
          + simpl. apply NoDup_singleton. }
      destruct (max_albums <=? Z.of_nat (length (all_items ++ [alb])))%Z eqn:Ecap.
      * apply Z.leb_le in Ecap.
        exists true, (all_items ++ [alb]), ({[alb_id alb]} ∪ seen).
        split; [reflexivity|]. split; [exact Hinv1|].
        split; [exists [alb]; split; [reflexivity|set_solver]|].
        split; [|discriminate]. intros _. split; [exact Ecap|].
        rewrite length_app in *. simpl in *. lia.
      * apply Z.leb_gt in Ecap.
        destruct (IH _ _ Hinv1) as (stop & all' & seen' & Heq & Hinv' & Hext & Ht & Hf).
        exists stop, all', seen'. split; [exact Heq|]. split; [exact Hinv'|].
        split.
        { destruct Hext as (ext & -> & Hsub). exists (alb :: ext).
          split; [rewrite <- app_assoc; reflexivity|set_solver]. }
        split.
        { intros Hs. destruct (Ht Hs) as [H1 H2]. split; [exact H1|].
          intros _. apply H2. exact Ecap. }
        { intros Hs. destruct (Hf Hs) as [-> H2]. split; [set_solver|].
          intros _. apply H2. exact Ecap. }
Qed.

Definition page_ids (ps : list (page album)) : list string :=
  flat_map (fun p => album_ids (items p)) ps.

(** One round of the loop, on a page that was served. *)
Lemma albums_loop_round fuel call all_items seen data :
  fetch call = Returns (Some data) ->
  albums_loop fetch max_albums (S fuel) call all_items seen =
  if decide (items data = []) then Some (Returns all_items)
  else
    let '(stop, all', seen') := scan_albums max_albums (items data) all_items seen in
    if stop then Some (Returns all')
    else if next data then albums_loop fetch max_albums fuel (S call) all' seen'
         else Some (Returns all').
Proof.
  intros Hf. simpl. rewrite Hf.
  destruct (items data); [reflexivity|]. destruct (decide _); [discriminate|reflexivity].
Qed.

(** Pages [front ++ [last]] are served from call [call] on, the pages of
    [front] are not empty and announce a next page, and together with
    what was seen they hold [max_albums] different ids: the loop returns
    [max_albums] releases. *)
Lemma albums_loop_reaches_cap front : forall last call all_items seen fuel,
  albums_inv all_items seen ->
  (Z.of_nat (length all_items) < max_albums)%Z ->
  (forall i p, (front ++ [last]) !! i = Some p -> fetch (call + i)%nat = Returns (Some p)) ->
  Forall (fun p => items p <> [] /\ next p = true) front ->
  (max_albums <= Z.of_nat (size (seen ∪ list_to_set (page_ids (front ++ [last])))))%Z ->
  (length front < fuel)%nat ->
  exists l,
    albums_loop fetch max_albums fuel call all_items seen = Some (Returns l) /\
    Z.of_nat (length l) = max_albums /\
    NoDup (album_ids l) /\
    (forall x, x ∈ l -> x ∈ all_items \/ exists p, p ∈ front ++ [last] /\ x ∈ items p).
Proof.
  induction front as [|p0 front IH];
    intros last call all_items seen fuel Hinv Hlt Hfetch Hfront Hsize Hfuel.
  - destruct fuel as [|fuel]; [simpl in Hfuel; lia|].
    pose proof (Hfetch 0%nat last eq_refl) as Hf. rewrite Nat.add_0_r in Hf.
    rewrite (albums_loop_round _ _ _ _ _ Hf).
    destruct (scan_albums_spec (items last) all_items seen Hinv)
      as (stop & all' & seen' & Heq & Hinv' & (ext & Hext & Hsub) & Ht & Hf').
    unfold page_ids in Hsize. simpl in Hsize. rewrite app_nil_r in Hsize.
    destruct (decide (items last = [])) as [Hnil|Hne].
    { rewrite Hnil in Hsize. simpl in Hsize. rewrite union_empty_r_L in Hsize.
      rewrite (albums_inv_size _ _ Hinv) in Hsize. lia. }
    rewrite Heq.
    destruct stop.
    + destruct (Ht eq_refl) as [_ Hlen]. exists all'. split; [reflexivity|].
      split; [apply Hlen; exact Hlt|]. split; [apply Hinv'|].
      intros x Hx. subst all'. apply elem_of_app in Hx as [Hx|Hx]; [left; exact Hx|].
      right. exists last. split; [set_solver|]. apply Hsub. exact Hx.
    + exfalso. destruct (Hf' eq_refl) as [Hseen' Hlen].
      specialize (Hlen Hlt). rewrite <- (albums_inv_size _ _ Hinv') in Hlen.
      rewrite <- Hseen' in Hsize. lia.
  - destruct fuel as [|fuel]; [simpl in Hfuel; lia|].
    pose proof (Hfetch 0%nat p0 eq_refl) as Hf. rewrite Nat.add_0_r in Hf.
    rewrite (albums_loop_round _ _ _ _ _ Hf).
    apply Forall_cons in Hfront as [[Hne Hnext] Hfront].
    destruct (scan_albums_spec (items p0) all_items seen Hinv)
      as (stop & all' & seen' & Heq & Hinv' & (ext & Hext & Hsub) & Ht & Hf').
    destruct (decide (items p0 = [])) as [Hnil|_]; [contradiction|].
    rewrite Heq.
    destruct stop.
    + destruct (Ht eq_refl) as [_ Hlen]. exists all'. split; [reflexivity|].
      split; [apply Hlen; exact Hlt|]. split; [apply Hinv'|].
      intros x Hx. subst all'. apply elem_of_app in Hx as [Hx|Hx]; [left; exact Hx|].
      right. exists p0. split; [set_solver|]. apply Hsub. exact Hx.
    + rewrite Hnext. destruct (Hf' eq_refl) as [Hseen' Hlen]. specialize (Hlen Hlt).
      destruct (IH last (S call) all' seen' fuel Hinv' Hlen) as (l & Hl & Hlenl & Hnd & Hin).
      * intros i p Hp. replace (S call + i)%nat with (call + S i)%nat by lia.
        apply Hfetch. exact Hp.
      * exact Hfront.
      * rewrite Hseen'. unfold page_ids in *.
        change ((p0 :: front) ++ [last]) with (p0 :: (front ++ [last])) in Hsize.
        cbn [flat_map] in Hsize.
        rewrite list_to_set_app_L in Hsize.
        rewrite <- (assoc_L (∪)). exact Hsize.
      * simpl in Hfuel. lia.
      * exists l. split; [exact Hl|]. split; [exact Hlenl|]. split; [exact Hnd|].
        intros x Hx. destruct (Hin x Hx) as [Hx'|(p & Hp & Hxp)].
        { subst all'. apply elem_of_app in Hx' as [Hx'|Hx']; [left; exact Hx'|].
          right. exists p0. split; [set_solver|]. apply Hsub. exact Hx'. }
        { right. exists p. split; [set_solver|exact Hxp]. }
Qed.

(** Whatever the pages, what the loop returns has pairwise different
    ids. *)
Lemma albums_loop_NoDup fuel : forall call all_items seen l,
  albums_inv all_items seen ->
  albums_loop fetch max_albums fuel call all_items seen = Some (Returns l) ->
  NoDup (album_ids l).
Proof.
  induction fuel as [|fuel IH]; intros call all_items seen l Hinv Hrun.
  - discriminate.
  - destruct (fetch call) as [[data|]|e] eqn:Hf;
      [|simpl in Hrun; rewrite Hf in Hrun; discriminate..].
    rewrite (albums_loop_round _ _ _ _ _ Hf) in Hrun.
    destruct (scan_albums_spec (items data) all_items seen Hinv)
      as (stop & all' & seen' & Heq & Hinv' & _).
    destruct (decide (items data = [])).
    + injection Hrun as <-. apply Hinv.
    + rewrite Heq in Hrun. destruct stop.
      * injection Hrun as <-. apply Hinv'.
      * destruct (next data).
        { eapply IH; eassumption. }
        { injection Hrun as <-. apply Hinv'. }
Qed.
End AlbumsFacts.

(** C4. Let the release listing serve the pages [front ++ [last]], the
    pages of [front] non-empty and announcing a next page, and let these
    pages hold at least [max_albums >= 1] different release ids, so that
    the count of unique releases reaches [max_albums]. Then, given rounds
    enough for these pages, [get_artist_albums_albums_and_singles]
    returns (it does not raise) exactly [max_albums] releases with
    pairwise different ids, all taken from these pages; nothing is asked
    of the flag [next] of the last page or of any later call. *)
Theorem get_artist_albums_stops_at_max_albums
    (fetch : nat -> outcome (option (page album))) (max_albums : Z)
    (front : list (page album)) (last : page album) (fuel : nat) :
  (1 <= max_albums)%Z ->
  (forall i p, (front ++ [last]) !! i = Some p -> fetch i = Returns (Some p)) ->
  Forall (fun p => items p <> [] /\ next p = true) front ->
  (max_albums <=
     Z.of_nat (size (list_to_set (page_ids (front ++ [last])) : gset string)))%Z ->
  (length front < fuel)%nat ->
  exists l,
    get_artist_albums_albums_and_singles fetch max_albums fuel = Some (Returns l) /\
    Z.of_nat (length l) = max_albums /\
    NoDup (album_ids l) /\
    (forall x, x ∈ l -> exists p, p ∈ front ++ [last] /\ x ∈ items p).
Proof.
  intros Hmax Hfetch Hfront Hsize Hfuel.
  unfold get_artist_albums_albums_and_singles.
  destruct (albums_loop_reaches_cap fetch max_albums front last 0 [] ∅ fuel)
    as (l & Hl & Hlen & Hnd & Hin).
  - exact albums_inv_init.
  - simpl. lia.
  - exact Hfetch.
  - exact Hfront.
  - rewrite union_empty_l_L. exact Hsize.
  - exact Hfuel.
  - exists l. split; [exact Hl|]. split; [exact Hlen|]. split; [exact Hnd|].
    intros x Hx. destruct (Hin x Hx) as [Hx'|Hx']; [|exact Hx'].
    apply elem_of_nil in Hx'. destruct Hx'.
Qed.

(** Two overlapping pages of releases; the cap 3 is reached in the middle
    of the second page. *)
Definition release_page_0 : page album :=
  Page [Album "r1" "One"; Album "r2" "Two"] true.
Definition release_page_1 : page album :=
  Page [Album "r2" "Two"; Album "r3" "Three"; Album "r4" "Four"] true.

Definition overlapping_releases (k : nat) : outcome (option (page album)) :=
  match k with
  | 0%nat => Returns (Some release_page_0)
  | 1%nat => Returns (Some release_page_1)
  | _ => Raises (RequestException "not reached")
  end.

Example overlapping_releases_run :
  get_artist_albums_albums_and_singles overlapping_releases 3 2
  = Some (Returns [Album "r1" "One"; Album "r2" "Two"; Album "r3" "Three"]).
Proof. vm_compute. reflexivity. Qed.

Lemma get_artist_albums_stops_at_max_albums_witness :
  exists l,
    get_artist_albums_albums_and_singles overlapping_releases 3 2 = Some (Returns l) /\
    Z.of_nat (length l) = 3%Z /\
    NoDup (album_ids l) /\
    (forall x, x ∈ l ->
       exists p, p ∈ [release_page_0] ++ [release_page_1] /\ x ∈ items p).
Proof.
  apply (get_artist_albums_stops_at_max_albums overlapping_releases 3
           [release_page_0] release_page_1 2).
  - lia.
  - intros [|[|i]] p Hp; simpl in Hp; try discriminate; injection Hp as <-; reflexivity.
  - repeat constructor; discriminate.
  - vm_compute. discriminate.
  - simpl. lia.
Defined.

(** The cap is tested only after a release was appended: with
    [max_albums = 0] the first release is returned. *)
Example max_albums_zero :
  get_artist_albums_albums_and_singles overlapping_releases 0 2
  = Some (Returns [Album "r1" "One"]).
Proof. vm_compute. reflexivity. Qed.

(** ** Track listing *)

(** What the loop of [get_all_album_tracks] returns is what it had,
    followed by the items of the pages it was served, in order. *)
Lemma tracks_loop_concat fetch fuel : forall call tracks l,
  tracks_loop fetch fuel call tracks = Some (Returns l) ->
  exists ps,
    (forall i p, ps !! i = Some p -> fetch (call + i)%nat = Returns (Some p)) /\
    l = tracks ++ flat_map items ps.
Proof.
  induction fuel as [|fuel IH]; intros call tracks l Hrun; simpl in Hrun.
  - discriminate.
  - destruct (fetch call) as [[data|]|e] eqn:Hf; try discriminate.
    assert (Hserved : forall (i : nat) (p : page track), [data] !! i = Some p ->
                                  fetch (call + i)%nat = Returns (Some p)).
    { intros [|i] p Hp; simpl in Hp; [|discriminate].
      injection Hp as <-. rewrite Nat.add_0_r. exact Hf. }
    destruct (items data) as [|t0 ts] eqn:Eits.
    + injection Hrun as <-. exists [data]. split; [exact Hserved|].
      simpl. rewrite Eits, !app_nil_r. reflexivity.
    + destruct (next data).
      * destruct (IH _ _ _ Hrun) as (ps & Hps & ->).
        exists (data :: ps). split.
        { intros [|i] p Hp; [apply (Hserved 0%nat); exact Hp|].
          replace (call + S i)%nat with (S call + i)%nat by lia. apply Hps. exact Hp. }
        { simpl. rewrite Eits, <- app_assoc. reflexivity. }
      * injection Hrun as <-. exists [data]. split; [exact Hserved|].
        simpl. rewrite Eits, app_nil_r. reflexivity.
Qed.

(** A track listing whose second page repeats the track of the first. *)
Definition same_track : track :=
  Track (Some "t1") "Song" [Artist (Some "a") "A"; Artist (Some "b") "B"].

Definition repeating_tracks (k : nat) : outcome (option (page track)) :=
  match k with
  | 0%nat => Returns (Some (Page [same_track] true))
  | _ => Returns (Some (Page [same_track] false))
  end.

Example repeating_tracks_run :
  get_all_album_tracks repeating_tracks 2 = Some (Returns [same_track; same_track]).
Proof. reflexivity. Qed.

(** C5, as claimed for tracks: no track id twice in what the track
    harvester yields. The listing above is yielded as served, the track
    id [t1] twice. *)
Lemma get_all_album_tracks_yields_duplicates :
  ~ (forall (fetch : nat -> outcome (option (page track))) (fuel : nat) (l : list track),
       get_all_album_tracks fetch fuel = Some (Returns l) ->
       NoDup (omap t_id l)).
Proof.
  intros Hclaim.
  specialize (Hclaim repeating_tracks 2%nat _ repeating_tracks_run).
  simpl in Hclaim. apply NoDup_cons in Hclaim as [Hnotin _].
  apply Hnotin. apply list_elem_of_here.
Qed.

(** C5, amended. Within one artist's harvest every release id is
    recorded at most once, whatever pages the listing serves; the track
    harvester does not deduplicate: it returns the tracks of the pages it
    was served, in order and as often as they were served. *)
Theorem harvest_releases_unique_tracks_as_served
    (releases : nat -> outcome (option (page album))) (max_albums : Z)
    (listing : nat -> outcome (option (page track)))
    (fuel : nat) (albums : list album) (tracks : list track) :
  get_artist_albums_albums_and_singles releases max_albums fuel = Some (Returns albums) ->
  get_all_album_tracks listing fuel = Some (Returns tracks) ->
  NoDup (map alb_id albums) /\
  exists ps,
    (forall i p, ps !! i = Some p -> listing i = Returns (Some p)) /\
    tracks = flat_map items ps.
Proof.
  intros Halbums Htracks. split.
  - eapply (albums_loop_NoDup releases max_albums); [exact albums_inv_init|exact Halbums].
  - destruct (tracks_loop_concat _ _ _ _ _ Htracks) as (ps & Hps & ->).
    exists ps. split; [exact Hps|reflexivity].
Qed.

Lemma harvest_releases_unique_tracks_as_served_witness :
  NoDup (map alb_id [Album "r1" "One"; Album "r2" "Two"; Album "r3" "Three"]) /\
  exists ps,
    (forall i p, ps !! i = Some p -> repeating_tracks i = Returns (Some p)) /\
    [same_track; same_track] = flat_map items ps.
Proof.
  apply (harvest_releases_unique_tracks_as_served overlapping_releases 3
           repeating_tracks 2).
  - vm_compute. reflexivity.
  - reflexivity.
Defined.

(** ** Restricted-mode extraction *)

Definition str_min (a b : string) : string := if String.leb a b then a else b.
Definition str_max (a b : string) : string := if String.leb a b then b else a.

Lemma sorted_pair_min_max a b : sorted_pair a b = (str_min a b, str_max a b).
Proof. unfold sorted_pair, str_min, str_max. destruct (String.leb a b); reflexivity. Qed.

Lemma leb_false_flip a b : String.leb a b = false -> String.leb b a = true.
Proof. intros H. destruct (String.leb_total a b) as [H'|H']; congruence. Qed.

Lemma sorted_pair_comm a b : sorted_pair a b = sorted_pair b a.
Proof.
  unfold sorted_pair.
  destruct (String.leb a b) eqn:Eab, (String.leb b a) eqn:Eba; try reflexivity.
  - rewrite (String.leb_antisym _ _ Eab Eba). reflexivity.
  - apply leb_false_flip in Eab. congruence.
Qed.

(** A key is canonical when its first component is not above the
    second. *)
Definition canonical (k : string * string) : Prop := String.leb k.1 k.2 = true.

Lemma sorted_pair_canonical a b : canonical (sorted_pair a b).
Proof.
  unfold canonical, sorted_pair. destruct (String.leb a b) eqn:E; simpl.
  - exact E.
  - apply leb_false_flip. exact E.
Qed.

Lemma pairs_canonical l : Forall canonical (pairs l).
Proof.
  induction l as [|a l IH]; simpl; [constructor|].
  apply Forall_app. split; [|exact IH].
  apply Forall_forall. intros k Hk. apply list_elem_of_fmap in Hk as (b & -> & _).
  apply sorted_pair_canonical.
Qed.

(** Two different members of the list meet in one of the pairs. *)
Lemma pairs_meet l : forall a b,
  a <> b -> a ∈ l -> b ∈ l -> sorted_pair a b ∈ pairs l.
Proof.
  induction l as [|x l IH]; intros a b Hab Ha Hb; [inversion Ha|].
  simpl. apply elem_of_app.
  apply elem_of_cons in Ha as [->|Ha]; apply elem_of_cons in Hb as [->|Hb].
  - contradiction.
  - left. apply list_elem_of_fmap. exists b. split; [reflexivity|exact Hb].
  - left. rewrite sorted_pair_comm. apply list_elem_of_fmap.
    exists a. split; [reflexivity|exact Ha].
  - right. apply IH; assumption.
Qed.

Lemma pairs_short l : (length l < 2)%nat -> pairs l = [].
Proof. destruct l as [|a [|b l]]; simpl; intros; try reflexivity; lia. Qed.

Section FindCollaborations.
Variable artist_ids : gset string.

Local Abbreviation evidence := (gmap (string * string) (list string)).

(** Evidence is only ever appended. *)
Definition extends (m m' : evidence) : Prop :=
  forall k ev, m !! k = Some ev -> exists more, m' !! k = Some (ev ++ more).

Lemma extends_refl m : extends m m.
Proof. intros k ev H. exists []. rewrite app_nil_r. exact H. Qed.

Lemma extends_trans m1 m2 m3 : extends m1 m2 -> extends m2 m3 -> extends m1 m3.
Proof.
  intros H12 H23 k ev H. destruct (H12 k ev H) as (more & H').
  destruct (H23 k _ H') as (more' & H''). exists (more ++ more').
  rewrite app_assoc. exact H''.
Qed.

Lemma append_evidence_extends name m k : extends m (append_evidence name m k).
Proof.
  intros k' ev H. unfold append_evidence.
  destruct (decide (k = k')) as [->|Hne].
  - rewrite lookup_insert_eq, H. simpl. exists [name]. reflexivity.
  - rewrite lookup_insert_ne by exact Hne. exists []. rewrite app_nil_r. exact H.
Qed.

Lemma append_all_extends name ps : forall m,
  extends m (foldl (append_evidence name) m ps).
Proof.
  induction ps as [|k ps IH]; intros m; simpl; [apply extends_refl|].
  eapply extends_trans; [apply append_evidence_extends|apply IH].
Qed.

Lemma append_all_records name ps : forall m k,
  k ∈ ps -> exists ev, foldl (append_evidence name) m ps !! k = Some ev /\ name ∈ ev.
Proof.
  induction ps as [|k0 ps IH]; intros m k Hk; [inversion Hk|]. simpl.
  apply elem_of_cons in Hk as [->|Hk]; [|apply IH; exact Hk].
  destruct (append_all_extends name ps (append_evidence name m k0) k0
              (default [] (m !! k0) ++ [name])) as (more & Hmore).
  { unfold append_evidence. apply lookup_insert_eq. }
  exists ((default [] (m !! k0) ++ [name]) ++ more). split; [exact Hmore|].
  set_solver.
Qed.

Lemma append_all_other name ps : forall m k,
  k ∉ ps -> foldl (append_evidence name) m ps !! k = m !! k.
Proof.
  induction ps as [|k0 ps IH]; intros m k Hk; simpl; [reflexivity|].
  apply not_elem_of_cons in Hk as [Hne Hk]. rewrite IH by exact Hk.
  unfold append_evidence. apply lookup_insert_ne. congruence.
Qed.

(** The test [len(collaborating_artists) >= 2] does not change the
    result: a shorter list has no pairs. *)
Lemma analyse_track_fresh st t track_id :
  t_id t = Some track_id -> track_id ∉ st.2 ->
  analyse_track artist_ids st t =
  (foldl (append_evidence (t_name t)) st.1 (pairs (collaborating artist_ids t)),
   {[track_id]} ∪ st.2).
Proof.
  intros Hid Hnew. unfold analyse_track. rewrite Hid.
  destruct (decide (track_id ∈ st.2)); [contradiction|].
  destruct (2 <=? length (collaborating artist_ids t))%nat eqn:E; [reflexivity|].
  apply Nat.leb_gt in E. rewrite (pairs_short _ E). reflexivity.
Qed.

Lemma analyse_track_skip st t :
  (t_id t = None \/ exists track_id, t_id t = Some track_id /\ track_id ∈ st.2) ->
  analyse_track artist_ids st t = st.
Proof.
  intros [Hnone|(track_id & Hid & Hseen)]; unfold analyse_track.
  - rewrite Hnone. reflexivity.
  - rewrite Hid. destruct (decide (track_id ∈ st.2)); [reflexivity|contradiction].
Qed.

(** One round keeps the keys canonical, appends to the evidence and
    adds the id of the track, if it has one, to [processed_tracks]. *)
Lemma analyse_track_inv st t :
  map_Forall (fun k _ => canonical k) st.1 ->
  map_Forall (fun k _ => canonical k) (analyse_track artist_ids st t).1 /\
  extends st.1 (analyse_track artist_ids st t).1 /\
  st.2 ⊆ (analyse_track artist_ids st t).2 /\
  (forall track_id, t_id t = Some track_id ->
     track_id ∈ (analyse_track artist_ids st t).2).
Proof.
  intros Hcan.
  destruct (t_id t) as [track_id|] eqn:Hid.
  - destruct (decide (track_id ∈ st.2)) as [Hseen|Hnew].
    + rewrite analyse_track_skip by (right; eauto).
      split; [exact Hcan|]. split; [apply extends_refl|]. split; [set_solver|].
      intros ? [= <-]. exact Hseen.
    + rewrite (analyse_track_fresh _ _ _ Hid Hnew). simpl.
      split; [|split; [apply append_all_extends|split; [set_solver|]]].
      * intros k ev Hk.
        destruct (decide (k ∈ pairs (collaborating artist_ids t))) as [Hin|Hout].
        { pose proof (pairs_canonical (collaborating artist_ids t)) as Hall.
          rewrite Forall_forall in Hall. apply Hall. exact Hin. }
        { rewrite append_all_other in Hk by exact Hout. apply (Hcan k ev Hk). }
      * intros ? [= <-]. set_solver.
  - rewrite analyse_track_skip by (left; exact Hid).
    split; [exact Hcan|]. split; [apply extends_refl|]. split; [set_solver|].
    intros ? [=].
Qed.

Lemma analyse_all_inv ts : forall st,
  map_Forall (fun k _ => canonical k) st.1 ->
  map_Forall (fun k _ => canonical k) (foldl (analyse_track artist_ids) st ts).1 /\
  extends st.1 (foldl (analyse_track artist_ids) st ts).1 /\
  st.2 ⊆ (foldl (analyse_track artist_ids) st ts).2 /\
  (forall t track_id, t ∈ ts -> t_id t = Some track_id ->
     track_id ∈ (foldl (analyse_track artist_ids) st ts).2).
Proof.
  induction ts as [|t ts IH]; intros st Hcan; simpl.
  - split; [exact Hcan|]. split; [apply extends_refl|]. split; [set_solver|].
    intros t track_id Ht. inversion Ht.
  - destruct (analyse_track_inv st t Hcan) as (Hcan1 & Hext1 & Hsub1 & Hid1).
    destruct (IH _ Hcan1) as (Hcan2 & Hext2 & Hsub2 & Hid2).
    split; [exact Hcan2|]. split; [eapply extends_trans; eassumption|].
    split; [set_solver|].
    intros t' track_id Ht' Hid. apply elem_of_cons in Ht' as [->|Ht'].
    + apply Hsub2, Hid1, Hid.
    + eapply Hid2; eassumption.
Qed.

(** The ids in [processed_tracks] are ids of tracks met so far. *)
Lemma analyse_all_processed ts : forall st track_id,
  track_id ∈ (foldl (analyse_track artist_ids) st ts).2 ->
  track_id ∈ st.2 \/ exists t, t ∈ ts /\ t_id t = Some track_id.
Proof.
  induction ts as [|t ts IH]; intros st track_id Hin; simpl in Hin; [left; exact Hin|].
  destruct (IH _ _ Hin) as [Hin'|(t' & Ht' & Hid)].
  - unfold analyse_track in Hin'. destruct (t_id t) as [tid|] eqn:Hid; [|left; exact Hin'].
    destruct (decide (tid ∈ st.2)); [left; exact Hin'|].
    assert (track_id ∈ {[tid]} ∪ st.2) as Hin''.
    { destruct (2 <=? length (collaborating artist_ids t))%nat; exact Hin'. }
    apply elem_of_union in Hin'' as [Heq|Hold]; [|left; exact Hold].
    apply elem_of_singleton in Heq. subst tid. right. exists t. split; [left|exact Hid].
  - right. exists t'. split; [right; exact Ht'|exact Hid].
Qed.

Lemma elem_of_collaborating a t :
  a ∈ collaborating artist_ids t <-> Some a ∈ map a_id (t_artists t) /\ a ∈ artist_ids.
Proof.
  unfold collaborating. rewrite list_elem_of_omap. split.
  - intros (x & Hx & Hsome). destruct (a_id x) as [aid|] eqn:Hid; [|discriminate].
    destruct (decide (aid ∈ artist_ids)); [|discriminate].
    injection Hsome as <-. split; [|assumption].
    apply list_elem_of_fmap. exists x. split; [congruence|exact Hx].
  - intros [Hin HU]. apply list_elem_of_fmap in Hin as (x & Hid & Hx).
    exists x. split; [exact Hx|]. rewrite <- Hid.
    destruct (decide (a ∈ artist_ids)); [reflexivity|contradiction].
Qed.
End FindCollaborations.

(** C6. Let a track with an id, the first of that id among
    [all_tracks], credit two different artists [a] and [b] of
    [artist_ids], at any two places of its credit list. Then
    [find_collaborations] holds the key [(min(a,b), max(a,b))], with the
    name of the track in its evidence, and does not hold the reversed
    key. *)
Theorem find_collaborations_canonical_key
    (before after : list track) (t : track) (artist_ids : gset string)
    (a b track_id : string) :
  t_id t = Some track_id ->
  (forall t', t' ∈ before -> t_id t' <> Some track_id) ->
  a <> b ->
  a ∈ artist_ids -> b ∈ artist_ids ->
  Some a ∈ map a_id (t_artists t) ->
  Some b ∈ map a_id (t_artists t) ->
  let collaborations := find_collaborations (before ++ t :: after) artist_ids in
  (exists tracks,
     collaborations !! (str_min a b, str_max a b) = Some tracks /\
     t_name t ∈ tracks) /\
  collaborations !! (str_max a b, str_min a b) = None.
Proof.
  intros Hid Hfirst Hab Ha Hb Hca Hcb. cbv zeta.
  unfold find_collaborations. rewrite foldl_app. simpl.
  set (st1 := foldl (analyse_track artist_ids) (∅, ∅) before).
  assert (Hcan0 : map_Forall (fun (k : string * string) (_ : list string) => canonical k)
                    (∅ : gmap (string * string) (list string))).
  { apply map_Forall_empty. }
  destruct (analyse_all_inv artist_ids before (∅, ∅) Hcan0) as (Hcan1 & _).
  fold st1 in Hcan1.
  assert (Hnew : track_id ∉ st1.2).
  { intros Hin. apply analyse_all_processed in Hin as [Hin|(t' & Ht' & Hid')].
    - simpl in Hin. set_solver.
    - apply (Hfirst t' Ht' Hid'). }
  destruct (analyse_track_inv artist_ids st1 t Hcan1) as (Hcan2 & _).
  destruct (analyse_all_inv artist_ids after _ Hcan2) as (Hcan3 & Hext3 & _).
  split.
  - rewrite (analyse_track_fresh artist_ids st1 t track_id Hid Hnew) in Hext3 |- *.
    destruct (append_all_records (t_name t) (pairs (collaborating artist_ids t)) st1.1
                (sorted_pair a b)) as (ev & Hev & Hname).
    { apply pairs_meet; [exact Hab| |]; apply elem_of_collaborating; split; assumption. }
    destruct (Hext3 _ _ Hev) as (more & Hfinal).
    rewrite <- sorted_pair_min_max. exists (ev ++ more). split; [exact Hfinal|].
    apply elem_of_app. left. exact Hname.
  - destruct (_ !! (str_max a b, str_min a b)) as [ev|] eqn:Hrev; [|reflexivity].
    exfalso. apply Hcan3 in Hrev. unfold canonical, str_min, str_max in Hrev.
    simpl in Hrev. destruct (String.leb a b) eqn:Eab.
    + apply Hab. apply String.leb_antisym; assumption.
    + congruence.
Qed.

(** One track crediting [b] before [a], between two other tracks. *)
Definition duet : track :=
  Track (Some "t7") "Duet" [Artist (Some "b") "B"; Artist (Some "z") "Z"; Artist (Some "a") "A"].
Definition solo : track :=
  Track (Some "t6") "Solo" [Artist (Some "a") "A"].

Example duet_collaborations :
  find_collaborations [solo; duet; duet] {["a"; "b"]}
  = {[ ("a", "b") := ["Duet"] ]}.
Proof. vm_compute. reflexivity. Qed.

Lemma find_collaborations_canonical_key_witness :
  let collaborations := find_collaborations ([solo] ++ duet :: [duet]) {["a"; "b"]} in
  (exists tracks,
     collaborations !! (str_min "a" "b", str_max "a" "b") = Some tracks /\
     t_name duet ∈ tracks) /\
  collaborations !! (str_max "a" "b", str_min "a" "b") = None.
Proof.
  apply (find_collaborations_canonical_key [solo] [duet] duet {["a"; "b"]} "a" "b" "t7").
  - reflexivity.
  - intros t' Ht'. apply list_elem_of_singleton in Ht'. subst t'. discriminate.
  - discriminate.
  - set_solver.
  - set_solver.
  - simpl. set_solver.
  - simpl. set_solver.
Defined.

(** ** Ego-mode extraction *)

Section EgoFacts.
Variable primary_artist_id : string.

Local Abbreviation extract tracks := (extract_collaborators_from_tracks tracks primary_artist_id).

(** The body of the loop [for a in artists]. *)
Definition add_credit (acc : gset (string * string)) (a : artist) : gset (string * string) :=
  match a_id a with
  | Some aid =>
      if negb (truthy (Some aid)) || String.eqb aid primary_artist_id
      then acc
      else {[ (aid, a_name a) ]} ∪ acc
  | None => acc
  end.

Lemma add_credit_union acc a : add_credit acc a = acc ∪ add_credit ∅ a.
Proof.
  unfold add_credit. destruct (a_id a) as [aid|]; [|set_solver].
  destruct (negb (truthy (Some aid)) || String.eqb aid primary_artist_id); set_solver.
Qed.

Lemma add_collaborators_union artists : forall acc,
  add_collaborators primary_artist_id acc artists
  = acc ∪ add_collaborators primary_artist_id ∅ artists.
Proof.
  unfold add_collaborators. fold add_credit.
  induction artists as [|a artists IH]; intros acc; simpl; [set_solver|].
  rewrite IH, (IH (add_credit ∅ a)), (add_credit_union acc a). set_solver.
Qed.

(** What one track adds to the set of collaborators. *)
Definition contribution (t : track) : gset (string * string) :=
  if decide (primary_artist_id ∈ credited_ids (t_artists t))
  then add_collaborators primary_artist_id ∅ (t_artists t)
  else ∅.

Lemma extract_fold tracks : forall acc,
  foldl (fun collaborators t =>
           if decide (primary_artist_id ∈ credited_ids (t_artists t))
           then add_collaborators primary_artist_id collaborators (t_artists t)
           else collaborators) acc tracks
  = acc ∪ ⋃ (map contribution tracks).
Proof.
  induction tracks as [|t tracks IH]; intros acc; simpl; [set_solver|].
  rewrite IH. unfold contribution at 2.
  destruct (decide (primary_artist_id ∈ credited_ids (t_artists t))).
  - rewrite add_collaborators_union. set_solver.
  - set_solver.
Qed.

Lemma extract_union_list tracks :
  extract tracks = ⋃ (map contribution tracks).
Proof.
  unfold extract_collaborators_from_tracks. rewrite extract_fold. set_solver.
Qed.

Lemma extract_app l1 l2 : extract (l1 ++ l2) = extract l1 ∪ extract l2.
Proof. rewrite !extract_union_list, map_app, union_list_app_L. reflexivity. Qed.

Lemma extract_one t : extract [t] = contribution t.
Proof. rewrite extract_union_list. simpl. set_solver. Qed.

Lemma extract_insert before t after :
  extract (before ++ t :: after) = extract (before ++ after) ∪ contribution t.
Proof.
  rewrite !extract_app. change (t :: after) with ([t] ++ after).
  rewrite extract_app, extract_one. set_solver.
Qed.

Lemma contribution_of_member t tracks :
  t ∈ tracks -> contribution t ⊆ extract tracks.
Proof.
  intros Hin. apply list_elem_of_split in Hin as (l1 & l2 & ->).
  rewrite extract_insert. set_solver.
Qed.
End EgoFacts.

(** A track without id that credits the primary artist [p] and [c]. *)
Definition anonymous_track : track :=
  Track None "Untitled" [Artist (Some "p") "P"; Artist (Some "c") "C"].

Example anonymous_track_ego :
  extract_collaborators_from_tracks [anonymous_track] "p" = {[ ("c", "C") ]}.
Proof. vm_compute. reflexivity. Qed.

Example anonymous_track_restricted :
  find_collaborations [anonymous_track] {["p"; "c"]} = ∅.
Proof. vm_compute. reflexivity. Qed.

(** C7, as claimed for ego mode: a track whose id is null is skipped.
    [extract_collaborators_from_tracks] never reads the id of a track;
    the track above yields the collaborator [c]. *)
Lemma ego_mode_keeps_tracks_without_id :
  ~ (forall (before after : list track) (t : track) (primary_artist_id : string),
       t_id t = None ->
       extract_collaborators_from_tracks (before ++ t :: after) primary_artist_id
       = extract_collaborators_from_tracks (before ++ after) primary_artist_id).
Proof.
  intros Hclaim.
  specialize (Hclaim [] [] anonymous_track "p" eq_refl).
  assert (Hin : ("c", "C") ∈ extract_collaborators_from_tracks ([] ++ [anonymous_track]) "p").
  { vm_compute. set_solver. }
  rewrite Hclaim in Hin. vm_compute in Hin. set_solver.
Qed.

(** C7, amended. In restricted mode a track without id, or with the id
    of a track met before it in the same call, leaves the result of
    [find_collaborations] as it is without it. In ego mode the id of a
    track is not read: any track, with or without id, adds what its
    credits contribute, and a track that occurred before adds nothing
    new. Both functions are total: no such track makes them raise. *)
Theorem extraction_skips_and_repeats
    (before after : list track) (t : track)
    (artist_ids : gset string) (primary_artist_id : string) :
  (t_id t = None \/
   exists track_id t', t_id t = Some track_id /\ t' ∈ before /\ t_id t' = Some track_id) ->
  find_collaborations (before ++ t :: after) artist_ids
  = find_collaborations (before ++ after) artist_ids /\
  extract_collaborators_from_tracks (before ++ t :: after) primary_artist_id
  = extract_collaborators_from_tracks (before ++ after) primary_artist_id
    ∪ extract_collaborators_from_tracks [t] primary_artist_id /\
  (t ∈ before ->
   extract_collaborators_from_tracks (before ++ t :: after) primary_artist_id
   = extract_collaborators_from_tracks (before ++ after) primary_artist_id).
Proof.
  intros Hskip. split; [|split].
  - unfold find_collaborations. rewrite !foldl_app. simpl.
    rewrite analyse_track_skip; [reflexivity|].
    destruct Hskip as [Hnone|(track_id & t' & Hid & Ht' & Hid')]; [left; exact Hnone|].
    right. exists track_id. split; [exact Hid|].
    assert (Hcan0 : map_Forall (fun (k : string * string) (_ : list string) => canonical k)
                      (∅ : gmap (string * string) (list string))).
    { apply map_Forall_empty. }
    destruct (analyse_all_inv artist_ids before (∅, ∅) Hcan0) as (_ & _ & _ & Hids).
    eapply Hids; eassumption.
  - rewrite extract_insert, extract_one. reflexivity.
  - intros Hin. rewrite extract_insert.
    pose proof (contribution_of_member primary_artist_id t before Hin) as Hsub.
    rewrite extract_app. apply list_elem_of_split in Hin as (l1 & l2 & ->).
    rewrite extract_insert in Hsub |- *. set_solver.
Qed.

Lemma extraction_skips_and_repeats_witness :
  find_collaborations ([duet] ++ anonymous_track :: [solo]) {["a"; "b"]}
  = find_collaborations ([duet] ++ [solo]) {["a"; "b"]} /\
  extract_collaborators_from_tracks ([duet] ++ anonymous_track :: [solo]) "p"
  = extract_collaborators_from_tracks ([duet] ++ [solo]) "p"
    ∪ extract_collaborators_from_tracks [anonymous_track] "p" /\
  (anonymous_track ∈ [duet] ->
   extract_collaborators_from_tracks ([duet] ++ anonymous_track :: [solo]) "p"
   = extract_collaborators_from_tracks ([duet] ++ [solo]) "p").
Proof.
  apply (extraction_skips_and_repeats [duet] [solo] anonymous_track {["a"; "b"]} "p").
  left. reflexivity.
Defined.

(** Collaborators are credits with a non-empty id other than the
    primary artist's. *)
Lemma add_collaborators_elem primary_artist_id artists c :
  c ∈ add_collaborators primary_artist_id ∅ artists ->
  c.1 <> primary_artist_id /\ c.1 <> "" /\
  Artist (Some c.1) c.2 ∈ artists.
Proof.
  induction artists as [|a artists IH] using rev_ind; intros Hc.
  - unfold add_collaborators in Hc. simpl in Hc. set_solver.
  - unfold add_collaborators in Hc. rewrite foldl_app in Hc. simpl in Hc.
    fold (add_collaborators primary_artist_id ∅ artists) in Hc.
    assert (Hold : c ∈ add_collaborators primary_artist_id ∅ artists ->
                   c.1 <> primary_artist_id /\ c.1 <> "" /\
                   Artist (Some c.1) c.2 ∈ artists ++ [a]).
    { intros H. destruct (IH H) as (H1 & H2 & H3). repeat split; try assumption.
      apply elem_of_app. left. exact H3. }
    destruct a as [[aid|] aname]; simpl in Hc; [|apply Hold; exact Hc].
    destruct (String.eqb_spec aid ""); simpl in Hc; [apply Hold; exact Hc|].
    destruct (String.eqb_spec aid primary_artist_id); simpl in Hc; [apply Hold; exact Hc|].
    apply elem_of_union in Hc as [Hc|Hc]; [|apply Hold; exact Hc].
    apply elem_of_singleton in Hc. subst c. simpl.
    repeat split; try assumption. apply elem_of_app. right. apply list_elem_of_here.
Qed.

Lemma extract_elem primary_artist_id tracks c :
  c ∈ extract_collaborators_from_tracks tracks primary_artist_id ->
  c.1 <> primary_artist_id /\ c.1 <> "" /\
  exists t, t ∈ tracks /\ Artist (Some c.1) c.2 ∈ t_artists t /\
            primary_artist_id ∈ credited_ids (t_artists t).
Proof.
  rewrite extract_union_list. intros Hc.
  apply elem_of_union_list in Hc as (X & HX & Hc).
  apply list_elem_of_fmap in HX as (t & -> & Ht).
  unfold contribution in Hc.
  destruct (decide (primary_artist_id ∈ credited_ids (t_artists t))) as [Hp|]; [|set_solver].
  destruct (add_collaborators_elem _ _ _ Hc) as (H1 & H2 & H3).
  repeat split; try assumption. exists t. repeat split; assumption.
Qed.

(** ** Output rows *)

Lemma get_collaborators_rows lower fuel srv artist_name artist_id rows :
  get_collaborators_for_artist_id lower fuel srv artist_name artist_id
    = Some (Returns rows) ->
  exists tracks,
    rows = map (collab_row artist_name artist_id)
               (merge_sort (by_lower_name lower)
                  (elements (extract_collaborators_from_tracks tracks artist_id))).
Proof.
  unfold get_collaborators_for_artist_id.
  destruct (get_artist_albums_albums_and_singles _ _ _) as [[albums|e]|]; try discriminate.
  destruct (collect_tracks _ _ _ _) as [[tracks|e]|]; try discriminate.
  intros [= <-]. exists tracks. reflexivity.
Qed.

Lemma detail_rows_spec names its : forall rows r,
  detail_rows names its = Returns rows ->
  r ∈ rows ->
  exists artist1_id artist2_id tracks,
    ((artist1_id, artist2_id), tracks) ∈ its /\
    names !! artist1_id = Some (artist_1 r) /\
    names !! artist2_id = Some (artist_2 r) /\
    number_of_collaborations r = length tracks /\
    track_names r = String.concat "; " tracks.
Proof.
  induction its as [|[[a1 a2] tracks] its IH]; intros rows r Hrows Hr; simpl in Hrows.
  - injection Hrows as <-. inversion Hr.
  - destruct (names !! a1) as [n1|] eqn:H1; [|discriminate].
    destruct (names !! a2) as [n2|] eqn:H2; [|discriminate].
    destruct (detail_rows names its) as [rows'|e]; [|discriminate].
    injection Hrows as <-.
    apply elem_of_cons in Hr as [->|Hr].
    + exists a1, a2, tracks. simpl. repeat split; try assumption. apply list_elem_of_here.
    + destruct (IH rows' r eq_refl Hr) as (b1 & b2 & tr & Hin & Hrest).
      exists b1, b2, tr. split; [right; exact Hin|exact Hrest].
Qed.

(** ** Evidence of restricted mode *)

(** The tracks [find_collaborations] takes into account: those with an
    id, each the first of its id. *)
Fixpoint fresh_tracks (seen : gset string) (ts : list track) : list track :=
  match ts with
  | [] => []
  | t :: rest =>
      match t_id t with
      | None => fresh_tracks seen rest
      | Some track_id =>
          if decide (track_id ∈ seen) then fresh_tracks seen rest
          else t :: fresh_tracks ({[track_id]} ∪ seen) rest
      end
  end.

Lemma pairs_members l k : k ∈ pairs l -> k.1 ∈ l /\ k.2 ∈ l /\ canonical k.
Proof.
  induction l as [|a l IH]; simpl; intros Hk; [inversion Hk|].
  apply elem_of_app in Hk as [Hk|Hk].
  - apply list_elem_of_fmap in Hk as (b & -> & Hb).
    split; [|split; [|apply sorted_pair_canonical]];
      unfold sorted_pair; destruct (String.leb a b); simpl; set_solver.
  - destruct (IH Hk) as (H1 & H2 & H3). repeat split; [right| right|]; assumption.
Qed.

Lemma sorted_pair_inj a b b' : sorted_pair a b = sorted_pair a b' -> b = b'.
Proof.
  unfold sorted_pair.
  destruct (String.leb a b), (String.leb a b'); intros [= ]; congruence.
Qed.

(** Without repetition in the list, no pair is visited twice and the
    pairs are made of different artists. *)
Lemma pairs_NoDup l : NoDup l -> NoDup (pairs l).
Proof.
  induction 1 as [|a l Ha Hnd IH]; simpl; [constructor|].
  apply NoDup_app. split; [|split; [|exact IH]].
  - apply NoDup_fmap_2; [|exact Hnd]. intros b b'. apply sorted_pair_inj.
  - intros k Hk Hk'. apply list_elem_of_fmap in Hk as (b & -> & Hb).
    destruct (pairs_members _ _ Hk') as (H1 & H2 & _).
    apply Ha. unfold sorted_pair in H1, H2. destruct (String.leb a b); assumption.
Qed.

Lemma pairs_distinct l k : NoDup l -> k ∈ pairs l -> k.1 <> k.2.
Proof.
  induction 1 as [|a l Ha Hnd IH]; simpl; intros Hk; [inversion Hk|].
  apply elem_of_app in Hk as [Hk|Hk]; [|apply IH; exact Hk].
  apply list_elem_of_fmap in Hk as (b & -> & Hb).
  unfold sorted_pair. destruct (String.leb a b); simpl; intros Heq; subst; contradiction.
Qed.

Lemma elem_of_pairs l x y :
  NoDup l -> canonical (x, y) ->
  (x, y) ∈ pairs l <-> x <> y /\ x ∈ l /\ y ∈ l.
Proof.
  intros Hnd Hcan. split.
  - intros Hk. destruct (pairs_members _ _ Hk) as (H1 & H2 & _).
    split; [apply (pairs_distinct l (x, y) Hnd Hk)|split; assumption].
  - intros (Hne & Hx & Hy). pose proof (pairs_meet l x y Hne Hx Hy) as Hin.
    unfold sorted_pair in Hin. unfold canonical in Hcan. simpl in Hcan.
    rewrite Hcan in Hin. exact Hin.
Qed.

Lemma filter_ext_in {A} (P1 P2 : A -> Prop)
    `{!forall x, Decision (P1 x), !forall x, Decision (P2 x)} (l : list A) :
  (forall x, x ∈ l -> P1 x <-> P2 x) -> filter P1 l = filter P2 l.
Proof.
  induction l as [|a l IH]; intros Hiff; [reflexivity|].
  rewrite !filter_cons.
  assert (Hl : filter P1 l = filter P2 l).
  { apply IH. intros x Hx. apply Hiff. right. exact Hx. }
  pose proof (Hiff a ltac:(left)) as Ha.
  destruct (decide (P1 a)), (decide (P2 a)); try tauto; rewrite Hl; reflexivity.
Qed.

Lemma filter_none {A} (P : A -> Prop) `{!forall x, Decision (P x)} (l : list A) :
  (forall x, x ∈ l -> ~ P x) -> filter P l = [].
Proof.
  induction l as [|a l IH]; intros Hnone; [reflexivity|].
  rewrite filter_cons. destruct (decide (P a)) as [Ha|_].
  - exfalso. apply (Hnone a); [left|exact Ha].
  - apply IH. intros x Hx. apply Hnone. right. exact Hx.
Qed.

Section Evidence.
Variable artist_ids : gset string.

Local Abbreviation evidence := (gmap (string * string) (list string)).

Lemma append_all_lookup name ps : forall (m : evidence) k,
  NoDup ps ->
  foldl (append_evidence name) m ps !! k =
  if decide (k ∈ ps) then Some (default [] (m !! k) ++ [name]) else m !! k.
Proof.
  induction ps as [|k0 ps IH]; intros m k Hnd; simpl; [reflexivity|].
  apply NoDup_cons in Hnd as [Hk0 Hnd]. rewrite IH by exact Hnd.
  unfold append_evidence.
  destruct (decide (k ∈ ps)) as [Hin|Hout].
  - destruct (decide (k ∈ k0 :: ps)) as [_|Hn]; [|exfalso; apply Hn; right; exact Hin].
    rewrite lookup_insert_ne by (intros ->; contradiction). reflexivity.
  - destruct (decide (k = k0)) as [->|Hne].
    + destruct (decide (k0 ∈ k0 :: ps)) as [_|Hn]; [|exfalso; apply Hn; left].
      apply lookup_insert_eq.
    + destruct (decide (k ∈ k0 :: ps)) as [Hin|_].
      { apply elem_of_cons in Hin as [?|?]; contradiction. }
      apply lookup_insert_ne. congruence.
Qed.

(** The names of the tracks that give evidence for the key [k]. *)
Definition evidence_for (k : string * string) (seen : gset string) (ts : list track)
  : list string :=
  map t_name (filter (fun t => k ∈ pairs (collaborating artist_ids t)) (fresh_tracks seen ts)).

Definition extend_with (o : option (list string)) (names : list string)
  : option (list string) :=
  match names with
  | [] => o
  | _ => Some (default [] o ++ names)
  end.

Lemma extend_with_app o l1 l2 :
  extend_with (extend_with o l1) l2 = extend_with o (l1 ++ l2).
Proof.
  destruct l1 as [|a l1]; [reflexivity|]. destruct l2 as [|b l2]; simpl.
  - rewrite app_nil_r. reflexivity.
  - rewrite <- app_assoc. reflexivity.
Qed.

(** The list under a key at the end: the list at the start, followed by
    the names of the tracks taken into account that hold the pair. *)
Lemma analyse_all_lookup k ts : forall st,
  (forall t, t ∈ ts -> NoDup (collaborating artist_ids t)) ->
  (foldl (analyse_track artist_ids) st ts).1 !! k
  = extend_with (st.1 !! k) (evidence_for k st.2 ts).
Proof.
  induction ts as [|t ts IH]; intros st Hnd; [reflexivity|].
  assert (Hnd' : forall t', t' ∈ ts -> NoDup (collaborating artist_ids t')).
  { intros t' Ht'. apply Hnd. right. exact Ht'. }
  simpl foldl. rewrite IH by exact Hnd'. unfold evidence_for. simpl fresh_tracks.
  destruct (t_id t) as [track_id|] eqn:Hid.
  - destruct (decide (track_id ∈ st.2)) as [Hseen|Hnew].
    + rewrite analyse_track_skip by (right; eauto). reflexivity.
    + rewrite (analyse_track_fresh _ _ _ _ Hid Hnew). simpl.
      rewrite append_all_lookup by (apply pairs_NoDup, Hnd; left).
      rewrite filter_cons.
      destruct (decide (k ∈ pairs (collaborating artist_ids t))) as [Hin|Hout].
      * change (map t_name (t :: ?l)) with ([t_name t] ++ map t_name l).
        rewrite <- extend_with_app. reflexivity.
      * reflexivity.
  - rewrite analyse_track_skip by (left; exact Hid). reflexivity.
Qed.

(** The tracks taken into account on which both [x] and [y] are
    credited, among the artists of [artist_ids]. *)
Definition shared_tracks (x y : string) (all_tracks : list track) : list track :=
  filter (fun t => x ∈ collaborating artist_ids t /\ y ∈ collaborating artist_ids t)
         (fresh_tracks ∅ all_tracks).

Lemma fresh_tracks_subset seen ts t : t ∈ fresh_tracks seen ts -> t ∈ ts.
Proof.
  revert seen. induction ts as [|t0 ts IH]; intros seen Hin; simpl in Hin; [inversion Hin|].
  destruct (t_id t0); [destruct (decide _)|]; try (right; eapply IH; eassumption).
  apply elem_of_cons in Hin as [->|Hin]; [left|right; eapply IH; eassumption].
Qed.

(** Under a key of the result lies the list of the names of the tracks
    its two artists share, and the two artists differ. *)
Lemma find_collaborations_lookup all_tracks x y tracks :
  (forall t, t ∈ all_tracks -> NoDup (collaborating artist_ids t)) ->
  find_collaborations all_tracks artist_ids !! (x, y) = Some tracks ->
  x <> y /\ canonical (x, y) /\ tracks = map t_name (shared_tracks x y all_tracks).
Proof.
  intros Hnd Hlook. unfold find_collaborations in Hlook.
  assert (Hcan : canonical (x, y)).
  { assert (Hcan0 : map_Forall (fun (k : string * string) (_ : list string) => canonical k)
                      (∅ : evidence)) by apply map_Forall_empty.
    destruct (analyse_all_inv artist_ids all_tracks (∅, ∅) Hcan0) as (Hall & _).
    apply (Hall _ _ Hlook). }
  rewrite (analyse_all_lookup (x, y) all_tracks (∅, ∅) Hnd) in Hlook.
  simpl in Hlook. rewrite lookup_empty in Hlook.
  assert (Hfilter : filter (fun t => (x, y) ∈ pairs (collaborating artist_ids t))
                      (fresh_tracks ∅ all_tracks)
                    = filter (fun t => x <> y /\ x ∈ collaborating artist_ids t /\
                                       y ∈ collaborating artist_ids t)
                        (fresh_tracks ∅ all_tracks)).
  { apply filter_ext_in. intros t Ht.
    apply elem_of_pairs; [|exact Hcan]. apply Hnd. eapply fresh_tracks_subset. exact Ht. }
  unfold evidence_for in Hlook. rewrite Hfilter in Hlook.
  destruct (decide (x = y)) as [->|Hne].
  - exfalso. rewrite filter_none in Hlook by (intros t _ [Hne _]; congruence).
    discriminate.
  - split; [exact Hne|]. split; [exact Hcan|].
    unfold shared_tracks.
    rewrite (filter_ext_in _ (fun t => x ∈ collaborating artist_ids t /\
                                       y ∈ collaborating artist_ids t)) in Hlook
      by (intros t _; tauto).
    destruct (map t_name _) as [|n ns]; [discriminate|].
    simpl in Hlook. injection Hlook as <-. reflexivity.
Qed.
End Evidence.

(** One release with two tracks, both crediting [p] and [c]. *)
Definition shared_x : track :=
  Track (Some "t1") "X" [Artist (Some "p") "P"; Artist (Some "c") "C"].
Definition shared_y : track :=
  Track (Some "t2") "Y" [Artist (Some "c") "C"; Artist (Some "p") "P"].

Definition two_shared_tracks : api :=
  Api (fun _ => Returns (Some (Page [Album "r1" "One"] false)))
      (fun _ _ => Returns (Some (Page [shared_x; shared_y] false))).

Example two_shared_tracks_ego :
  get_collaborators_for_artist_id ascii_lower 2 two_shared_tracks "P" "p"
  = Some (Returns [collab_row "P" "p" ("c", "C")]).
Proof. vm_compute. reflexivity. Qed.

Example two_shared_tracks_restricted :
  save_collaboration_details
    (find_collaborations [shared_x; shared_y] {["p"; "c"]}) [("P", "p"); ("C", "c")]
  = Returns [DetailRow "C" "P" 2 "X; Y"].
Proof. vm_compute. reflexivity. Qed.

(** C8, as claimed: every ego-mode row holds the number of shared tracks
    and their joined names. The artists [p] and [c] share the tracks [X]
    and [Y]; the one row written for them has four fields, none of which
    is the count or the names. *)
Lemma ego_rows_carry_no_evidence :
  exists rows,
    get_collaborators_for_artist_id ascii_lower 2 two_shared_tracks "P" "p"
      = Some (Returns rows) /\
    collect_tracks 2 two_shared_tracks [Album "r1" "One"] [] = Some (Returns [shared_x; shared_y]) /\
    rows <> [] /\
    forall r, r ∈ rows ->
      map fst r = ["primary_artist"; "primary_artist_id"; "collaborator_id"; "collaborator_name"] /\
      ("2" ∉ map snd r) /\ ("X;Y" ∉ map snd r) /\ ("X; Y" ∉ map snd r).
Proof.
  exists [collab_row "P" "p" ("c", "C")].
  split; [vm_compute; reflexivity|]. split; [reflexivity|]. split; [discriminate|].
  intros r Hr. apply list_elem_of_singleton in Hr. subst r.
  split; [reflexivity|]. simpl.
  repeat split; intros Hin;
    repeat (apply elem_of_cons in Hin as [Hin|Hin]; [discriminate Hin|]);
    inversion Hin.
Qed.

(** C8, amended. A row of the ego-mode output holds the name and id of
    the primary artist and the id and name of one collaborator (an artist
    with a non-empty id other than the primary's) and nothing else. The
    count and the joined track names are columns of the detail table of
    restricted mode: when no track credits an artist of [artist_ids]
    twice, a row of [save_collaboration_details] on the result of
    [find_collaborations] holds the names of two different artists, the
    number of the tracks they share (tracks with an id, the first of
    their id, crediting both) and the names of these tracks, in order,
    joined by "; ". *)
Theorem output_rows_content
    (lower : string -> string) (fuel : nat) (srv : api)
    (artist_name artist_id : string) (rows : list row)
    (all_tracks : list track) (artist_ids : gset string)
    (artists : list (string * string)) (details : list detail_row) :
  get_collaborators_for_artist_id lower fuel srv artist_name artist_id
    = Some (Returns rows) ->
  (forall t, t ∈ all_tracks -> NoDup (collaborating artist_ids t)) ->
  save_collaboration_details (find_collaborations all_tracks artist_ids) artists
    = Returns details ->
  (forall r, r ∈ rows ->
     exists cid cname,
       r = [ ("primary_artist", artist_name); ("primary_artist_id", artist_id);
             ("collaborator_id", cid); ("collaborator_name", cname) ] /\
       cid <> artist_id /\ cid <> "") /\
  (forall d, d ∈ details ->
     exists artist1_id artist2_id,
       artist1_id <> artist2_id /\
       id_to_name artists !! artist1_id = Some (artist_1 d) /\
       id_to_name artists !! artist2_id = Some (artist_2 d) /\
       let shared := shared_tracks artist_ids artist1_id artist2_id all_tracks in
       number_of_collaborations d = length shared /\
       track_names d = String.concat "; " (map t_name shared)).
Proof.
  intros Hrows Hnd Hdetails. split.
  - intros r Hr. destruct (get_collaborators_rows _ _ _ _ _ _ Hrows) as (tracks & ->).
    apply list_elem_of_fmap in Hr as ([cid cname] & -> & Hc).
    rewrite merge_sort_Permutation in Hc. apply elem_of_elements in Hc.
    destruct (extract_elem _ _ _ Hc) as (H1 & H2 & _).
    exists cid, cname. split; [reflexivity|]. split; assumption.
  - intros d Hd. unfold save_collaboration_details in Hdetails.
    destruct (detail_rows_spec _ _ _ _ Hdetails Hd)
      as (a1 & a2 & tracks & Hin & Hn1 & Hn2 & Hcount & Hnames).
    rewrite merge_sort_Permutation in Hin. apply elem_of_map_to_list in Hin.
    destruct (find_collaborations_lookup artist_ids all_tracks a1 a2 tracks Hnd Hin)
      as (Hne & _ & ->).
    exists a1, a2. split; [exact Hne|]. split; [exact Hn1|]. split; [exact Hn2|].
    cbv zeta. rewrite Hcount, Hnames, length_map. split; reflexivity.
Qed.

Lemma output_rows_content_witness :
  (forall r, r ∈ [collab_row "P" "p" ("c", "C")] ->
     exists cid cname,
       r = [ ("primary_artist", "P"); ("primary_artist_id", "p");
             ("collaborator_id", cid); ("collaborator_name", cname) ] /\
       cid <> "p" /\ cid <> "") /\
  (forall d, d ∈ [DetailRow "C" "P" 2 "X; Y"] ->
     exists artist1_id artist2_id,
       artist1_id <> artist2_id /\
       id_to_name [("P", "p"); ("C", "c")] !! artist1_id = Some (artist_1 d) /\
       id_to_name [("P", "p"); ("C", "c")] !! artist2_id = Some (artist_2 d) /\
       let shared := shared_tracks {["p"; "c"]} artist1_id artist2_id [shared_x; shared_y] in
       number_of_collaborations d = length shared /\
       track_names d = String.concat "; " (map t_name shared)).
Proof.
  apply (output_rows_content ascii_lower 2 two_shared_tracks "P" "p" _
           [shared_x; shared_y] {["p"; "c"]} [("P", "p"); ("C", "c")]).
  - vm_compute. reflexivity.
  - intros t Ht.
    apply elem_of_cons in Ht as [->|Ht]; [|apply list_elem_of_singleton in Ht; subst t];
      vm_compute; repeat (apply NoDup_cons; split; [set_solver|]); apply NoDup_nil_2.
  - vm_compute. reflexivity.
Defined.

(** ** Checkpoint store *)

Definition FIELDNAMES : list string :=
  ["primary_artist"; "primary_artist_id"; "collaborator_id"; "collaborator_name"].

(** The line written for one collaborator of an artist. *)
Definition written_line (name artist_id : string) (c : string * string) : list string :=
  [name; artist_id; c.1; c.2].

Definition csv_lines (output_csv : option csv_file) : list (list string) :=
  match output_csv with
  | None => []
  | Some f => lines f
  end.

(** The output file is absent or carries the header of the pipeline. *)
Definition pipeline_file (output_csv : option csv_file) : Prop :=
  match output_csv with
  | None => True
  | Some f => header f = FIELDNAMES
  end.

(** The primary artist id [csv.DictReader] finds in a line. *)
Definition primary_of (line : list string) : option string :=
  dict_reader_get "primary_artist_id" FIELDNAMES line.

Lemma primary_of_written name artist_id c :
  primary_of (written_line name artist_id c) = Some artist_id.
Proof. reflexivity. Qed.

Lemma append_collaborators_spec name artist_id cs d :
  pipeline_file d ->
  let d' := append_collaborators_to_csv (map (collab_row name artist_id) cs) d in
  pipeline_file d' /\
  csv_lines d' = csv_lines d ++ map (written_line name artist_id) cs.
Proof.
  intros Hwf. destruct cs as [|c cs]; simpl.
  - split; [exact Hwf|]. rewrite app_nil_r. reflexivity.
  - assert (Hw : map (fun r : row =>
                   map (fun k => default "" (dict_get k r))
                     ["primary_artist"; "primary_artist_id"; "collaborator_id";
                      "collaborator_name"])
                   (map (collab_row name artist_id) cs)
                 = map (written_line name artist_id) cs).
    { rewrite map_map. apply map_ext. intros c'. reflexivity. }
    destruct d as [f|]; simpl.
    + split; [exact Hwf|]. f_equal. unfold written_line at 1. f_equal. exact Hw.
    + split; [reflexivity|]. unfold written_line at 1. f_equal. exact Hw.
Qed.

Lemma load_fold header ls : forall (acc : gset string) (x : string),
  x ∈ foldl (fun (processed : gset string) line =>
               match dict_reader_get "primary_artist_id" header line with
               | Some artist_id =>
                   if truthy (Some artist_id) then {[artist_id]} ∪ processed else processed
               | None => processed
               end) acc ls
  <-> x ∈ acc \/
      (x <> "" /\ exists line, line ∈ ls /\
         dict_reader_get "primary_artist_id" header line = Some x).
Proof.
  induction ls as [|l ls IH]; intros acc x; simpl.
  - split; [intros H; left; exact H|]. intros [H|(_ & line & Hin & _)]; [exact H|inversion Hin].
  - rewrite IH. split.
    + intros [Hacc|(Hne & line & Hin & Hget)].
      * destruct (dict_reader_get "primary_artist_id" header l) as [a|] eqn:Hl;
          [|left; exact Hacc].
        simpl in Hacc. destruct (String.eqb_spec a ""); simpl in Hacc; [left; exact Hacc|].
        apply elem_of_union in Hacc as [Hx|Hacc]; [|left; exact Hacc].
        apply elem_of_singleton in Hx. subst a. right. split; [assumption|].
        exists l. split; [apply list_elem_of_here|exact Hl].
      * right. split; [exact Hne|]. exists line. split; [right; exact Hin|exact Hget].
    + intros [Hacc|(Hne & line & Hin & Hget)].
      * left. destruct (dict_reader_get "primary_artist_id" header l) as [a|]; [|exact Hacc].
        simpl. destruct (negb (String.eqb a "")); [set_solver|exact Hacc].
      * apply elem_of_cons in Hin as [->|Hin].
        { left. rewrite Hget. simpl. destruct (String.eqb_spec x ""); [contradiction|].
          simpl. set_solver. }
        { right. split; [exact Hne|]. exists line. split; assumption. }
Qed.

(** The processed set read from a file of the pipeline: the non-empty
    primary artist ids of its lines. *)
Lemma load_already_processed_spec d x :
  pipeline_file d ->
  x ∈ load_already_processed_artists d <->
  x <> "" /\ exists line, line ∈ csv_lines d /\ primary_of line = Some x.
Proof.
  intros Hwf. destruct d as [f|]; simpl.
  - simpl in Hwf. rewrite load_fold. unfold primary_of. rewrite Hwf. set_solver.
  - split; [set_solver|]. intros (_ & line & Hin & _). inversion Hin.
Qed.

(** ** Pipeline driver *)

Section DriverFacts.
Variable lower : string -> string.
Variable fuel : nat.

(** A line the run wrote: the line of a collaborator [c] of an artist of
    the roster that was not processed at the start and is at the end; the
    harvest of that artist, number [j], returned the rows of a list of
    collaborators that holds [c]. *)
Definition line_of_run (world : nat -> api) (artists : list (string * string)) (idx : nat)
    (before after : gset string) (line : list string) : Prop :=
  exists name artist_id c,
    line = written_line name artist_id c /\
    artist_id ∉ before /\ artist_id ∈ after /\ (name, artist_id) ∈ artists /\
    exists j cs,
      (idx <= j)%nat /\ artists !! (j - idx)%nat = Some (name, artist_id) /\
      get_collaborators_for_artist_id lower fuel (world j) name artist_id
        = Some (Returns (map (collab_row name artist_id) cs)) /\
      c ∈ cs.

(** A harvest the run started: a number of the roster whose artist was
    not processed at the start. *)
Definition harvest_of_run (artists : list (string * string)) (idx : nat)
    (before : gset string) (j : nat) : Prop :=
  (idx <= j < idx + length artists)%nat /\
  exists name artist_id,
    artists !! (j - idx)%nat = Some (name, artist_id) /\ artist_id ∉ before.

Lemma line_of_run_cons world a artists idx before before' after line :
  before ⊆ before' ->
  line_of_run world artists (S idx) before' after line ->
  line_of_run world (a :: artists) idx before after line.
Proof.
  intros Hsub (name & artist_id & c & -> & Hb & Ha & Hin & j & cs & Hj & Hlook & Hh & Hc).
  exists name, artist_id, c.
  split; [reflexivity|]. split; [set_solver|]. split; [exact Ha|].
  split; [right; exact Hin|]. exists j, cs. split; [lia|].
  split; [|split; assumption].
  replace (j - idx)%nat with (S (j - S idx)) by lia. exact Hlook.
Qed.

Lemma harvest_of_run_cons a artists idx before before' j :
  before ⊆ before' ->
  harvest_of_run artists (S idx) before' j ->
  harvest_of_run (a :: artists) idx before j.
Proof.
  intros Hsub ([Hlo Hhi] & name & artist_id & Hj & Hb).
  split; [simpl; lia|]. exists name, artist_id. split; [|set_solver].
  replace (j - idx)%nat with (S (j - S idx)) by lia. exact Hj.
Qed.

Lemma harvest_of_run_head name artist_id artists idx before :
  artist_id ∉ before ->
  harvest_of_run ((name, artist_id) :: artists) idx before idx.
Proof.
  intros Hb. split; [simpl; lia|]. exists name, artist_id.
  rewrite Nat.sub_diag. split; [reflexivity|exact Hb].
Qed.

(** What a run of the loop does to the file, the log and the processed
    set, and whom it harvests when it runs to the end of the roster. *)
Definition run_spec (world : nat -> api) (artists : list (string * string)) (idx : nat)
    (P : gset string) (d : option csv_file) (log : list nat) (r : run_result) : Prop :=
  pipeline_file (final_csv r) /\
  P ⊆ processed r /\
  (exists new, csv_lines (final_csv r) = csv_lines d ++ new /\
     Forall (line_of_run world artists idx P (processed r)) new) /\
  (exists lognew, harvested r = log ++ lognew /\
     Forall (harvest_of_run artists idx P) lognew) /\
  (ending r = Completed ->
   forall i name artist_id,
     artists !! i = Some (name, artist_id) ->
     artist_id ∉ P ->
     artist_id ∉ map snd (take i artists) ->
     (idx + i)%nat ∈ harvested r).

(** The tail of the roster was run from a later state; the run of the
    whole roster inherits its properties. [cs] are the collaborators
    whose lines the first artist added. *)
Lemma run_spec_cons world name0 id0 rest idx P P' d d' log r cs first :
  P ⊆ P' ->
  (forall x, x ∈ P' -> x ∈ P \/ x = id0) ->
  csv_lines d' = csv_lines d ++ map (written_line name0 id0) cs ->
  (cs <> [] ->
   id0 ∉ P /\ id0 ∈ P' /\
   get_collaborators_for_artist_id lower fuel (world idx) name0 id0
     = Some (Returns (map (collab_row name0 id0) cs))) ->
  (first = [] /\ id0 ∈ P \/ first = [idx] /\ id0 ∉ P) ->
  run_spec world rest (S idx) P' d' (log ++ first) r ->
  run_spec world ((name0, id0) :: rest) idx P d log r.
Proof.
  intros Hsub HP' Hlines Hne Hfirst (Hwf & HP & Hnew & Hlog & Hdone).
  split; [exact Hwf|]. split; [set_solver|]. split; [|split].
  - destruct Hnew as (new & Hl & Hall). exists (map (written_line name0 id0) cs ++ new).
    split; [rewrite Hl, Hlines, <- app_assoc; reflexivity|].
    apply Forall_app. split.
    + apply Forall_forall. intros line Hline.
      apply list_elem_of_fmap in Hline as (c & -> & Hc).
      destruct (Hne ltac:(intros ->; inversion Hc)) as (Hout & Hin & Hh).
      exists name0, id0, c.
      split; [reflexivity|]. split; [exact Hout|]. split; [set_solver|].
      split; [left|]. exists idx, cs. rewrite Nat.sub_diag.
      split; [lia|]. split; [reflexivity|]. split; assumption.
    + eapply Forall_impl; [exact Hall|]. intros line Hline.
      eapply line_of_run_cons; eassumption.
  - destruct Hlog as (lognew & Hl & Hall). exists (first ++ lognew).
    split; [rewrite Hl, <- app_assoc; reflexivity|].
    apply Forall_app. split.
    + destruct Hfirst as [[-> _]|[-> Hout]]; [constructor|].
      constructor; [|constructor]. apply harvest_of_run_head. exact Hout.
    + eapply Forall_impl; [exact Hall|]. intros j Hj.
      eapply harvest_of_run_cons; eassumption.
  - intros Hend [|i] name artist_id Hi HnP Hearlier.
    + simpl in Hi. injection Hi as <- <-.
      destruct Hfirst as [[_ Hin]|[-> _]]; [contradiction|].
      destruct Hlog as (lognew & -> & _). rewrite Nat.add_0_r. set_solver.
    + simpl in Hi, Hearlier. apply not_elem_of_cons in Hearlier as [Hne0 Hearlier].
      replace (idx + S i)%nat with (S idx + i)%nat by lia.
      apply (Hdone Hend i name artist_id Hi); [|exact Hearlier].
      intros Hin. destruct (HP' _ Hin); [contradiction|congruence].
Qed.

(** The run stops in the harvest of the first artist. *)
Lemma run_spec_stop world name0 id0 rest idx P d log e :
  pipeline_file d -> id0 ∉ P -> e <> Completed ->
  run_spec world ((name0, id0) :: rest) idx P d log (RunResult d (log ++ [idx]) P e).
Proof.
  intros Hwf Hout He. split; [exact Hwf|]. split; [set_solver|]. split; [|split]; simpl.
  - exists []. rewrite app_nil_r. split; [reflexivity|constructor].
  - exists [idx]. split; [reflexivity|]. constructor; [|constructor].
    apply harvest_of_run_head. exact Hout.
  - intros Hend. contradiction.
Qed.

Lemma main_loop_spec world artists : forall idx P d log,
  pipeline_file d ->
  run_spec world artists idx P d log (main_loop lower fuel world artists idx P d log).
Proof.
  induction artists as [|[name0 id0] rest IH]; intros idx P d log Hwf; simpl.
  - split; [exact Hwf|]. split; [set_solver|]. split; [|split].
    + exists []. rewrite app_nil_r. split; [reflexivity|constructor].
    + exists []. rewrite app_nil_r. split; [reflexivity|constructor].
    + intros _ i name artist_id Hi. inversion Hi.
  - destruct (decide (id0 ∈ P)) as [Hin|Hout].
    + apply (run_spec_cons world name0 id0 rest idx P P d d log _ [] []);
        [set_solver|tauto|rewrite app_nil_r; reflexivity|congruence|
         left; split; [reflexivity|exact Hin]|].
      rewrite app_nil_r. apply IH. exact Hwf.
    + destruct (get_collaborators_for_artist_id lower fuel (world idx) name0 id0)
        as [[collabs|e]|] eqn:Hharvest.
      * destruct (get_collaborators_rows _ _ _ _ _ _ Hharvest) as (tracks & ->).
        set (cs := merge_sort _ _) in *.
        destruct (append_collaborators_spec name0 id0 cs d Hwf) as [Hwf' Hlines].
        apply (run_spec_cons world name0 id0 rest idx P ({[id0]} ∪ P) d
                 (append_collaborators_to_csv (map (collab_row name0 id0) cs) d) log _
                 cs [idx]);
          [set_solver|set_solver|exact Hlines|
           intros _; split; [exact Hout|split; [set_solver|exact Hharvest]]|
           right; split; [reflexivity|exact Hout]|].
        apply IH. exact Hwf'.
      * destruct (is_Exception e).
        { apply (run_spec_cons world name0 id0 rest idx P P d d log _ [] [idx]);
            [set_solver|tauto|rewrite app_nil_r; reflexivity|congruence|
             right; split; [reflexivity|exact Hout]|].
          apply IH. exact Hwf. }
        { apply run_spec_stop; [exact Hwf|exact Hout|discriminate]. }
      * apply run_spec_stop; [exact Hwf|exact Hout|discriminate].
Qed.

(** The lines a run adds are for artists that were not processed at its
    start: an id that was processed and had no line has none after. *)
Lemma run_adds_no_line_for_processed world artists idx P d log x :
  pipeline_file d ->
  x ∈ P ->
  x ∉ load_already_processed_artists d ->
  x ∉ load_already_processed_artists
        (final_csv (main_loop lower fuel world artists idx P d log)).
Proof.
  intros Hwf HxP Hxd Hx.
  destruct (main_loop_spec world artists idx P d log Hwf) as (Hwf' & _ & (new & Hl & Hnew) & _).
  apply (load_already_processed_spec _ _ Hwf') in Hx as (Hne & line & Hin & Hprim).
  rewrite Hl in Hin. apply elem_of_app in Hin as [Hin|Hin].
  - apply Hxd. apply (load_already_processed_spec _ _ Hwf). split; [exact Hne|].
    exists line. split; assumption.
  - rewrite Forall_forall in Hnew.
    destruct (Hnew line Hin) as (name & artist_id & c & -> & Hout & _).
    rewrite primary_of_written in Hprim. injection Hprim as ->. contradiction.
Qed.

(** The processed set covers the ids that have lines in the file. *)
Lemma run_keeps_file_within_processed world artists idx P d log :
  pipeline_file d ->
  load_already_processed_artists d ⊆ P ->
  load_already_processed_artists
    (final_csv (main_loop lower fuel world artists idx P d log))
  ⊆ processed (main_loop lower fuel world artists idx P d log).
Proof.
  intros Hwf Hsub x Hx.
  destruct (main_loop_spec world artists idx P d log Hwf) as (Hwf' & HP & (new & Hl & Hnew) & _).
  apply (load_already_processed_spec _ _ Hwf') in Hx as (Hne & line & Hin & Hprim).
  rewrite Hl in Hin. apply elem_of_app in Hin as [Hin|Hin].
  - apply HP, Hsub. apply (load_already_processed_spec _ _ Hwf). split; [exact Hne|].
    exists line. split; assumption.
  - rewrite Forall_forall in Hnew.
    destruct (Hnew line Hin) as (name & artist_id & c & -> & _ & Hafter & _).
    rewrite primary_of_written in Hprim. injection Hprim as ->. exact Hafter.
Qed.

(** A roster in two parts: the second part is run from the state the
    first part leaves, unless the run stopped in the first part. *)
Lemma main_loop_app world pre : forall rest idx P d log,
  main_loop lower fuel world (pre ++ rest) idx P d log =
  let r1 := main_loop lower fuel world pre idx P d log in
  match ending r1 with
  | Completed =>
      main_loop lower fuel world rest (idx + length pre)
                (processed r1) (final_csv r1) (harvested r1)
  | _ => r1
  end.
Proof.
  induction pre as [|[name0 id0] pre IH]; intros rest idx P d log; simpl.
  - rewrite Nat.add_0_r. reflexivity.
  - replace (idx + S (length pre))%nat with (S idx + length pre)%nat by lia.
    destruct (decide (id0 ∈ P)); [apply IH|].
    destruct (get_collaborators_for_artist_id lower fuel (world idx) name0 id0)
      as [[collabs|e]|]; [apply IH| |reflexivity].
    destruct (is_Exception e); [apply IH|reflexivity].
Qed.

(** A run that Ctrl+C stopped in the harvest of artist [j] left what the
    run of the artists before [j] leaves. *)
Lemma main_loop_interrupted world artists : forall idx P d log j,
  ending (main_loop lower fuel world artists idx P d log) = Interrupted j ->
  (idx <= j < idx + length artists)%nat /\
  let r := main_loop lower fuel world artists idx P d log in
  let r0 := main_loop lower fuel world (take (j - idx) artists) idx P d log in
  ending r0 = Completed /\
  final_csv r = final_csv r0 /\
  processed r = processed r0 /\
  harvested r = harvested r0 ++ [j].
Proof.
  induction artists as [|[name0 id0] rest IH]; intros idx P d log j Hend; simpl in Hend.
  - discriminate.
  - assert (Hrec : forall P' d' log',
              ending (main_loop lower fuel world rest (S idx) P' d' log') = Interrupted j ->
              (idx <= j < idx + S (length rest))%nat /\
              take (j - idx) ((name0, id0) :: rest) = (name0, id0) :: take (j - S idx) rest /\
              let r := main_loop lower fuel world rest (S idx) P' d' log' in
              let r0 := main_loop lower fuel world (take (j - S idx) rest) (S idx) P' d' log' in
              ending r0 = Completed /\ final_csv r = final_csv r0 /\
              processed r = processed r0 /\ harvested r = harvested r0 ++ [j]).
    { intros P' d' log' H. destruct (IH _ _ _ _ _ H) as (Hj & Hrest).
      split; [lia|]. split; [|exact Hrest].
      replace (j - idx)%nat with (S (j - S idx)) by lia. reflexivity. }
    simpl length.
    destruct (decide (id0 ∈ P)) as [Hin|Hout].
    + destruct (Hrec _ _ _ Hend) as (Hj & Htake & Hrest).
      split; [exact Hj|]. rewrite Htake. simpl.
      destruct (decide (id0 ∈ P)); [exact Hrest|contradiction].
    + destruct (get_collaborators_for_artist_id lower fuel (world idx) name0 id0)
        as [[collabs|e]|] eqn:Hharvest.
      * destruct (Hrec _ _ _ Hend) as (Hj & Htake & Hrest).
        split; [exact Hj|]. rewrite Htake. simpl.
        destruct (decide (id0 ∈ P)); [contradiction|]. rewrite Hharvest. exact Hrest.
      * destruct (is_Exception e) eqn:He.
        { destruct (Hrec _ _ _ Hend) as (Hj & Htake & Hrest).
          split; [exact Hj|]. rewrite Htake. simpl.
          destruct (decide (id0 ∈ P)); [contradiction|]. rewrite Hharvest, He. exact Hrest. }
        { simpl in Hend. injection Hend as <-. split; [lia|].
          rewrite Nat.sub_diag. simpl.
          destruct (decide (id0 ∈ P)); [contradiction|]. rewrite Hharvest, He.
          simpl. repeat split; reflexivity. }
      * discriminate.
Qed.

(** The run reads the world only at the numbers of the roster. *)
Lemma main_loop_ext world world' artists : forall idx P d log,
  (forall j, (idx <= j < idx + length artists)%nat -> world' j = world j) ->
  main_loop lower fuel world' artists idx P d log
  = main_loop lower fuel world artists idx P d log.
Proof.
  induction artists as [|[name0 id0] rest IH]; intros idx P d log Hsame; simpl; [reflexivity|].
  assert (Hrest : forall P' d' log',
            main_loop lower fuel world' rest (S idx) P' d' log'
            = main_loop lower fuel world rest (S idx) P' d' log').
  { intros. apply IH. intros j Hj. apply Hsame. simpl. lia. }
  rewrite (Hsame idx) by (simpl; lia).
  destruct (decide (id0 ∈ P)); [apply Hrest|].
  destruct (get_collaborators_for_artist_id lower fuel (world idx) name0 id0)
    as [[collabs|e]|]; [apply Hrest| |reflexivity].
  destruct (is_Exception e); [apply Hrest|reflexivity].
Qed.

(** Marking as processed an artist that is not on the roster changes
    nothing but the processed set. *)
Lemma main_loop_mark_absent world artists x : forall idx P d log,
  x ∉ map snd artists ->
  let r := main_loop lower fuel world artists idx P d log in
  let r' := main_loop lower fuel world artists idx ({[x]} ∪ P) d log in
  final_csv r' = final_csv r /\ harvested r' = harvested r /\
  ending r' = ending r /\ processed r' = {[x]} ∪ processed r.
Proof.
  induction artists as [|[name0 id0] rest IH]; intros idx P d log Hx; simpl.
  - repeat split; reflexivity.
  - simpl in Hx. apply not_elem_of_cons in Hx as [Hne Hx].
    destruct (decide (id0 ∈ P)) as [Hin|Hout];
      destruct (decide (id0 ∈ {[x]} ∪ P)) as [Hin'|Hout'].
    + apply IH. exact Hx.
    + exfalso. apply Hout'. apply elem_of_union. right. exact Hin.
    + exfalso. apply elem_of_union in Hin' as [Hin'|Hin']; [|contradiction].
      apply elem_of_singleton in Hin'. congruence.
    + destruct (get_collaborators_for_artist_id lower fuel (world idx) name0 id0)
        as [[collabs|e]|].
      * assert (Hcomm : {[id0]} ∪ ({[x]} ∪ P) = {[x]} ∪ ({[id0]} ∪ P)) by set_solver.
        rewrite Hcomm. apply IH. exact Hx.
      * destruct (is_Exception e); [apply IH; exact Hx|]. simpl. repeat split; reflexivity.
      * simpl. repeat split; reflexivity.
Qed.
End DriverFacts.

Lemma NoDup_ids_before (artists : list (string * string)) k i name artist_id :
  NoDup (map snd artists) ->
  artists !! i = Some (name, artist_id) ->
  (k <= i)%nat ->
  artist_id ∉ map snd (take k artists).
Proof.
  intros Hnd Hi Hk Hin.
  rewrite <- (take_drop k artists), map_app in Hnd.
  apply NoDup_app in Hnd as (_ & Hdisj & _).
  apply (Hdisj _ Hin). apply list_elem_of_fmap. exists (name, artist_id).
  split; [reflexivity|]. apply list_elem_of_lookup. exists (i - k)%nat.
  rewrite lookup_drop. replace (k + (i - k))%nat with i by lia. exact Hi.
Qed.

(** A roster of three artists. In the first run the API answers for the
    first artist and Ctrl+C arrives in the harvest of the second. *)
Definition roster_csv : csv_file :=
  CsvFile ["name"; "id"] [["P"; "p"]; ["Q"; "q"]; ["R"; "r"]].

Definition interrupting : api :=
  Api (fun _ => Raises KeyboardInterrupt) (fun _ _ => Raises KeyboardInterrupt).

Definition first_world (idx : nat) : api :=
  match idx with
  | 1%nat => two_shared_tracks
  | _ => interrupting
  end.

(** In the second run only the third artist has a collaborator. *)
Definition track_of_r : track :=
  Track (Some "t9") "Z" [Artist (Some "r") "R"; Artist (Some "c") "C"].

Definition second_world (idx : nat) : api :=
  match idx with
  | 3%nat => Api (fun _ => Returns (Some (Page [Album "r9" "Nine"] false)))
                 (fun _ _ => Returns (Some (Page [track_of_r] false)))
  | _ => two_shared_tracks
  end.

Example first_run :
  main ascii_lower 2 first_world roster_csv None
  = RunResult (Some (CsvFile FIELDNAMES [["P"; "p"; "c"; "C"]])) [1; 2]%nat {["p"]}
              (Interrupted 2).
Proof. vm_compute. reflexivity. Qed.

Example second_run :
  main ascii_lower 2 second_world roster_csv
       (Some (CsvFile FIELDNAMES [["P"; "p"; "c"; "C"]]))
  = RunResult (Some (CsvFile FIELDNAMES [["P"; "p"; "c"; "C"]; ["R"; "r"; "c"; "C"]]))
              [2; 3]%nat {["p"; "q"; "r"]} Completed.
Proof. vm_compute. reflexivity. Qed.

Lemma NoDup_ids_after (artists : list (string * string)) i name artist_id :
  NoDup (map snd artists) ->
  artists !! i = Some (name, artist_id) ->
  artist_id ∉ map snd (drop (S i) artists).
Proof.
  intros Hnd Hi Hin.
  rewrite <- (take_drop_middle artists i _ Hi), map_app in Hnd. simpl in Hnd.
  apply NoDup_app in Hnd as (_ & _ & Hnd). apply NoDup_cons in Hnd as [Hout _].
  contradiction.
Qed.

(** The run of a roster, cut at artist number [j]: either it stopped
    before, or it came to [j] with a state in which the file holds lines
    of processed artists only. *)
Lemma main_loop_reach lower fuel world (artists : list (string * string)) d j name artist_id :
  pipeline_file d ->
  (1 <= j)%nat ->
  artists !! (j - 1)%nat = Some (name, artist_id) ->
  let pre := take (j - 1) artists in
  let post := drop j artists in
  let r1 := main_loop lower fuel world pre 1 (load_already_processed_artists d) d [] in
  pipeline_file (final_csv r1) /\
  load_already_processed_artists (final_csv r1) ⊆ processed r1 /\
  Forall (fun i => (i < j)%nat) (harvested r1) /\
  main_loop lower fuel world artists 1 (load_already_processed_artists d) d [] =
  match ending r1 with
  | Completed =>
      main_loop lower fuel world ((name, artist_id) :: post) j
                (processed r1) (final_csv r1) (harvested r1)
  | _ => r1
  end.
Proof.
  intros Hwf Hj Hlook pre post r1.
  destruct (main_loop_spec lower fuel world pre 1 (load_already_processed_artists d) d [] Hwf)
    as (Hwf1 & _ & _ & (lognew & Hlog & Hlognew) & _).
  fold r1 in Hwf1, Hlog. simpl in Hlog.
  split; [exact Hwf1|]. split; [|split].
  - apply run_keeps_file_within_processed; [exact Hwf|reflexivity].
  - rewrite Hlog. eapply Forall_impl; [exact Hlognew|].
    intros i [[_ Hi] _]. unfold pre in Hi. rewrite length_take in Hi. lia.
  - assert (Hsplit : artists = pre ++ (name, artist_id) :: post).
    { unfold pre, post. replace j with (S (j - 1)) at 2 by lia.
      symmetry. apply take_drop_middle. exact Hlook. }
    rewrite Hsplit at 1. rewrite main_loop_app. fold r1. cbv zeta.
    assert (Hlen : (1 + length pre = j)%nat).
    { unfold pre. rewrite length_take. apply lookup_lt_Some in Hlook. lia. }
    rewrite Hlen. reflexivity.
Qed.

(** C10. In a run on a roster of pairwise different artist ids, started
    on no file or on a file of the pipeline, let artist number [j] be
    harvested and let the extraction return no collaborator. Then:
    appending the empty list leaves the file as it is (absent when it was
    absent, no header written); at the end of the run the id of the
    artist is not in the processed set read from the file; a later run
    on the same input and that file that reaches the end of the roster
    harvests the artist again; and the file, the log and the ending of
    the run are those of the run in which that harvest raises an
    exception instead. *)
Theorem empty_harvest_is_not_checkpointed
    (lower : string -> string) (fuel : nat) (world : nat -> api)
    (input_csv : csv_file) (output_csv : option csv_file)
    (j : nat) (name artist_id : string) :
  let artists := load_artists_from_input input_csv in
  let run := main lower fuel world input_csv output_csv in
  pipeline_file output_csv ->
  NoDup (map snd artists) ->
  (1 <= j)%nat ->
  artists !! (j - 1)%nat = Some (name, artist_id) ->
  j ∈ harvested run ->
  get_collaborators_for_artist_id lower fuel (world j) name artist_id = Some (Returns []) ->
  (forall d, append_collaborators_to_csv [] d = d) /\
  artist_id ∉ load_already_processed_artists (final_csv run) /\
  (forall world2,
     let run2 := main lower fuel world2 input_csv (final_csv run) in
     ending run2 = Completed -> j ∈ harvested run2) /\
  (forall world' e,
     is_Exception e = true ->
     (forall i, i <> j -> world' i = world i) ->
     get_collaborators_for_artist_id lower fuel (world' j) name artist_id = Some (Raises e) ->
     let run' := main lower fuel world' input_csv output_csv in
     final_csv run' = final_csv run /\ harvested run' = harvested run /\
     ending run' = ending run).
Proof.
  intros artists run Hwf Hnd Hj Hlook Hharv Hempty.
  unfold main in run. fold artists in run.
  destruct (main_loop_reach lower fuel world artists output_csv j name artist_id Hwf Hj Hlook)
    as (Hwf1 & Hsub1 & Hlog1 & Hrun).
  fold run in Hrun.
  set (pre := take (j - 1) artists) in *. set (post := drop j artists) in *.
  set (r1 := main_loop lower fuel world pre 1 _ output_csv []) in *.
  assert (Hj_not_before : j ∉ harvested r1).
  { intros Hin. rewrite Forall_forall in Hlog1. specialize (Hlog1 j Hin). lia. }
  assert (Hend1 : ending r1 = Completed).
  { destruct (ending r1) eqn:E; [reflexivity| |];
      rewrite Hrun in Hharv; contradiction. }
  rewrite Hend1 in Hrun. simpl in Hrun.
  assert (Hout : artist_id ∉ processed r1).
  { intros Hin. destruct (decide (artist_id ∈ processed r1)); [|contradiction].
    destruct (main_loop_spec lower fuel world post (S j) (processed r1) (final_csv r1)
                (harvested r1) Hwf1) as (_ & _ & _ & (lognew & Hlog & Hlognew) & _).
    rewrite <- Hrun in Hlog. rewrite Hlog in Hharv.
    apply elem_of_app in Hharv as [Hharv|Hharv]; [contradiction|].
    rewrite Forall_forall in Hlognew. destruct (Hlognew j Hharv) as [[Hlo _] _]. lia. }
  destruct (decide (artist_id ∈ processed r1)) as [|_]; [contradiction|].
  rewrite Hempty in Hrun. simpl in Hrun.
  assert (Hnot_post : artist_id ∉ map snd post).
  { unfold post. replace j with (S (j - 1)) by lia.
    eapply NoDup_ids_after; eassumption. }
  assert (Hfile : artist_id ∉ load_already_processed_artists (final_csv run)).
  { rewrite Hrun. apply run_adds_no_line_for_processed; [exact Hwf1|set_solver|set_solver]. }
  split; [reflexivity|]. split; [exact Hfile|]. split.
  - intros world2 run2 Hend2. unfold run2, main. fold artists.
    destruct (main_loop_spec lower fuel world2 artists 1
                (load_already_processed_artists (final_csv run)) (final_csv run) [])
      as (_ & _ & _ & _ & Hall).
    { destruct (main_loop_spec lower fuel world artists 1
                  (load_already_processed_artists output_csv) output_csv [] Hwf) as (H & _).
      exact H. }
    replace j with (1 + (j - 1))%nat at 1 by lia.
    apply (Hall Hend2 (j - 1)%nat name artist_id Hlook Hfile).
    eapply NoDup_ids_before; [exact Hnd|exact Hlook|lia].
  - intros world' e He Hsame Hraise run'. unfold run', main. fold artists.
    destruct (main_loop_reach lower fuel world' artists output_csv j name artist_id Hwf Hj Hlook)
      as (_ & _ & _ & Hrun').
    fold pre post in Hrun'.
    assert (Hpre : main_loop lower fuel world' pre 1
                     (load_already_processed_artists output_csv) output_csv [] = r1).
    { apply main_loop_ext. intros i Hi. apply Hsame.
      unfold pre in Hi. rewrite length_take in Hi. lia. }
    rewrite Hpre, Hend1 in Hrun'. simpl in Hrun'.
    destruct (decide (artist_id ∈ processed r1)) as [|_]; [contradiction|].
    rewrite Hraise, He in Hrun'.
    rewrite (main_loop_ext lower fuel world world' post) in Hrun'
      by (intros i Hi; apply Hsame; lia).
    destruct (main_loop_mark_absent lower fuel world post artist_id (S j) (processed r1)
                (final_csv r1) (harvested r1 ++ [j]) Hnot_post) as (H1 & H2 & H3 & _).
    rewrite Hrun', Hrun. repeat split; congruence.
Qed.

Definition file_after_first_run : option csv_file :=
  Some (CsvFile FIELDNAMES [["P"; "p"; "c"; "C"]]).

Example harvest_of_q_is_empty :
  get_collaborators_for_artist_id ascii_lower 2 (second_world 2) "Q" "q"
  = Some (Returns []).
Proof. vm_compute. reflexivity. Qed.

Example q_is_left_out :
  load_already_processed_artists
    (final_csv (main ascii_lower 2 second_world roster_csv file_after_first_run))
  = {["p"; "r"]}.
Proof. vm_compute. reflexivity. Qed.

Lemma empty_harvest_is_not_checkpointed_witness :
  let run := main ascii_lower 2 second_world roster_csv file_after_first_run in
  (forall d, append_collaborators_to_csv [] d = d) /\
  "q" ∉ load_already_processed_artists (final_csv run) /\
  (forall world2,
     let run2 := main ascii_lower 2 world2 roster_csv (final_csv run) in
     ending run2 = Completed -> 2%nat ∈ harvested run2) /\
  (forall world' e,
     is_Exception e = true ->
     (forall i, i <> 2%nat -> world' i = second_world i) ->
     get_collaborators_for_artist_id ascii_lower 2 (world' 2%nat) "Q" "q" = Some (Raises e) ->
     let run' := main ascii_lower 2 world' roster_csv file_after_first_run in
     final_csv run' = final_csv run /\ harvested run' = harvested run /\
     ending run' = ending run).
Proof.
  apply (empty_harvest_is_not_checkpointed ascii_lower 2 second_world roster_csv
           file_after_first_run 2 "Q" "q").
  - reflexivity.
  - vm_compute. repeat (apply NoDup_cons; split; [set_solver|]). apply NoDup_nil_2.
  - lia.
  - reflexivity.
  - vm_compute. set_solver.
  - vm_compute. reflexivity.
Defined.

(* ================================================================== *)
(** * Part III: further properties of the code                         *)
(* ================================================================== *)

(** ** Backoff executor: how a call ends *)

Section BackoffRuns.
Variable py_int : string -> option Z.
Context {A : Type}.
Variable func : nat -> outcome A.
Variable max_retries : nat.
Variable initial_wait : Z.

Local Abbreviation loop := (backoff_loop py_int func max_retries initial_wait).
Local Abbreviation handler := (on_failure py_int initial_wait).

(** Attempt [k] fails and is answered by a sleep of [w] seconds. *)
Definition retried (k : nat) (w : Z) : Prop :=
  exists e, func k = Raises e /\ handler e k = SleepFor w /\ (0 <= w)%Z.

(** The trace of [j] retried attempts, from attempt [a] on. *)
Fixpoint retries_trace (a : nat) (ws : list Z) : list event :=
  match ws with
  | [] => []
  | w :: ws' => EvRateLimitCheck :: EvCall a :: EvSleep w :: retries_trace (S a) ws'
  end.

Lemma retries_trace_delays a ws : delays (retries_trace a ws) = ws.
Proof.
  revert a. induction ws as [|w ws IH]; intros a; [reflexivity|].
  simpl. unfold delays in *. simpl. rewrite IH. reflexivity.
Qed.

Lemma retries_trace_calls a ws : calls (retries_trace a ws) = seq a (length ws).
Proof.
  revert a. induction ws as [|w ws IH]; intros a; [reflexivity|].
  simpl. unfold calls in *. simpl. rewrite IH. reflexivity.
Qed.

Lemma retries_trace_checks a ws : rate_limit_checks (retries_trace a ws) = length ws.
Proof.
  revert a. induction ws as [|w ws IH]; intros a; [reflexivity|].
  unfold rate_limit_checks in *. simpl. f_equal. apply IH.
Qed.

(** Retried attempts are run through; the loop goes on after them. *)
Lemma backoff_loop_run ws : forall todo a,
  (forall i w, ws !! i = Some w -> retried (a + i) w) ->
  loop (length ws + todo) a =
  (retries_trace a ws ++ (loop todo (a + length ws)).1, (loop todo (a + length ws)).2).
Proof.
  induction ws as [|w ws IH]; intros todo a Hall.
  - simpl. rewrite Nat.add_0_r. destruct (loop todo a). reflexivity.
  - destruct (Hall 0%nat w eq_refl) as (e & Hf & Hh & Hw). rewrite Nat.add_0_r in Hf, Hh.
    simpl. rewrite Hf, Hh.
    destruct (w <? 0)%Z eqn:Eneg; [apply Z.ltb_lt in Eneg; lia|].
    rewrite (IH todo (S a)).
    + replace (S a + length ws)%nat with (a + S (length ws))%nat by lia. reflexivity.
    + intros i w' Hi. replace (S a + i)%nat with (a + S i)%nat by lia.
      apply Hall. exact Hi.
Qed.

(** The shape of every trace: attempts [0, 1, ...], fewer than or as
    many as [max_retries], a rate-limit check for each, at most one
    sleep after each. *)
Lemma backoff_loop_shape todo : forall a,
  exists n, (n <= todo)%nat /\
    calls (loop todo a).1 = seq a n /\
    rate_limit_checks (loop todo a).1 = n /\
    (length (delays (loop todo a).1) <= n)%nat.
Proof.
  induction todo as [|todo IH]; intros a; simpl.
  - exists 0%nat. repeat split; simpl; lia.
  - destruct (func a) as [v|e].
    + exists 1%nat. repeat split; simpl; lia.
    + destruct (handler e a) as [w|e'].
      * destruct (w <? 0)%Z.
        { exists 1%nat. repeat split; simpl; lia. }
        destruct (IH (S a)) as (n & Hn & Hc & Hr & Hd).
        destruct (loop todo (S a)) as [tr r]. simpl in *.
        exists (S n). split; [lia|]. split; [|split].
        { unfold calls in *. simpl. rewrite Hc. reflexivity. }
        { unfold rate_limit_checks in *. simpl. f_equal. exact Hr. }
        { unfold delays in *. simpl. lia. }
      * exists 1%nat. repeat split; simpl; lia.
Qed.
End BackoffRuns.

(** X1. [api_call_with_backoff] returns the result of the first attempt
    that succeeds: when the attempts before attempt [k] (numbered from 0,
    [k < max_retries]) fail with retried errors and attempt [k] returns
    [v], the call returns [v] after exactly [k] sleeps and [k + 1]
    attempts. *)
Theorem api_call_with_backoff_first_success
    (py_int : string -> option Z) (A : Type) (func : nat -> outcome A)
    (max_retries : nat) (initial_wait : Z) (ws : list Z) (v : A) :
  (length ws < max_retries)%nat ->
  (forall i w, ws !! i = Some w -> retried py_int func initial_wait i w) ->
  func (length ws) = Returns v ->
  let run := api_call_with_backoff py_int func max_retries initial_wait in
  run.2 = Returns v /\
  delays run.1 = ws /\
  calls run.1 = seq 0 (S (length ws)).
Proof.
  intros Hlt Hall Hv run. unfold run, api_call_with_backoff.
  replace max_retries with (length ws + S (max_retries - length ws - 1))%nat by lia.
  rewrite (backoff_loop_run py_int func _ initial_wait ws _ 0 Hall).
  simpl. rewrite Hv. simpl. split; [reflexivity|].
  unfold delays, calls. rewrite !omap_app. fold (delays (retries_trace 0 ws)).
  fold (calls (retries_trace 0 ws)).
  rewrite retries_trace_delays, retries_trace_calls. simpl.
  split; [apply app_nil_r|].
  change (0 :: seq 1 (length ws)) with (seq 0 (S (length ws))).
  rewrite seq_S. reflexivity.
Qed.

Lemma api_call_with_backoff_first_success_witness :
  let run := api_call_with_backoff int_decimal flaky 5 2 in
  run.2 = Returns 42%nat /\
  delays run.1 = [2%Z; 7%Z] /\
  calls run.1 = seq 0 (S (length [2%Z; 7%Z])).
Proof.
  apply (api_call_with_backoff_first_success int_decimal nat flaky 5 2 [2%Z; 7%Z] 42%nat).
  - simpl. lia.
  - intros [|[|i]] w Hw; simpl in Hw; try discriminate; injection Hw as <-.
    + exists (SpotifyException 429 None). repeat split. lia.
    + exists (SpotifyException 429 (Some "7")). repeat split. lia.
  - reflexivity.
Defined.

(** X2. A SpotifyException whose status is neither 429 nor 5xx is not
    retried: when the attempts before attempt [k] were retried and
    attempt [k] fails with such a status, [api_call_with_backoff] raises
    that very exception, without a sleep after it and without a further
    attempt. *)
Theorem api_call_with_backoff_client_error_is_fatal
    (py_int : string -> option Z) (A : Type) (func : nat -> outcome A)
    (max_retries : nat) (initial_wait : Z) (ws : list Z)
    (http_status : Z) (retry_after : option string) :
  (length ws < max_retries)%nat ->
  (forall i w, ws !! i = Some w -> retried py_int func initial_wait i w) ->
  func (length ws) = Raises (SpotifyException http_status retry_after) ->
  http_status <> 429%Z -> (http_status < 500)%Z ->
  let run := api_call_with_backoff py_int func max_retries initial_wait in
  run.2 = Raises (SpotifyException http_status retry_after) /\
  delays run.1 = ws /\
  calls run.1 = seq 0 (S (length ws)).
Proof.
  intros Hlt Hall Hf H429 H500 run. unfold run, api_call_with_backoff.
  replace max_retries with (length ws + S (max_retries - length ws - 1))%nat by lia.
  rewrite (backoff_loop_run py_int func _ initial_wait ws _ 0 Hall).
  simpl. rewrite Hf. simpl.
  destruct (Z.eqb_spec http_status 429); [contradiction|].
  destruct (Z.leb_spec 500 http_status); [lia|]. simpl.
  split; [reflexivity|].
  unfold delays, calls. rewrite !omap_app. fold (delays (retries_trace 0 ws)).
  fold (calls (retries_trace 0 ws)).
  rewrite retries_trace_delays, retries_trace_calls. simpl.
  split; [apply app_nil_r|].
  change (0 :: seq 1 (length ws)) with (seq 0 (S (length ws))).
  rewrite seq_S. reflexivity.
Qed.

Definition forbidden_after_503 (k : nat) : outcome nat :=
  match k with
  | 0%nat => Raises (SpotifyException 503 None)
  | _ => Raises (SpotifyException 403 None)
  end.

Lemma api_call_with_backoff_client_error_is_fatal_witness :
  let run := api_call_with_backoff int_decimal forbidden_after_503 5 2 in
  run.2 = Raises (SpotifyException 403 None) /\
  delays run.1 = [2%Z] /\
  calls run.1 = seq 0 (S (length [2%Z])).
Proof.
  apply (api_call_with_backoff_client_error_is_fatal int_decimal nat forbidden_after_503
           5 2 [2%Z] 403 None).
  - simpl. lia.
  - intros [|i] w Hw; simpl in Hw; try discriminate; injection Hw as <-.
    exists (SpotifyException 503 None). repeat split. lia.
  - reflexivity.
  - discriminate.
  - lia.
Defined.

(** X3. Whatever the attempts do, [api_call_with_backoff] makes the
    attempts [0, 1, ..., n - 1] for some [n <= max_retries], calls
    [rate_limit_check] once for each of them and sleeps at most once
    after each. *)
Theorem api_call_with_backoff_bounded
    (py_int : string -> option Z) (A : Type) (func : nat -> outcome A)
    (max_retries : nat) (initial_wait : Z) :
  let tr := (api_call_with_backoff py_int func max_retries initial_wait).1 in
  exists n, (n <= max_retries)%nat /\
    calls tr = seq 0 n /\
    rate_limit_checks tr = n /\
    (length (delays tr) <= n)%nat.
Proof. apply backoff_loop_shape. Qed.

(** ** spotify_get: how a call ends *)

Section SpotifyGetRuns.
Variable py_int : string -> option Z.
Context {J : Type}.
Variable get : nat -> outcome (response J).

(** Request [k] is answered 429 and followed by a sleep of [w] seconds,
    the value of [Retry-After], or 1 when the header is absent. *)
Definition throttled (k : nat) (w : Z) : Prop :=
  exists r, get k = Returns r /\ status_code r = 429%Z /\
    py_int (default "1" (header_retry_after r)) = Some w /\ (0 <= w)%Z.

Fixpoint throttled_trace (a : nat) (ws : list Z) : list event :=
  match ws with
  | [] => []
  | w :: ws' => EvRequestSleep :: EvCall a :: EvSleep w :: throttled_trace (S a) ws'
  end.

Lemma throttled_trace_delays a ws : delays (throttled_trace a ws) = ws.
Proof.
  revert a. induction ws as [|w ws IH]; intros a; [reflexivity|].
  simpl. unfold delays in *. simpl. rewrite IH. reflexivity.
Qed.

Lemma throttled_trace_calls a ws : calls (throttled_trace a ws) = seq a (length ws).
Proof.
  revert a. induction ws as [|w ws IH]; intros a; [reflexivity|].
  simpl. unfold calls in *. simpl. rewrite IH. reflexivity.
Qed.

Lemma spotify_get_loop_run ws : forall todo a r0,
  ws <> [] ->
  (forall i w, ws !! i = Some w -> throttled (a + i) w) ->
  exists r1,
    spotify_get_loop py_int get (length ws + todo) a r0 =
    (throttled_trace a ws ++ (spotify_get_loop py_int get todo (a + length ws) (Some r1)).1,
     (spotify_get_loop py_int get todo (a + length ws) (Some r1)).2).
Proof.
  induction ws as [|w ws IH]; intros todo a r0 Hne Hall; [contradiction|].
  destruct (Hall 0%nat w eq_refl) as (r & Hg & Hs & Hi & Hw). rewrite Nat.add_0_r in Hg.
  simpl. rewrite Hg, Hs, Hi. simpl.
  destruct (w <? 0)%Z eqn:Eneg; [apply Z.ltb_lt in Eneg; lia|].
  destruct ws as [|w' ws'].
  - exists r. simpl. rewrite Nat.add_1_r.
    destruct (spotify_get_loop py_int get todo (S a) (Some r)). reflexivity.
  - destruct (IH todo (S a) (Some r) ltac:(discriminate)) as (r1 & Hrun).
    { intros i w0 Hi0. replace (S a + i)%nat with (a + S i)%nat by lia.
      apply Hall. exact Hi0. }
    exists r1. rewrite Hrun.
    replace (S a + length (w' :: ws'))%nat with (a + S (length (w' :: ws')))%nat by lia.
    reflexivity.
Qed.

Lemma spotify_get_loop_shape todo : forall a r0,
  exists n, (n <= todo)%nat /\
    calls (spotify_get_loop py_int get todo a r0).1 = seq a n /\
    request_sleeps (spotify_get_loop py_int get todo a r0).1 = n /\
    (length (delays (spotify_get_loop py_int get todo a r0).1) <= n)%nat.
Proof.
  induction todo as [|todo IH]; intros a r0; simpl.
  - exists 0%nat. destruct r0 as [r|]; [destruct (raise_for_status r)|];
      repeat split; simpl; lia.
  - destruct (get a) as [r|e]; [|exists 1%nat; repeat split; simpl; lia].
    destruct (status_code r =? 429)%Z.
    + destruct (py_int _) as [w|]; [|exists 1%nat; repeat split; simpl; lia].
      destruct (w <? 0)%Z; [exists 1%nat; repeat split; simpl; lia|].
      destruct (IH (S a) (Some r)) as (n & Hn & Hc & Hr & Hd).
      destruct (spotify_get_loop py_int get todo (S a) (Some r)) as [tr res]. simpl in *.
      exists (S n). split; [lia|]. split; [|split].
      * unfold calls in *. simpl. rewrite Hc. reflexivity.
      * unfold request_sleeps in *. simpl. f_equal. exact Hr.
      * unfold delays in *. simpl. lia.
    + destruct (raise_for_status r); exists 1%nat; repeat split; simpl; lia.
Qed.
End SpotifyGetRuns.

(** X4. In [spotify_get] only a 429 is retried, and the wait after it is
    the value of [Retry-After], or one second when the header is absent.
    When the requests before request [k] ([k < max_retries]) are
    answered 429 and request [k] is not, request [k] decides: an
    exception of [requests.get] is let through, a 4xx or 5xx status
    raises the HTTP error of that response, any other status returns
    the response's JSON; no further request is made. *)
Theorem spotify_get_first_other_answer_decides
    (py_int : string -> option Z) (J : Type) (get : nat -> outcome (response J))
    (max_retries : nat) (ws : list Z) :
  (length ws < max_retries)%nat ->
  (forall i w, ws !! i = Some w -> throttled py_int get i w) ->
  (forall r, get (length ws) = Returns r -> status_code r <> 429%Z) ->
  let run := spotify_get py_int get max_retries in
  run.2 = match get (length ws) with
          | Raises e => Raises e
          | Returns r =>
              match raise_for_status r with
              | Some e => Raises e
              | None => Returns (Some (json r))
              end
          end /\
  delays run.1 = ws /\
  calls run.1 = seq 0 (S (length ws)).
Proof.
  intros Hlt Hall Hother run. unfold run, spotify_get.
  assert (Hlast : forall r0,
    let last := spotify_get_loop py_int get (S (max_retries - length ws - 1)) (length ws) r0 in
    last.2 = match get (length ws) with
             | Raises e => Raises e
             | Returns r => match raise_for_status r with
                            | Some e => Raises e
                            | None => Returns (Some (json r))
                            end
             end /\
    delays last.1 = [] /\ calls last.1 = [length ws]).
  { intros r0. simpl. destruct (get (length ws)) as [r|e] eqn:Hg.
    - destruct (Z.eqb_spec (status_code r) 429) as [H429|_].
      { exfalso. apply (Hother r eq_refl H429). }
      destruct (raise_for_status r); repeat split; reflexivity.
    - repeat split; reflexivity. }
  replace max_retries with (length ws + S (max_retries - length ws - 1))%nat by lia.
  destruct ws as [|w ws'] eqn:Ews.
  - simpl length in *. simpl plus. destruct (Hlast None) as (H1 & H2 & H3).
    split; [exact H1|]. split; [exact H2|exact H3].
  - rewrite <- Ews in *.
    destruct (spotify_get_loop_run py_int get ws (S (max_retries - length ws - 1)) 0 None)
      as (r1 & Hrun); [rewrite Ews; discriminate|exact Hall|].
    rewrite Hrun. simpl plus. destruct (Hlast (Some r1)) as (H1 & H2 & H3).
    cbn [fst snd]. split; [exact H1|].
    unfold delays, calls in *. rewrite !omap_app.
    fold (delays (throttled_trace 0 ws)). fold (calls (throttled_trace 0 ws)).
    rewrite throttled_trace_delays, throttled_trace_calls, H2, H3.
    split; [apply app_nil_r|].
    change (seq 0 (S (length ws))) with (0 :: seq 1 (length ws))%nat.
    rewrite <- seq_S. reflexivity.
Qed.

(** Two 429 answers, the first without [Retry-After], then a 500. *)
Definition throttled_then_500 (k : nat) : outcome (response string) :=
  match k with
  | 0%nat => Returns (Response 429 None "")
  | 1%nat => Returns (Response 429 (Some "3") "")
  | _ => Returns (Response 500 None "oops")
  end.

Example throttled_then_500_run :
  spotify_get int_decimal throttled_then_500 5 =
  ([EvRequestSleep; EvCall 0; EvSleep 1;
    EvRequestSleep; EvCall 1; EvSleep 3;
    EvRequestSleep; EvCall 2], Raises (HTTPError 500 None)).
Proof. reflexivity. Qed.

Lemma spotify_get_first_other_answer_decides_witness :
  let run := spotify_get int_decimal throttled_then_500 5 in
  run.2 = match throttled_then_500 (length [1%Z; 3%Z]) with
          | Raises e => Raises e
          | Returns r =>
              match raise_for_status r with
              | Some e => Raises e
              | None => Returns (Some (json r))
              end
          end /\
  delays run.1 = [1%Z; 3%Z] /\
  calls run.1 = seq 0 (S (length [1%Z; 3%Z])).
Proof.
  apply (spotify_get_first_other_answer_decides int_decimal string throttled_then_500 5
           [1%Z; 3%Z]).
  - simpl. lia.
  - intros [|[|i]] w Hw; simpl in Hw; try discriminate; injection Hw as <-.
    + exists (Response 429 None ""). repeat split. lia.
    + exists (Response 429 (Some "3") ""). repeat split. lia.
  - intros r Hr. simpl in Hr. injection Hr as <-. discriminate.
Defined.

(** X5. Whatever the answers, [spotify_get] makes the requests
    [0, ..., n - 1] for some [n <= max_retries], sleeps
    [REQUEST_SLEEP_SECONDS] once before each and makes at most one
    further sleep after each. *)
Theorem spotify_get_bounded
    (py_int : string -> option Z) (J : Type) (get : nat -> outcome (response J))
    (max_retries : nat) :
  let tr := (spotify_get py_int get max_retries).1 in
  exists n, (n <= max_retries)%nat /\
    calls tr = seq 0 n /\
    request_sleeps tr = n /\
    (length (delays tr) <= n)%nat.
Proof. apply spotify_get_loop_shape. Qed.

(** ** Rate limiter: when and how long it sleeps *)

Definition recent (now x : Q) : Prop := Qle_bool (now - x) RATE_LIMIT_WINDOW = true.

#[global] Instance recent_dec now x : Decision (recent now x).
Proof. unfold recent. apply _. Defined.

Lemma get_rate_limit_status_filter now ts :
  (get_rate_limit_status now ts).1 = length (filter (recent now) ts).
Proof.
  unfold get_rate_limit_status. simpl.
  assert (H : forall n, foldl (fun count timestamp =>
                if Qle_bool (now - timestamp) RATE_LIMIT_WINDOW then S count else count) n ts
              = (n + length (filter (recent now) ts))%nat).
  { induction ts as [|x ts IH]; intros n; simpl; [lia|].
    rewrite IH, filter_cons.
    destruct (decide (recent now x)) as [Hr|Hn].
    - unfold recent in Hr. rewrite Hr. simpl. lia.
    - unfold recent in Hn. apply not_true_is_false in Hn. rewrite Hn. lia. }
  apply (H 0%nat).
Qed.

(** The deque is in the order of the clock and not ahead of its last
    reading. *)
Record limiter_order (last : Q) (dq : list Q) : Prop := LimiterOrder {
  order_le : Forall (fun x => (x <= last)%Q) dq;
  order_sorted : StronglySorted Qle dq;
  order_length : (length dq <= MAX_REQUESTS_PER_WINDOW)%nat
}.

Lemma StronglySorted_app_inv_r {A} (R : A -> A -> Prop) l1 l2 :
  StronglySorted R (l1 ++ l2) -> StronglySorted R l2.
Proof.
  induction l1 as [|a l1 IH]; simpl; intros H; [exact H|].
  apply IH. inversion H; assumption.
Qed.

Lemma StronglySorted_snoc (l : list Q) x :
  StronglySorted Qle l -> Forall (fun y => (y <= x)%Q) l -> StronglySorted Qle (l ++ [x]).
Proof.
  induction 1 as [|a l Hl IH Ha]; intros Hle; simpl.
  - repeat constructor.
  - apply Forall_cons in Hle as [Hax Hle]. constructor; [apply IH; exact Hle|].
    apply Forall_app. split; [exact Ha|]. repeat constructor. exact Hax.
Qed.

(** In a sorted deque not ahead of [now], the cleaning loop keeps the
    timestamps of the window and only them. *)
Lemma popleft_expired_filter now dq :
  StronglySorted Qle dq ->
  popleft_expired now dq = filter (recent now) dq.
Proof.
  induction 1 as [|x dq Hs IH Hx]; [reflexivity|].
  simpl. rewrite filter_cons. unfold recent at 1.
  destruct (Qgtb (now - x) RATE_LIMIT_WINDOW) eqn:E.
  - apply Qgtb_true in E. destruct (decide _) as [Hr|_]; [|exact IH].
    apply Qle_bool_iff in Hr. lra.
  - apply Qgtb_false in E. destruct (decide _) as [_|Hn].
    + f_equal. symmetry. clear IH. induction dq as [|y dq IHdq]; [reflexivity|].
      apply Forall_cons in Hx as [Hxy Hx]. rewrite filter_cons.
      destruct (decide (recent now y)) as [_|Hn].
      * f_equal. apply IHdq; [inversion Hs; assumption|exact Hx].
      * exfalso. apply Hn. apply Qle_bool_iff. lra.
    + exfalso. apply Hn. apply Qle_bool_iff. exact E.
Qed.

(** One call, from an ordered deque: what it leaves is ordered, and all
    of it lies in the window that ends at the recorded time. *)
Lemma rate_limit_check_order last dq c :
  limiter_order last dq ->
  (last <= at_entry c)%Q ->
  sleep_ok c dq ->
  let a := rate_limit_check c dq in
  limiter_order (recorded a) (timestamps_after a) /\
  Forall (recent (recorded a)) (timestamps_after a).
Proof.
  intros [Hle Hsorted Hlen] Hlast Hsleep a.
  destruct (rate_limit_check_spec c dq Hlen Hsleep)
    as (dropped & kept & Hdq & Hafter & Hdropped & Hrec & Hkept).
  fold a in Hafter, Hdropped, Hrec.
  assert (Hkle : Forall (fun x => (x <= recorded a)%Q) kept).
  { rewrite Hdq in Hle. apply Forall_app in Hle as [_ Hle].
    eapply Forall_impl; [exact Hle|]. intros x Hx. simpl in Hx. lra. }
  assert (Hks : StronglySorted Qle kept).
  { rewrite Hdq in Hsorted. eapply StronglySorted_app_inv_r. exact Hsorted. }
  split.
  - split.
    + rewrite Hafter. apply Forall_app. split; [exact Hkle|].
      repeat constructor. lra.
    + rewrite Hafter. apply StronglySorted_snoc; assumption.
    + rewrite Hafter, length_app. simpl. lia.
  - assert (Hkept_eq : kept = popleft_expired (recorded a) kept).
    { subst a. revert Hafter Hdq. unfold rate_limit_check.
      destruct (MAX_REQUESTS_PER_WINDOW <=? length (popleft_expired (at_entry c) dq))%nat.
      - destruct (popleft_expired (at_entry c) dq) as [|oldest rest] eqn:E1.
        + simpl. intros Ha _. apply (app_inj_tail [] kept) in Ha as [<- _]. reflexivity.
        + destruct (Qgtb _ 0).
          * cbn [timestamps_after recorded]. intros Ha _.
            apply app_inj_tail in Ha as [<- _].
            destruct (popleft_expired_split (after_sleep c) (oldest :: rest))
              as (d & _ & _ & Hhd).
            destruct (popleft_expired (after_sleep c) (oldest :: rest)) as [|y ys] eqn:E2;
              [reflexivity|].
            simpl. apply Qgtb_false in Hhd. rewrite Hhd. reflexivity.
          * cbn [timestamps_after recorded]. intros Ha _.
            apply app_inj_tail in Ha as [<- _].
            destruct (popleft_expired_split (at_entry c) dq) as (d & _ & _ & Hhd).
            rewrite E1 in Hhd. simpl. apply Qgtb_false in Hhd. rewrite Hhd. reflexivity.
      - cbn [timestamps_after recorded]. intros Ha _.
        apply app_inj_tail in Ha as [<- _].
        destruct (popleft_expired_split (at_entry c) dq) as (d & _ & _ & Hhd).
        destruct (popleft_expired (at_entry c) dq) as [|y ys]; [reflexivity|].
        simpl. apply Qgtb_false in Hhd. rewrite Hhd. reflexivity. }
    rewrite Hafter. apply Forall_app. split.
    + rewrite Hkept_eq, (popleft_expired_filter _ _ Hks).
      apply Forall_forall. intros x Hx. apply list_elem_of_filter in Hx as [Hx _]. exact Hx.
    + repeat constructor. unfold recent. apply Qle_bool_iff.
      unfold RATE_LIMIT_WINDOW. lra.
Qed.

(** The time recorded by the last of the calls [cs] ([last] when there
    is none). *)
Fixpoint last_recorded (last : Q) (cs : list clock) (dq : list Q) : Q :=
  match cs with
  | [] => last
  | c :: cs' =>
      let a := rate_limit_check c dq in
      last_recorded (recorded a) cs' (timestamps_after a)
  end.

Lemma run_limiter_order cs : forall last dq,
  limiter_order last dq ->
  clock_ok last cs dq ->
  limiter_order (last_recorded last cs dq) (run_limiter cs dq) /\
  (cs <> [] -> Forall (recent (last_recorded last cs dq)) (run_limiter cs dq)).
Proof.
  induction cs as [|c cs IH]; intros last dq Hord Hok.
  - split; [exact Hord|]. intros H. contradiction.
  - simpl in Hok. destruct Hok as (Hlast & Hsleep & Hok).
    destruct (rate_limit_check_order last dq c Hord Hlast Hsleep) as [Hord1 Hrecent1].
    destruct (IH _ _ Hord1 Hok) as (Hord' & Hne').
    split; [exact Hord'|]. intros _.
    destruct cs as [|c' cs']; [exact Hrecent1|].
    apply Hne'. discriminate.
Qed.

Lemma clock_ok_app_last cs1 : forall cs2 last dq,
  clock_ok last (cs1 ++ cs2) dq ->
  clock_ok last cs1 dq /\
  clock_ok (last_recorded last cs1 dq) cs2 (run_limiter cs1 dq).
Proof.
  induction cs1 as [|c cs1 IH]; intros cs2 last dq Hok; simpl in *.
  - split; [exact I|exact Hok].
  - destruct Hok as (H1 & H2 & H3). destruct (IH _ _ _ H3) as (Ha & Hb).
    split; [repeat split; assumption|exact Hb].
Qed.

Lemma limiter_order_init last : limiter_order last [].
Proof. split; [constructor|constructor|simpl; lia]. Qed.

(** X6. Against a clock that never goes back and a sleep that lasts as
    long as asked, a call of [rate_limit_check] sleeps exactly when
    [get_rate_limit_status], read at the entry of the call, shows a full
    window, and then for at least 0.1 and at most
    [RATE_LIMIT_WINDOW + 0.1] seconds. *)
Theorem rate_limit_check_sleeps_when_full (cs : list clock) (c : clock) (t0 : Q) :
  clock_ok t0 (cs ++ [c]) [] ->
  let dq := run_limiter cs [] in
  let a := rate_limit_check c dq in
  (slept a = None <->
   ((get_rate_limit_status (at_entry c) dq).1 < MAX_REQUESTS_PER_WINDOW)%nat) /\
  (forall d, slept a = Some d -> (0.1 <= d)%Q /\ (d <= RATE_LIMIT_WINDOW + 0.1)%Q).
Proof.
  intros Hok dq a. apply clock_ok_app_last in Hok as [Hok1 Hok2].
  destruct (run_limiter_order cs t0 [] (limiter_order_init t0) Hok1) as [Hord _].
  fold dq in Hord, Hok2. simpl in Hok2. destruct Hok2 as (Hlast & _ & _).
  set (last := last_recorded t0 cs []) in *.
  rewrite get_rate_limit_status_filter, <- (popleft_expired_filter _ _ (order_sorted _ _ Hord)).
  destruct (popleft_expired_split (at_entry c) dq) as (dropped & Hdq & _ & Hhd).
  subst a. unfold rate_limit_check.
  destruct (MAX_REQUESTS_PER_WINDOW <=? length (popleft_expired (at_entry c) dq))%nat eqn:Efull.
  - apply Nat.leb_le in Efull.
    destruct (popleft_expired (at_entry c) dq) as [|oldest rest] eqn:E1.
    { unfold MAX_REQUESTS_PER_WINDOW in Efull. simpl in Efull. lia. }
    assert (Hold : (oldest <= last)%Q).
    { pose proof (order_le _ _ Hord) as Hle. rewrite Hdq in Hle.
      apply Forall_app in Hle as [_ Hle]. apply Forall_cons in Hle as [Hle _]. exact Hle. }
    assert (Hwait : Qgtb (RATE_LIMIT_WINDOW - (at_entry c - oldest) + 0.1) 0 = true).
    { apply Qgtb_true. unfold RATE_LIMIT_WINDOW in *. lra. }
    rewrite Hwait. simpl slept. split.
    + split; [discriminate|]. intros H. simpl in H, Efull. lia.
    + intros d Hd. injection Hd as <-. unfold RATE_LIMIT_WINDOW in *. split; lra.
  - apply Nat.leb_gt in Efull. simpl slept. split.
    + split; [intros _; exact Efull|reflexivity].
    + intros d Hd. discriminate.
Qed.

Lemma rate_limit_check_sleeps_when_full_witness :
  let dq := run_limiter (repeat (Clock 0 0) 20) [] in
  let a := rate_limit_check (Clock 1 5.2) dq in
  (slept a = None <->
   ((get_rate_limit_status (at_entry (Clock 1 5.2)) dq).1 < MAX_REQUESTS_PER_WINDOW)%nat) /\
  (forall d, slept a = Some d -> (0.1 <= d)%Q /\ (d <= RATE_LIMIT_WINDOW + 0.1)%Q).
Proof.
  apply (rate_limit_check_sleeps_when_full (repeat (Clock 0 0) 20) (Clock 1 5.2) 0).
  vm_compute.
  repeat match goal with |- _ /\ _ => split end;
    try exact I; intros H; discriminate H.
Defined.

(** X7. Against such a clock, [get_rate_limit_status] never shows more
    than [MAX_REQUESTS_PER_WINDOW] requests, whenever it is read; read
    at the time a call of [rate_limit_check] has just recorded, it
    shows the whole deque, the request of that call included. *)
Theorem get_rate_limit_status_bounded (cs : list clock) (c : clock) (t0 : Q) :
  clock_ok t0 (cs ++ [c]) [] ->
  let a := rate_limit_check c (run_limiter cs []) in
  (forall now,
     ((get_rate_limit_status now (timestamps_after a)).1 <= MAX_REQUESTS_PER_WINDOW)%nat) /\
  (get_rate_limit_status (recorded a) (timestamps_after a)).1 = length (timestamps_after a) /\
  (1 <= length (timestamps_after a))%nat.
Proof.
  intros Hok a. apply clock_ok_app_last in Hok as [Hok1 Hok2].
  destruct (run_limiter_order cs t0 [] (limiter_order_init t0) Hok1) as [Hord _].
  simpl in Hok2. destruct Hok2 as (Hlast & Hsleep & _).
  destruct (rate_limit_check_order _ _ c Hord Hlast Hsleep) as [Hord1 Hrecent].
  fold a in Hord1, Hrecent.
  destruct (rate_limit_check_spec c _ (order_length _ _ Hord) Hsleep)
    as (_ & kept & _ & Hafter & _).
  fold a in Hafter.
  split; [|split].
  - intros now. rewrite get_rate_limit_status_filter.
    pose proof (length_filter (recent now) (timestamps_after a)).
    pose proof (order_length _ _ Hord1). lia.
  - rewrite get_rate_limit_status_filter. f_equal.
    clear -Hrecent. induction Hrecent as [|x l Hx _ IH]; [reflexivity|].
    rewrite filter_cons. destruct (decide (recent (recorded a) x)); [|contradiction].
    f_equal. exact IH.
  - rewrite Hafter, length_app. simpl. lia.
Qed.

Lemma get_rate_limit_status_bounded_witness :
  let a := rate_limit_check (Clock 1 5.2) (run_limiter (repeat (Clock 0 0) 20) []) in
  (forall now,
     ((get_rate_limit_status now (timestamps_after a)).1 <= MAX_REQUESTS_PER_WINDOW)%nat) /\
  (get_rate_limit_status (recorded a) (timestamps_after a)).1 = length (timestamps_after a) /\
  (1 <= length (timestamps_after a))%nat.
Proof.
  apply (get_rate_limit_status_bounded (repeat (Clock 0 0) 20) (Clock 1 5.2) 0).
  vm_compute.
  repeat match goal with |- _ /\ _ => split end;
    try exact I; intros H; discriminate H.
Defined.

(** ** Release listing: end of the pages, errors, the cap *)

Section AlbumsRuns.
Variable fetch : nat -> outcome (option (page album)).
Variable max_albums : Z.

(** A scan that holds fewer than [max_albums] ids at the end does not
    stop. *)
Lemma scan_albums_below_cap its all_items seen :
  albums_inv all_items seen ->
  (Z.of_nat (length all_items) < max_albums)%Z ->
  (Z.of_nat (size (seen ∪ list_to_set (album_ids its))) < max_albums)%Z ->
  exists all',
    scan_albums max_albums its all_items seen
      = (false, all', seen ∪ list_to_set (album_ids its)) /\
    albums_inv all' (seen ∪ list_to_set (album_ids its)) /\
    (Z.of_nat (length all') < max_albums)%Z /\
    (exists ext, all' = all_items ++ ext /\ ext ⊆ its).
Proof.
  intros Hinv Hlt Hsize.
  destruct (scan_albums_spec max_albums its all_items seen Hinv)
    as (stop & all' & seen' & Heq & Hinv' & (ext & Hext & Hsub) & Ht & Hf).
  destruct stop.
  - exfalso. destruct (Ht eq_refl) as [_ Hlen]. specialize (Hlen Hlt).
    rewrite <- (albums_inv_size _ _ Hinv') in Hlen.
    assert (Hsubset : seen' ⊆ seen ∪ list_to_set (album_ids its)).
    { destruct Hinv as [-> _]. destruct Hinv' as [-> _]. subst all'.
      unfold album_ids. rewrite map_app, list_to_set_app_L.
      apply union_mono_l. intros x Hx. apply elem_of_list_to_set in Hx.
      apply elem_of_list_to_set. apply list_elem_of_fmap in Hx as (y & -> & Hy).
      apply list_elem_of_fmap. exists y. split; [reflexivity|apply Hsub; exact Hy]. }
    apply subseteq_size in Hsubset. lia.
  - destruct (Hf eq_refl) as [-> Hlen]. exists all'. split; [exact Heq|].
    split; [exact Hinv'|]. split; [apply Hlen; exact Hlt|].
    exists ext. split; assumption.
Qed.

(** Pages that are not empty, announce a next page and leave the count
    below the cap are consumed one by one. *)
Lemma albums_loop_consume front : forall call all_items seen fuel,
  albums_inv all_items seen ->
  (Z.of_nat (length all_items) < max_albums)%Z ->
  (forall i p, front !! i = Some p -> fetch (call + i)%nat = Returns (Some p)) ->
  Forall (fun p => items p <> [] /\ next p = true) front ->
  (Z.of_nat (size (seen ∪ list_to_set (page_ids front))) < max_albums)%Z ->
  exists all',
    albums_loop fetch max_albums (length front + fuel) call all_items seen
    = albums_loop fetch max_albums fuel (call + length front) all'
        (seen ∪ list_to_set (page_ids front)) /\
    albums_inv all' (seen ∪ list_to_set (page_ids front)) /\
    (Z.of_nat (length all') < max_albums)%Z /\
    (forall x, x ∈ all' -> x ∈ all_items \/ exists p, p ∈ front /\ x ∈ items p).
Proof.
  induction front as [|p0 front IH]; intros call all_items seen fuel Hinv Hlt Hfetch Hfront Hsize.
  - exists all_items. simpl. rewrite Nat.add_0_r.
    unfold page_ids. simpl. rewrite union_empty_r_L.
    split; [reflexivity|]. split; [exact Hinv|]. split; [exact Hlt|]. tauto.
  - apply Forall_cons in Hfront as [[Hne Hnext] Hfront].
    pose proof (Hfetch 0%nat p0 eq_refl) as Hf. rewrite Nat.add_0_r in Hf.
    assert (Hunion : seen ∪ list_to_set (page_ids (p0 :: front))
                     = (seen ∪ list_to_set (album_ids (items p0)))
                         ∪ list_to_set (page_ids front)).
    { unfold page_ids. cbn [flat_map]. rewrite list_to_set_app_L, (assoc_L (∪)). reflexivity. }
    rewrite Hunion in Hsize |- *.
    destruct (scan_albums_below_cap (items p0) all_items seen Hinv Hlt)
      as (all1 & Hscan & Hinv1 & Hlt1 & (ext & Hext & Hsub)).
    { pose proof (subseteq_size (seen ∪ list_to_set (album_ids (items p0)))
                    ((seen ∪ list_to_set (album_ids (items p0)))
                       ∪ list_to_set (page_ids front))
                    ltac:(apply union_subseteq_l)). lia. }
    destruct (IH (S call) all1 _ fuel Hinv1 Hlt1) as (all' & Hrun & Hinv' & Hlt' & Hin');
      [|exact Hfront|exact Hsize|].
    { intros i p Hp. replace (S call + i)%nat with (call + S i)%nat by lia.
      apply Hfetch. exact Hp. }
    exists all'. split; [|split; [exact Hinv'|split; [exact Hlt'|]]].
    + simpl length. simpl plus. rewrite (albums_loop_round _ _ _ _ _ _ _ Hf).
      destruct (decide (items p0 = [])); [contradiction|].
      rewrite Hscan, Hnext, Hrun.
      replace (S call + length front)%nat with (call + S (length front))%nat by lia.
      reflexivity.
    + intros x Hx. destruct (Hin' x Hx) as [Hx1|(p & Hp & Hxp)].
      * subst all1. apply elem_of_app in Hx1 as [Hx1|Hx1]; [left; exact Hx1|].
        right. exists p0. split; [left|apply Hsub; exact Hx1].
      * right. exists p. split; [right; exact Hp|exact Hxp].
Qed.

(** What is returned never holds more than [max_albums] releases. *)
Lemma albums_loop_bound fuel : forall call all_items seen l,
  albums_inv all_items seen ->
  (Z.of_nat (length all_items) < max_albums)%Z ->
  albums_loop fetch max_albums fuel call all_items seen = Some (Returns l) ->
  (Z.of_nat (length l) <= max_albums)%Z.
Proof.
  induction fuel as [|fuel IH]; intros call all_items seen l Hinv Hlt Hrun.
  - discriminate.
  - destruct (fetch call) as [[data|]|e] eqn:Hf;
      [|simpl in Hrun; rewrite Hf in Hrun; discriminate..].
    rewrite (albums_loop_round _ _ _ _ _ _ _ Hf) in Hrun.
    destruct (scan_albums_spec max_albums (items data) all_items seen Hinv)
      as (stop & all' & seen' & Heq & Hinv' & _ & Ht & Hf').
    destruct (decide (items data = [])).
    + injection Hrun as <-. lia.
    + rewrite Heq in Hrun. destruct stop.
      * injection Hrun as <-. destruct (Ht eq_refl) as [_ Hlen]. rewrite Hlen; [lia|exact Hlt].
      * destruct (Hf' eq_refl) as [_ Hlen]. specialize (Hlen Hlt). destruct (next data).
        { eapply IH; eassumption. }
        { injection Hrun as <-. lia. }
Qed.
End AlbumsRuns.

(** X8. A listing that ends below the cap is returned whole: let the
    pages [front ++ [last]] be served, those of [front] non-empty and
    announcing a next page, [last] empty or without next page, and let
    them hold fewer than [max_albums] different ids. Then
    [get_artist_albums_albums_and_singles] returns, after these pages,
    one release for each id of the pages and no id twice. *)
Theorem get_artist_albums_returns_whole_listing
    (fetch : nat -> outcome (option (page album))) (max_albums : Z)
    (front : list (page album)) (last : page album) (fuel : nat) :
  (forall i p, (front ++ [last]) !! i = Some p -> fetch i = Returns (Some p)) ->
  Forall (fun p => items p <> [] /\ next p = true) front ->
  items last = [] \/ next last = false ->
  (Z.of_nat (size (list_to_set (page_ids (front ++ [last])) : gset string)) < max_albums)%Z ->
  (length front < fuel)%nat ->
  exists l,
    get_artist_albums_albums_and_singles fetch max_albums fuel = Some (Returns l) /\
    NoDup (album_ids l) /\
    (list_to_set (album_ids l) : gset string) = list_to_set (page_ids (front ++ [last])) /\
    (forall x, x ∈ l -> exists p, p ∈ front ++ [last] /\ x ∈ items p).
Proof.
  intros Hfetch Hfront Hlast Hsize Hfuel.
  unfold get_artist_albums_albums_and_singles.
  assert (Hids : page_ids (front ++ [last]) = page_ids front ++ album_ids (items last)).
  { unfold page_ids. rewrite flat_map_app. simpl. rewrite app_nil_r. reflexivity. }
  rewrite Hids, list_to_set_app_L in Hsize. rewrite Hids, list_to_set_app_L.
  destruct (albums_loop_consume fetch max_albums front 0 [] ∅ (fuel - length front)
              albums_inv_init) as (all1 & Hrun & Hinv1 & Hlt1 & Hin1).
  { simpl. lia. }
  { intros i p Hp. apply Hfetch. apply lookup_app_l_Some. exact Hp. }
  { exact Hfront. }
  { rewrite union_empty_l_L.
    pose proof (subseteq_size (list_to_set (page_ids front) : gset string)
                  (list_to_set (page_ids front) ∪ list_to_set (album_ids (items last)))
                  ltac:(apply union_subseteq_l)). lia. }
  replace (length front + (fuel - length front))%nat with fuel in Hrun by lia.
  rewrite union_empty_l_L in Hrun, Hinv1. simpl in Hrun. rewrite Hrun.
  destruct (fuel - length front)%nat as [|fuel'] eqn:Efuel; [lia|].
  assert (Hf : fetch (length front) = Returns (Some last)).
  { apply Hfetch. rewrite lookup_app_r by lia. rewrite Nat.sub_diag. reflexivity. }
  rewrite (albums_loop_round _ _ _ _ _ _ _ Hf).
  assert (Hmem : forall x, x ∈ all1 -> exists p, p ∈ front ++ [last] /\ x ∈ items p).
  { intros x Hx. destruct (Hin1 x Hx) as [Hx'|(p & Hp & Hxp)]; [inversion Hx'|].
    exists p. split; [apply elem_of_app; left; exact Hp|exact Hxp]. }
  destruct (decide (items last = [])) as [Hnil|Hne].
  - exists all1. split; [reflexivity|]. split; [apply Hinv1|]. split; [|exact Hmem].
    rewrite Hnil. simpl. rewrite union_empty_r_L. destruct Hinv1 as [<- _]. reflexivity.
  - destruct Hlast as [Hnil|Hnonext]; [contradiction|].
    destruct (scan_albums_below_cap max_albums (items last) all1 _ Hinv1 Hlt1 Hsize)
      as (all2 & Hscan & Hinv2 & _ & (ext & Hext & Hsub)).
    rewrite Hscan, Hnonext. exists all2. split; [reflexivity|]. split; [apply Hinv2|].
    split; [destruct Hinv2 as [<- _]; reflexivity|].
    intros x Hx. subst all2. apply elem_of_app in Hx as [Hx|Hx]; [apply Hmem; exact Hx|].
    exists last. split; [apply elem_of_app; right; apply list_elem_of_here|apply Hsub; exact Hx].
Qed.

Definition short_listing (k : nat) : outcome (option (page album)) :=
  match k with
  | 0%nat => Returns (Some release_page_0)
  | _ => Returns (Some (Page [Album "r2" "Two"; Album "r3" "Three"] false))
  end.

Lemma get_artist_albums_returns_whole_listing_witness :
  exists l,
    get_artist_albums_albums_and_singles short_listing 300 2 = Some (Returns l) /\
    NoDup (album_ids l) /\
    (list_to_set (album_ids l) : gset string)
      = list_to_set (page_ids ([release_page_0]
                                 ++ [Page [Album "r2" "Two"; Album "r3" "Three"] false])) /\
    (forall x, x ∈ l ->
       exists p, p ∈ [release_page_0] ++ [Page [Album "r2" "Two"; Album "r3" "Three"] false]
                 /\ x ∈ items p).
Proof.
  apply (get_artist_albums_returns_whole_listing short_listing 300 [release_page_0]
           (Page [Album "r2" "Two"; Album "r3" "Three"] false) 2).
  - intros [|[|i]] p Hp; simpl in Hp; try discriminate; injection Hp as <-; reflexivity.
  - repeat constructor; discriminate.
  - right. reflexivity.
  - vm_compute. reflexivity.
  - simpl. lia.
Defined.

(** X9. An error ends the listing without a result: when the pages of
    [front] (non-empty, announcing a next page, fewer than [max_albums]
    different ids) were consumed and the next call of [spotify_get]
    raises [e], [get_artist_albums_albums_and_singles] raises [e]; the
    releases collected so far are not returned. *)
Theorem get_artist_albums_error_discards_pages
    (fetch : nat -> outcome (option (page album))) (max_albums : Z)
    (front : list (page album)) (e : exn) (fuel : nat) :
  (forall i p, front !! i = Some p -> fetch i = Returns (Some p)) ->
  Forall (fun p => items p <> [] /\ next p = true) front ->
  (Z.of_nat (size (list_to_set (page_ids front) : gset string)) < max_albums)%Z ->
  fetch (length front) = Raises e ->
  (length front < fuel)%nat ->
  get_artist_albums_albums_and_singles fetch max_albums fuel = Some (Raises e).
Proof.
  intros Hfetch Hfront Hsize Hraise Hfuel.
  unfold get_artist_albums_albums_and_singles.
  destruct (albums_loop_consume fetch max_albums front 0 [] ∅ (fuel - length front)
              albums_inv_init) as (all1 & Hrun & _).
  { simpl. lia. }
  { exact Hfetch. }
  { exact Hfront. }
  { rewrite union_empty_l_L. exact Hsize. }
  replace (length front + (fuel - length front))%nat with fuel in Hrun by lia.
  rewrite Hrun. simpl plus.
  destruct (fuel - length front)%nat as [|fuel'] eqn:Efuel; [lia|].
  simpl. rewrite Hraise. reflexivity.
Qed.

Definition failing_listing (k : nat) : outcome (option (page album)) :=
  match k with
  | 0%nat => Returns (Some release_page_0)
  | _ => Raises (HTTPError 502 None)
  end.

Lemma get_artist_albums_error_discards_pages_witness :
  get_artist_albums_albums_and_singles failing_listing 300 5
  = Some (Raises (HTTPError 502 None)).
Proof.
  apply (get_artist_albums_error_discards_pages failing_listing 300 [release_page_0]).
  - intros [|i] p Hp; simpl in Hp; try discriminate; injection Hp as <-; reflexivity.
  - repeat constructor; discriminate.
  - vm_compute. reflexivity.
  - reflexivity.
  - simpl. lia.
Defined.

(** X10. For a cap of at least one, whatever the pages are,
    [get_artist_albums_albums_and_singles] never returns more than
    [max_albums] releases. *)
Theorem get_artist_albums_never_exceeds_cap
    (fetch : nat -> outcome (option (page album))) (max_albums : Z)
    (fuel : nat) (l : list album) :
  (1 <= max_albums)%Z ->
  get_artist_albums_albums_and_singles fetch max_albums fuel = Some (Returns l) ->
  (Z.of_nat (length l) <= max_albums)%Z.
Proof.
  intros Hmax Hrun.
  eapply (albums_loop_bound fetch max_albums); [exact albums_inv_init| |exact Hrun].
  simpl. lia.
Qed.

Lemma get_artist_albums_never_exceeds_cap_witness :
  (Z.of_nat (length [Album "r1" "One"; Album "r2" "Two"; Album "r3" "Three"]) <= 3)%Z.
Proof.
  apply (get_artist_albums_never_exceeds_cap overlapping_releases 3 2).
  - lia.
  - vm_compute. reflexivity.
Defined.

(** ** Track listing: how it ends *)

Lemma tracks_loop_consume fetch front : forall call tracks fuel,
  (forall i p, front !! i = Some p -> fetch (call + i)%nat = Returns (Some p)) ->
  Forall (fun p => items p <> [] /\ next p = true) front ->
  tracks_loop fetch (length front + fuel) call tracks
  = tracks_loop fetch fuel (call + length front) (tracks ++ flat_map items front).
Proof.
  induction front as [|p0 front IH]; intros call tracks fuel Hfetch Hfront.
  - simpl. rewrite Nat.add_0_r, app_nil_r. reflexivity.
  - apply Forall_cons in Hfront as [[Hne Hnext] Hfront].
    pose proof (Hfetch 0%nat p0 eq_refl) as Hf. rewrite Nat.add_0_r in Hf.
    simpl. rewrite Hf, Hnext. destruct (items p0) as [|t0 ts] eqn:Eits; [contradiction|].
    rewrite IH; [|intros i p Hp; replace (S call + i)%nat with (call + S i)%nat by lia;
                   apply Hfetch; exact Hp|exact Hfront].
    rewrite <- app_assoc.
    replace (S call + length front)%nat with (call + S (length front))%nat by lia.
    reflexivity.
Qed.

(** X11. [get_all_album_tracks] consumes the pages that are not empty
    and announce a next page; the call after them decides. An exception
    of [spotify_get] is raised and the tracks read so far are lost; a
    page that is empty or without next page ends the listing, which is
    then the tracks of all pages in the order served. *)
Theorem get_all_album_tracks_ends
    (fetch : nat -> outcome (option (page track)))
    (front : list (page track)) (fuel : nat) :
  (forall i p, front !! i = Some p -> fetch i = Returns (Some p)) ->
  Forall (fun p => items p <> [] /\ next p = true) front ->
  (forall p, fetch (length front) = Returns (Some p) -> items p = [] \/ next p = false) ->
  (length front < fuel)%nat ->
  get_all_album_tracks fetch fuel =
  match fetch (length front) with
  | Raises e => Some (Raises e)
  | Returns None => Some (Raises AttributeError)
  | Returns (Some last) => Some (Returns (flat_map items front ++ items last))
  end.
Proof.
  intros Hfetch Hfront Hlast Hfuel. unfold get_all_album_tracks.
  replace fuel with (length front + S (fuel - length front - 1))%nat by lia.
  rewrite (tracks_loop_consume fetch front 0 [] _ Hfetch Hfront).
  simpl. destruct (fetch (length front)) as [[last|]|e]; try reflexivity.
  destruct (Hlast last eq_refl) as [Hnil|Hnonext].
  - rewrite Hnil, app_nil_r. reflexivity.
  - rewrite Hnonext. destruct (items last); [rewrite app_nil_r|]; reflexivity.
Qed.

Lemma get_all_album_tracks_ends_witness :
  get_all_album_tracks repeating_tracks 2 =
  match repeating_tracks (length [Page [same_track] true]) with
  | Raises e => Some (Raises e)
  | Returns None => Some (Raises AttributeError)
  | Returns (Some last) =>
      Some (Returns (flat_map items [Page [same_track] true] ++ items last))
  end.
Proof.
  apply (get_all_album_tracks_ends repeating_tracks [Page [same_track] true] 2).
  - intros [|i] p Hp; simpl in Hp; try discriminate; injection Hp as <-; reflexivity.
  - repeat constructor; discriminate.
  - intros p Hp. simpl in Hp. injection Hp as <-. right. reflexivity.
  - simpl. lia.
Defined.

(** ** Ego mode: who is a collaborator *)

Lemma elem_of_credited_ids x artists :
  x ∈ credited_ids artists <-> x <> "" /\ exists name, Artist (Some x) name ∈ artists.
Proof.
  unfold credited_ids. rewrite elem_of_list_to_set, list_elem_of_omap. split.
  - intros ([[aid|] aname] & Hin & Hsome); simpl in Hsome; [|discriminate].
    destruct (String.eqb_spec aid ""); simpl in Hsome; [discriminate|].
    injection Hsome as <-. split; [assumption|]. exists aname. exact Hin.
  - intros (Hne & name & Hin). exists (Artist (Some x) name). split; [exact Hin|].
    simpl. destruct (String.eqb_spec x ""); [contradiction|reflexivity].
Qed.

Lemma add_collaborators_intro primary_artist_id artists cid cname :
  cid <> "" -> cid <> primary_artist_id ->
  forall acc,
    (cid, cname) ∈ acc \/ Artist (Some cid) cname ∈ artists ->
    (cid, cname) ∈ add_collaborators primary_artist_id acc artists.
Proof.
  intros Hne Hnp. unfold add_collaborators.
  induction artists as [|a artists IH]; intros acc [Hacc|Hin]; simpl.
  - exact Hacc.
  - inversion Hin.
  - apply IH. left. destruct (a_id a) as [aid|]; [|exact Hacc].
    destruct (negb _ || _); [exact Hacc|]. apply elem_of_union. right. exact Hacc.
  - apply elem_of_cons in Hin as [<-|Hin]; [|apply IH; right; exact Hin].
    apply IH. left. simpl.
    destruct (String.eqb_spec cid ""); [contradiction|].
    destruct (String.eqb_spec cid primary_artist_id); [contradiction|]. simpl.
    apply elem_of_union. left. apply elem_of_singleton. reflexivity.
Qed.

(** X12. [extract_collaborators_from_tracks] returns exactly the credits
    that share a track with the primary artist: the pair
    [(cid, cname)] is returned if and only if [cid] is not empty and not
    the primary artist's id, the primary artist's id is not empty, and
    some track credits both the primary artist and an artist with id
    [cid] and name [cname]. *)
Theorem extract_collaborators_from_tracks_iff
    (tracks : list track) (primary_artist_id cid cname : string) :
  (cid, cname) ∈ extract_collaborators_from_tracks tracks primary_artist_id <->
  cid <> "" /\ cid <> primary_artist_id /\ primary_artist_id <> "" /\
  exists t pname,
    t ∈ tracks /\
    Artist (Some primary_artist_id) pname ∈ t_artists t /\
    Artist (Some cid) cname ∈ t_artists t.
Proof.
  split.
  - intros Hc. destruct (extract_elem _ _ _ Hc) as (H1 & H2 & t & Ht & Hcredit & Hprim).
    apply elem_of_credited_ids in Hprim as (Hpne & pname & Hp). simpl in *.
    repeat split; try assumption. exists t, pname. repeat split; assumption.
  - intros (Hne & Hnp & Hpne & t & pname & Ht & Hp & Hcredit).
    rewrite extract_union_list. apply elem_of_union_list.
    exists (contribution primary_artist_id t). split.
    + apply list_elem_of_fmap. exists t. split; [reflexivity|exact Ht].
    + unfold contribution.
      destruct (decide (primary_artist_id ∈ credited_ids (t_artists t))) as [_|Hn].
      * apply add_collaborators_intro; [assumption..|right; exact Hcredit].
      * exfalso. apply Hn. apply elem_of_credited_ids. split; [exact Hpne|]. eauto.
Qed.

(** ** Ego mode: the rows of one artist *)

#[global] Instance by_lower_name_total lower : Total (by_lower_name lower).
Proof. intros x y. unfold by_lower_name. apply String.leb_total. Qed.

(** X13. When the harvest of an artist succeeds,
    [get_collaborators_for_artist_id] returns one row for each
    collaborator extracted from the tracks of all releases, no
    collaborator twice, the rows in the order of the lower-cased
    collaborator names. *)
Theorem get_collaborators_rows_sorted_unique
    (lower : string -> string) (fuel : nat) (srv : api)
    (artist_name artist_id : string) (rows : list row) :
  get_collaborators_for_artist_id lower fuel srv artist_name artist_id
    = Some (Returns rows) ->
  exists albums all_tracks cs,
    get_artist_albums_albums_and_singles (albums_pages srv) MAX_ALBUMS_PER_ARTIST fuel
      = Some (Returns albums) /\
    collect_tracks fuel srv albums [] = Some (Returns all_tracks) /\
    rows = map (collab_row artist_name artist_id) cs /\
    Sorted (by_lower_name lower) cs /\
    NoDup cs /\
    (forall c, c ∈ cs <-> c ∈ extract_collaborators_from_tracks all_tracks artist_id).
Proof.
  unfold get_collaborators_for_artist_id.
  destruct (get_artist_albums_albums_and_singles _ _ _) as [[albums|e]|] eqn:Ealbums;
    try discriminate.
  destruct (collect_tracks _ _ _ _) as [[tracks|e]|] eqn:Etracks; try discriminate.
  intros [= <-]. exists albums, tracks.
  exists (merge_sort (by_lower_name lower)
            (elements (extract_collaborators_from_tracks tracks artist_id))).
  split; [reflexivity|]. split; [exact Etracks|]. split; [reflexivity|].
  split; [apply Sorted_merge_sort; apply _|]. split.
  - rewrite merge_sort_Permutation. apply NoDup_elements.
  - intros c. rewrite merge_sort_Permutation. apply elem_of_elements.
Qed.

(** A release whose track credits [p] with [D], [c] and [B]. *)
Definition three_credits : api :=
  Api (fun _ => Returns (Some (Page [Album "r1" "One"] false)))
      (fun _ _ => Returns (Some (Page
         [Track (Some "t1") "X"
            [Artist (Some "d") "Dee"; Artist (Some "p") "P";
             Artist (Some "c") "cee"; Artist (Some "b") "Bee"]] false))).

Example three_credits_rows :
  get_collaborators_for_artist_id ascii_lower 2 three_credits "P" "p"
  = Some (Returns [collab_row "P" "p" ("b", "Bee"); collab_row "P" "p" ("c", "cee");
                   collab_row "P" "p" ("d", "Dee")]).
Proof. vm_compute. reflexivity. Qed.

Lemma get_collaborators_rows_sorted_unique_witness :
  exists albums all_tracks cs,
    get_artist_albums_albums_and_singles (albums_pages three_credits) MAX_ALBUMS_PER_ARTIST 2
      = Some (Returns albums) /\
    collect_tracks 2 three_credits albums [] = Some (Returns all_tracks) /\
    [collab_row "P" "p" ("b", "Bee"); collab_row "P" "p" ("c", "cee");
     collab_row "P" "p" ("d", "Dee")] = map (collab_row "P" "p") cs /\
    Sorted (by_lower_name ascii_lower) cs /\
    NoDup cs /\
    (forall c, c ∈ cs <-> c ∈ extract_collaborators_from_tracks all_tracks "p").
Proof.
  apply (get_collaborators_rows_sorted_unique ascii_lower 2 three_credits "P" "p").
  vm_compute. reflexivity.
Defined.

(** ** Restricted mode: what the keys and the evidence are *)

Section EvidenceInvariant.
Variable artist_ids : gset string.

Local Abbreviation evidence := (gmap (string * string) (list string)).

(** A property of the entries that appending a name to a visited pair
    keeps is kept by the loops over the pairs. *)
Lemma append_all_preserves (Q : string * string -> list string -> Prop) name ps :
  (forall k ev, k ∈ ps -> ev = [] \/ Q k ev -> Q k (ev ++ [name])) ->
  forall m : evidence, map_Forall Q m -> map_Forall Q (foldl (append_evidence name) m ps).
Proof.
  induction ps as [|k0 ps IH]; intros Hstep m Hm; simpl; [exact Hm|].
  apply IH.
  - intros k ev Hk. apply Hstep. right. exact Hk.
  - unfold append_evidence. apply map_Forall_insert_2; [|exact Hm].
    apply Hstep; [left|]. destruct (m !! k0) as [ev|] eqn:E; simpl.
    + right. apply (Hm _ _ E).
    + left. reflexivity.
Qed.

(** What holds of every entry: two artists of the roster under the key,
    a list that is not empty, each name the name of a track with an id
    that credits both. *)
Definition sound_entry (all_tracks : list track) (k : string * string)
    (ev : list string) : Prop :=
  k.1 ∈ artist_ids /\ k.2 ∈ artist_ids /\ ev <> [] /\
  forall n, n ∈ ev ->
    exists t, t ∈ all_tracks /\ t_id t <> None /\ t_name t = n /\
      Some k.1 ∈ map a_id (t_artists t) /\ Some k.2 ∈ map a_id (t_artists t).

Lemma analyse_all_sound all_tracks ts : forall st,
  (forall t, t ∈ ts -> t ∈ all_tracks) ->
  map_Forall (sound_entry all_tracks) st.1 ->
  map_Forall (sound_entry all_tracks) (foldl (analyse_track artist_ids) st ts).1.
Proof.
  induction ts as [|t ts IH]; intros st Hsub Hst; [exact Hst|].
  simpl. apply IH; [intros t' Ht'; apply Hsub; right; exact Ht'|].
  destruct (t_id t) as [track_id|] eqn:Hid.
  - destruct (decide (track_id ∈ st.2)) as [Hseen|Hnew].
    + rewrite analyse_track_skip by (right; eauto). exact Hst.
    + rewrite (analyse_track_fresh _ _ _ _ Hid Hnew). simpl.
      apply append_all_preserves; [|exact Hst].
      intros k ev Hk Hev. destruct (pairs_members _ _ Hk) as (H1 & H2 & _).
      apply elem_of_collaborating in H1 as [H1c H1u].
      apply elem_of_collaborating in H2 as [H2c H2u].
      split; [exact H1u|]. split; [exact H2u|]. split.
      * intros Hnil. apply app_eq_nil in Hnil as [_ Hnil]. discriminate.
      * intros n Hn. apply elem_of_app in Hn as [Hn|Hn].
        { destruct Hev as [->|(_ & _ & _ & Hold)]; [inversion Hn|]. apply Hold. exact Hn. }
        { apply list_elem_of_singleton in Hn. subst n. exists t.
          split; [apply Hsub; left|]. split; [congruence|]. repeat split; assumption. }
  - rewrite analyse_track_skip by (left; exact Hid). exact Hst.
Qed.
End EvidenceInvariant.

(** X14. [find_collaborations] only relates artists of the roster and
    only on evidence: under every key of the result, the two ids are in
    [artist_ids] and in sorted order, the list of track names is not
    empty, and each of its names is the name of a track of [all_tracks]
    that has an id and credits both artists. *)
Theorem find_collaborations_entries_sound
    (all_tracks : list track) (artist_ids : gset string)
    (artist1 artist2 : string) (tracks : list string) :
  find_collaborations all_tracks artist_ids !! (artist1, artist2) = Some tracks ->
  artist1 ∈ artist_ids /\ artist2 ∈ artist_ids /\
  String.leb artist1 artist2 = true /\
  tracks <> [] /\
  forall n, n ∈ tracks ->
    exists t, t ∈ all_tracks /\ t_id t <> None /\ t_name t = n /\
      Some artist1 ∈ map a_id (t_artists t) /\ Some artist2 ∈ map a_id (t_artists t).
Proof.
  intros Hlook. unfold find_collaborations in Hlook.
  pose proof (analyse_all_sound artist_ids all_tracks all_tracks (∅, ∅)
                ltac:(tauto) ltac:(apply map_Forall_empty) _ _ Hlook)
    as (H1 & H2 & H3 & H4).
  assert (Hcan0 : map_Forall (fun (k : string * string) (_ : list string) => canonical k)
                    (∅ : gmap (string * string) (list string))) by apply map_Forall_empty.
  destruct (analyse_all_inv artist_ids all_tracks (∅, ∅) Hcan0) as (Hcan & _).
  split; [exact H1|]. split; [exact H2|]. split; [apply (Hcan _ _ Hlook)|].
  split; [exact H3|exact H4].
Qed.

Lemma find_collaborations_entries_sound_witness :
  "a" ∈ ({["a"; "b"]} : gset string) /\ "b" ∈ ({["a"; "b"]} : gset string) /\
  String.leb "a" "b" = true /\
  ["Duet"] <> [] /\
  forall n, n ∈ ["Duet"] ->
    exists t, t ∈ [solo; duet; duet] /\ t_id t <> None /\ t_name t = n /\
      Some "a" ∈ map a_id (t_artists t) /\ Some "b" ∈ map a_id (t_artists t).
Proof.
  apply (find_collaborations_entries_sound [solo; duet; duet] {["a"; "b"]} "a" "b").
  vm_compute. reflexivity.
Defined.

Lemma pairs_length l : (2 * length (pairs l) = length l * (length l - 1))%nat.
Proof.
  induction l as [|a l IH]; [reflexivity|].
  simpl pairs. rewrite length_app, length_map. simpl length. nia.
Qed.

(** The roster artists a track credits, read from the track itself. *)
Definition roster_credits (artist_ids : gset string) (t : track) : gset string :=
  artist_ids ∩ list_to_set (omap a_id (t_artists t)).

Lemma collaborating_filter (artist_ids : gset string) (t : track) :
  collaborating artist_ids t = filter (fun aid => aid ∈ artist_ids) (omap a_id (t_artists t)).
Proof.
  unfold collaborating. induction (t_artists t) as [|a l IH]; [reflexivity|].
  simpl. destruct (a_id a) as [aid|]; [|exact IH].
  rewrite filter_cons.
  destruct (decide (aid ∈ artist_ids)); [f_equal|]; exact IH.
Qed.

Lemma elem_of_roster_credits (artist_ids : gset string) (t : track) a :
  a ∈ roster_credits artist_ids t <-> a ∈ artist_ids /\ Some a ∈ map a_id (t_artists t).
Proof.
  unfold roster_credits. rewrite elem_of_intersection, elem_of_list_to_set, list_elem_of_omap.
  split.
  - intros [HU (x & Hx & Hid)]. split; [exact HU|].
    apply list_elem_of_fmap. exists x. split; [congruence|exact Hx].
  - intros [HU Hin]. split; [exact HU|].
    apply list_elem_of_fmap in Hin as (x & Hid & Hx). exists x. split; [exact Hx|congruence].
Qed.

(** X15. One track, taken alone, yields one entry for each unordered
    pair of the roster artists it credits: when the track has an id and
    credits no artist of the roster twice, and [n] is the number of
    artists of the roster among its credits, the result has
    [n (n - 1) / 2] keys, each with the name of the track once, and the
    sorted pair of any two different credited artists of the roster is
    one of them; three such artists give three edges, one or none gives
    no edge. *)
Theorem find_collaborations_one_track
    (t : track) (artist_ids : gset string) (track_id : string) :
  t_id t = Some track_id ->
  NoDup (filter (fun aid => aid ∈ artist_ids) (omap a_id (t_artists t))) ->
  let n := size (roster_credits artist_ids t) in
  let collaborations := find_collaborations [t] artist_ids in
  (2 * size collaborations = n * (n - 1))%nat /\
  (forall k tracks, collaborations !! k = Some tracks -> tracks = [t_name t]) /\
  (forall a b, a <> b ->
     a ∈ artist_ids -> Some a ∈ map a_id (t_artists t) ->
     b ∈ artist_ids -> Some b ∈ map a_id (t_artists t) ->
     collaborations !! sorted_pair a b = Some [t_name t]).
Proof.
  intros Hid Hnd n collaborations.
  rewrite <- collaborating_filter in Hnd.
  assert (Hn : n = length (collaborating artist_ids t)).
  { unfold n. rewrite <- (size_list_to_set (C := gset string) _ Hnd). f_equal.
    apply set_eq. intros a.
    rewrite elem_of_roster_credits, elem_of_list_to_set, elem_of_collaborating. tauto. }
  assert (Hlook : forall k, collaborations !! k =
            if decide (k ∈ pairs (collaborating artist_ids t)) then Some [t_name t] else None).
  { intros k. unfold collaborations, find_collaborations. simpl.
    rewrite (analyse_track_fresh _ _ _ track_id Hid) by set_solver. simpl.
    rewrite append_all_lookup by (apply pairs_NoDup; exact Hnd).
    rewrite lookup_empty. reflexivity. }
  split; [|split].
  - rewrite Hn, <- pairs_length. f_equal.
    rewrite <- (size_list_to_set (C := gset (string * string))
                  (pairs (collaborating artist_ids t))) by (apply pairs_NoDup; exact Hnd).
    rewrite <- size_dom. f_equal. apply set_eq. intros k.
    rewrite elem_of_dom, elem_of_list_to_set, Hlook.
    destruct (decide (k ∈ pairs (collaborating artist_ids t))) as [Hin|Hout].
    + split; [intros _; exact Hin|eauto].
    + split; [intros [? ?]; discriminate|contradiction].
  - intros k tracks Hk. rewrite Hlook in Hk. destruct (decide _); congruence.
  - intros a b Hab HaU Ha HbU Hb. rewrite Hlook.
    destruct (decide _) as [_|Hout]; [reflexivity|].
    exfalso. apply Hout. apply pairs_meet; [exact Hab| |];
      apply elem_of_collaborating; split; assumption.
Qed.

Definition trio : track :=
  Track (Some "t3") "Trio" [Artist (Some "c") "C"; Artist (Some "a") "A";
                            Artist (Some "x") "X"; Artist (Some "b") "B"].

Example trio_collaborations :
  find_collaborations [trio] {["a"; "b"; "c"]}
  = {[ ("a", "b") := ["Trio"]; ("a", "c") := ["Trio"]; ("b", "c") := ["Trio"] ]}.
Proof. vm_compute. reflexivity. Qed.

Example trio_roster_credits : size (roster_credits {["a"; "b"; "c"]} trio) = 3%nat.
Proof. vm_compute. reflexivity. Qed.

Lemma find_collaborations_one_track_witness :
  let n := size (roster_credits {["a"; "b"; "c"]} trio) in
  let collaborations := find_collaborations [trio] {["a"; "b"; "c"]} in
  (2 * size collaborations = n * (n - 1))%nat /\
  (forall k tracks, collaborations !! k = Some tracks -> tracks = [t_name trio]) /\
  (forall a b, a <> b ->
     a ∈ ({["a"; "b"; "c"]} : gset string) -> Some a ∈ map a_id (t_artists trio) ->
     b ∈ ({["a"; "b"; "c"]} : gset string) -> Some b ∈ map a_id (t_artists trio) ->
     collaborations !! sorted_pair a b = Some [t_name trio]).
Proof.
  apply (find_collaborations_one_track trio {["a"; "b"; "c"]} "t3").
  - reflexivity.
  - vm_compute. repeat (apply NoDup_cons; split; [set_solver|]). apply NoDup_nil_2.
Defined.

(** ** Restricted mode: the roster and the detail table *)

Lemma id_to_name_fold artists i : forall m : gmap string string,
  is_Some (foldl (fun m (a : string * string) => <[a.2 := a.1]> m) m artists !! i)
  <-> is_Some (m !! i) \/ i ∈ artists.*2.
Proof.
  induction artists as [|a artists IH]; intros m; simpl.
  - split; [tauto|]. intros [H|H]; [exact H|inversion H].
  - rewrite IH, elem_of_cons. destruct (decide (a.2 = i)) as [<-|Hne].
    + rewrite lookup_insert_eq. split; [intros _; right; left; reflexivity|eauto].
    + rewrite lookup_insert_ne by exact Hne.
      split; [tauto|]. intros [H|[H|H]]; [tauto|congruence|tauto].
Qed.

Lemma id_to_name_is_Some artists i :
  is_Some (id_to_name artists !! i) <-> i ∈ artists.*2.
Proof.
  unfold id_to_name. rewrite id_to_name_fold, lookup_empty.
  split; [intros [[? H]|H]; [discriminate|exact H]|tauto].
Qed.

(** The loop over the sorted items writes one row per item, or stops
    at an id the table of names does not hold. *)
Lemma detail_rows_outcome names its :
  match detail_rows names its with
  | Returns rows =>
      length rows = length its /\
      forall it, it ∈ its -> is_Some (names !! it.1.1) /\ is_Some (names !! it.1.2)
  | Raises e =>
      exists i it, e = KeyError i /\ names !! i = None /\ it ∈ its /\
        (i = it.1.1 \/ i = it.1.2)
  end.
Proof.
  induction its as [|[[a1 a2] tracks] its IH]; simpl.
  - split; [reflexivity|]. intros it Hit. inversion Hit.
  - destruct (names !! a1) as [n1|] eqn:H1.
    + destruct (names !! a2) as [n2|] eqn:H2.
      * destruct (detail_rows names its) as [rows|e].
        { destruct IH as [Hlen Hall]. split; [simpl; congruence|].
          intros it Hit. apply elem_of_cons in Hit as [->|Hit]; [simpl; eauto|].
          apply Hall. exact Hit. }
        { destruct IH as (i & it & He & Hi & Hit & Hor).
          exists i, it. repeat split; try assumption. right. exact Hit. }
      * exists a2, ((a1, a2), tracks). repeat split; try assumption; [left|right]; reflexivity.
    + exists a1, ((a1, a2), tracks). repeat split; try assumption; left; reflexivity.
Qed.

Lemma save_collaboration_details_cases
    (collaborations : gmap (string * string) (list string))
    (artists : list (string * string)) :
  match save_collaboration_details collaborations artists with
  | Returns rows =>
      length rows = size collaborations /\
      forall artist1_id artist2_id tracks,
        collaborations !! (artist1_id, artist2_id) = Some tracks ->
        artist1_id ∈ artists.*2 /\ artist2_id ∈ artists.*2
  | Raises e =>
      exists i artist1_id artist2_id tracks,
        e = KeyError i /\ i ∉ artists.*2 /\
        collaborations !! (artist1_id, artist2_id) = Some tracks /\
        (i = artist1_id \/ i = artist2_id)
  end.
Proof.
  unfold save_collaboration_details.
  pose proof (detail_rows_outcome (id_to_name artists)
                (merge_sort item_le (map_to_list collaborations))) as H.
  pose proof (merge_sort_Permutation item_le (map_to_list collaborations)) as Hperm.
  destruct (detail_rows _ _) as [rows|e].
  - destruct H as [Hlen Hall]. split.
    + rewrite Hlen, Hperm, length_map_to_list. reflexivity.
    + intros a1 a2 tracks Hk.
      destruct (Hall ((a1, a2), tracks)) as [H1 H2].
      { rewrite Hperm. apply elem_of_map_to_list. exact Hk. }
      simpl in H1, H2. split; apply id_to_name_is_Some; assumption.
  - destruct H as (i & [[a1 a2] tracks] & He & Hi & Hit & Hor).
    exists i, a1, a2, tracks. split; [exact He|]. split.
    + intros Hin. apply id_to_name_is_Some in Hin. rewrite Hi in Hin.
      destruct Hin; discriminate.
    + split; [|exact Hor]. rewrite Hperm in Hit.
      apply elem_of_map_to_list in Hit. exact Hit.
Qed.

(** X16. [save_collaboration_details] either writes one data row for
    each key of [collaborations], and then both ids of every key are
    ids of [artists]; or it stops with the [KeyError] of an id that
    occurs in a key and is the id of no artist of [artists]. *)
Theorem save_collaboration_details_rows_or_KeyError
    (collaborations : gmap (string * string) (list string))
    (artists : list (string * string)) :
  match save_collaboration_details collaborations artists with
  | Returns rows =>
      length rows = size collaborations /\
      forall artist1_id artist2_id tracks,
        collaborations !! (artist1_id, artist2_id) = Some tracks ->
        artist1_id ∈ artists.*2 /\ artist2_id ∈ artists.*2
  | Raises e =>
      exists i artist1_id artist2_id tracks,
        e = KeyError i /\ i ∉ artists.*2 /\
        collaborations !! (artist1_id, artist2_id) = Some tracks /\
        (i = artist1_id \/ i = artist2_id)
  end.
Proof. apply save_collaboration_details_cases. Qed.

Example save_collaboration_details_unknown_artist :
  save_collaboration_details {[ ("a", "b") := ["Duet"] ]} [("A", "a")]
  = Raises (KeyError "b").
Proof. vm_compute. reflexivity. Qed.

Section Roster.

Local Abbreviation read_artist f :=
  (fun line : list string =>
     match dict_reader_get "name" (header f) line,
           dict_reader_get "id" (header f) line with
     | Some name, Some artist_id =>
         if truthy (Some name) && truthy (Some artist_id)
         then Some (name, artist_id) else None
     | _, _ => None
     end).

Lemma load_artists_fold f ls : forall st : list (string * string) * gset string,
  foldl (fun (st : list (string * string) * gset string) line =>
           match dict_reader_get "name" (header f) line,
                 dict_reader_get "id" (header f) line with
           | Some name, Some artist_id =>
               if truthy (Some name) && truthy (Some artist_id)
               then (st.1 ++ [(name, artist_id)], {[artist_id]} ∪ st.2)
               else st
           | _, _ => st
           end) st ls
  = (st.1 ++ omap (read_artist f) ls,
     list_to_set (omap (read_artist f) ls).*2 ∪ st.2).
Proof.
  induction ls as [|line ls IH]; intros [artists ids]; simpl.
  - rewrite app_nil_r. f_equal. set_solver.
  - rewrite IH.
    destruct (dict_reader_get "name" (header f) line) as [name|]; [|reflexivity].
    destruct (dict_reader_get "id" (header f) line) as [artist_id|]; [|reflexivity].
    destruct (_ && _); [|reflexivity].
    simpl. rewrite <- app_assoc. f_equal. set_solver.
Qed.

Lemma load_artists_from_csv_spec f :
  load_artists_from_csv f
  = (load_artists_from_input f, list_to_set (load_artists_from_input f).*2).
Proof.
  unfold load_artists_from_csv, load_artists_from_input.
  rewrite load_artists_fold. simpl. f_equal. set_solver.
Qed.

Lemma truthy_Some s : truthy (Some s) = true <-> s <> "".
Proof.
  simpl. destruct (String.eqb_spec s ""); simpl; split; congruence.
Qed.

Lemma load_artists_from_input_filled f name artist_id :
  (name, artist_id) ∈ load_artists_from_input f -> name <> "" /\ artist_id <> "".
Proof.
  unfold load_artists_from_input. intros Hin.
  apply list_elem_of_omap in Hin as (line & _ & Hline).
  destruct (dict_reader_get "name" (header f) line) as [n|]; [|discriminate].
  destruct (dict_reader_get "id" (header f) line) as [i|]; [|discriminate].
  destruct (truthy (Some n) && truthy (Some i)) eqn:Hb; [|discriminate].
  injection Hline as -> ->. apply andb_true_iff in Hb as [Hn Hi].
  split; apply truthy_Some; assumption.
Qed.
End Roster.


(** X18. The detail table of the restricted pipeline is always written
    in full: with the roster [load_artists_from_csv] reads from a file,
    whatever the tracks, [save_collaboration_details] applied to the
    result of [find_collaborations] raises no [KeyError] and writes one
    row for each pair of collaborating artists. *)
Theorem restricted_pipeline_details_complete (f : csv_file) (all_tracks : list track) :
  let artists := (load_artists_from_csv f).1 in
  let artist_ids := (load_artists_from_csv f).2 in
  let collaborations := find_collaborations all_tracks artist_ids in
  exists rows,
    save_collaboration_details collaborations artists = Returns rows /\
    length rows = size collaborations.
Proof.
  intros artists artist_ids collaborations.
  pose proof (save_collaboration_details_cases collaborations artists) as H.
  destruct (save_collaboration_details collaborations artists) as [rows|e].
  - exists rows. split; [reflexivity|apply H].
  - exfalso. destruct H as (i & a1 & a2 & tracks & _ & Hout & Hk & Hor).
    apply Hout. unfold collaborations, find_collaborations in Hk.
    pose proof (analyse_all_sound artist_ids all_tracks all_tracks (∅, ∅)
                  ltac:(tauto) ltac:(apply map_Forall_empty) _ _ Hk)
      as (H1 & H2 & _).
    simpl in H1, H2. unfold artists, artist_ids in *.
    rewrite load_artists_from_csv_spec in *. simpl in *.
    rewrite elem_of_list_to_set in H1, H2.
    destruct Hor as [->| ->]; assumption.
Qed.

Example restricted_pipeline_on_roster :
  (load_artists_from_csv roster_csv).1 = load_artists_from_input roster_csv /\
  load_artists_from_input roster_csv <> [].
Proof. vm_compute. split; [reflexivity|discriminate]. Qed.

(** ** Ego mode: the checkpoint file and the run of the roster *)

Lemma append_collaborators_lines name artist_id cs d :
  csv_lines (append_collaborators_to_csv (map (collab_row name artist_id) cs) d)
  = csv_lines d ++ map (written_line name artist_id) cs.
Proof.
  destruct cs as [|c cs]; simpl; [rewrite app_nil_r; reflexivity|].
  assert (Hw : map (fun r : row =>
                 map (fun k => default "" (dict_get k r))
                   ["primary_artist"; "primary_artist_id"; "collaborator_id";
                    "collaborator_name"])
                 (map (collab_row name artist_id) cs)
               = map (written_line name artist_id) cs).
  { rewrite map_map. apply map_ext. intros c'. reflexivity. }
  destruct d as [f|]; simpl.
  - f_equal. unfold written_line at 1. f_equal. exact Hw.
  - unfold written_line at 1. f_equal. exact Hw.
Qed.

(** X19. A harvest that found a collaborator is checkpointed: after
    [append_collaborators_to_csv] wrote the rows of an artist with a
    non-empty id to a file that is absent or has the header of the
    pipeline, [load_already_processed_artists] reads from the file the
    ids it read before and the id of that artist, and nothing else. *)
Theorem written_harvest_is_checkpointed
    (name artist_id : string) (cs : list (string * string)) (output_csv : option csv_file) :
  pipeline_file output_csv ->
  cs <> [] ->
  artist_id <> "" ->
  load_already_processed_artists
    (append_collaborators_to_csv (map (collab_row name artist_id) cs) output_csv)
  = {[artist_id]} ∪ load_already_processed_artists output_csv.
Proof.
  intros Hwf Hcs Hid.
  destruct (append_collaborators_spec name artist_id cs output_csv Hwf) as [Hwf' Hlines].
  apply set_eq. intros x.
  rewrite elem_of_union, elem_of_singleton.
  rewrite (load_already_processed_spec _ x Hwf'), (load_already_processed_spec _ x Hwf).
  rewrite Hlines. split.
  - intros (Hne & line & Hin & Hprim). apply elem_of_app in Hin as [Hin|Hin].
    + right. split; [exact Hne|]. exists line. split; assumption.
    + left. apply list_elem_of_fmap in Hin as (c & -> & _).
      rewrite primary_of_written in Hprim. congruence.
  - intros [->|(Hne & line & Hin & Hprim)].
    + split; [exact Hid|]. destruct cs as [|c cs]; [contradiction|].
      exists (written_line name artist_id c). split; [|apply primary_of_written].
      apply elem_of_app. right. left.
    + split; [exact Hne|]. exists line. split; [|exact Hprim].
      apply elem_of_app. left. exact Hin.
Qed.

Lemma written_harvest_is_checkpointed_witness :
  load_already_processed_artists
    (append_collaborators_to_csv (map (collab_row "Q" "q") [("c", "C"); ("d", "D")])
       (Some (CsvFile FIELDNAMES [["P"; "p"; "c"; "C"]])))
  = {["q"]} ∪ load_already_processed_artists (Some (CsvFile FIELDNAMES [["P"; "p"; "c"; "C"]])).
Proof.
  apply (written_harvest_is_checkpointed "Q" "q" [("c", "C"); ("d", "D")]
           (Some (CsvFile FIELDNAMES [["P"; "p"; "c"; "C"]]))).
  - reflexivity.
  - discriminate.
  - discriminate.
Defined.

Section DriverRuns.
Variable lower : string -> string.
Variable fuel : nat.
Variable world : nat -> api.

Lemma main_loop_all_processed artists : forall idx P d log,
  (forall name artist_id, (name, artist_id) ∈ artists -> artist_id ∈ P) ->
  main_loop lower fuel world artists idx P d log = RunResult d log P Completed.
Proof.
  induction artists as [|[name0 id0] rest IH]; intros idx P d log Hall; simpl; [reflexivity|].
  destruct (decide (id0 ∈ P)) as [_|Hout].
  - apply IH. intros name artist_id Hin. apply (Hall name). right. exact Hin.
  - exfalso. apply Hout. apply (Hall name0). left.
Qed.

(** The harvest of every artist of the roster returns rows or raises an
    error the driver catches. *)
Definition harvests_end (artists : list (string * string)) (idx : nat) : Prop :=
  forall i name artist_id,
    artists !! i = Some (name, artist_id) ->
    match get_collaborators_for_artist_id lower fuel (world (idx + i)) name artist_id with
    | Some (Returns _) => True
    | Some (Raises e) => is_Exception e = true
    | None => False
    end.

Lemma harvests_end_tail a artists idx :
  harvests_end (a :: artists) idx -> harvests_end artists (S idx).
Proof.
  intros H i name artist_id Hi.
  replace (S idx + i)%nat with (idx + S i)%nat by lia. apply (H (S i)). exact Hi.
Qed.

Lemma main_loop_completes artists : forall idx P d log,
  harvests_end artists idx ->
  ending (main_loop lower fuel world artists idx P d log) = Completed.
Proof.
  induction artists as [|[name0 id0] rest IH]; intros idx P d log Hends; simpl; [reflexivity|].
  pose proof (Hends 0%nat name0 id0 eq_refl) as H0. rewrite Nat.add_0_r in H0.
  pose proof (harvests_end_tail _ _ _ Hends) as Htail.
  destruct (decide (id0 ∈ P)); [apply IH; exact Htail|].
  destruct (get_collaborators_for_artist_id lower fuel (world idx) name0 id0)
    as [[collabs|e]|]; [apply IH; exact Htail| |contradiction].
  rewrite H0. apply IH. exact Htail.
Qed.

Lemma main_loop_log_grows artists : forall idx P d log,
  exists lognew, harvested (main_loop lower fuel world artists idx P d log) = log ++ lognew.
Proof.
  induction artists as [|[name0 id0] rest IH]; intros idx P d log; simpl.
  - exists []. rewrite app_nil_r. reflexivity.
  - assert (Hstep : forall P' d',
              exists lognew,
                harvested (main_loop lower fuel world rest (S idx) P' d' (log ++ [idx]))
                = log ++ lognew).
    { intros P' d'. destruct (IH (S idx) P' d' (log ++ [idx])) as (lognew & ->).
      exists ([idx] ++ lognew). rewrite app_assoc. reflexivity. }
    destruct (decide (id0 ∈ P)); [apply IH|].
    destruct (get_collaborators_for_artist_id lower fuel (world idx) name0 id0)
      as [[collabs|e]|]; [apply Hstep| |exists [idx]; reflexivity].
    destruct (is_Exception e); [apply Hstep|exists [idx]; reflexivity].
Qed.

Lemma main_loop_lines_grow artists : forall idx P d log,
  exists new, csv_lines (final_csv (main_loop lower fuel world artists idx P d log))
              = csv_lines d ++ new.
Proof.
  induction artists as [|[name0 id0] rest IH]; intros idx P d log; simpl.
  - exists []. rewrite app_nil_r. reflexivity.
  - destruct (decide (id0 ∈ P)); [apply IH|].
    destruct (get_collaborators_for_artist_id lower fuel (world idx) name0 id0)
      as [[collabs|e]|] eqn:Hharvest.
    + destruct (get_collaborators_rows _ _ _ _ _ _ Hharvest) as (tracks & ->).
      destruct (IH (S idx) ({[id0]} ∪ P)
                  (append_collaborators_to_csv
                     (map (collab_row name0 id0)
                        (merge_sort (by_lower_name lower)
                           (elements (extract_collaborators_from_tracks tracks id0)))) d)
                  (log ++ [idx])) as (new & ->).
      rewrite append_collaborators_lines, <- app_assoc. eauto.
    + destruct (is_Exception e); [apply IH|].
      exists []. rewrite app_nil_r. reflexivity.
    + exists []. rewrite app_nil_r. reflexivity.
Qed.

(** In a run that reached the end of the roster, every artist that was
    not processed and does not occur earlier in the roster was
    harvested. *)
Lemma main_loop_harvests_all artists : forall idx P d log i name artist_id,
  ending (main_loop lower fuel world artists idx P d log) = Completed ->
  artists !! i = Some (name, artist_id) ->
  artist_id ∉ P ->
  artist_id ∉ (take i artists).*2 ->
  (idx + i)%nat ∈ harvested (main_loop lower fuel world artists idx P d log).
Proof.
  induction artists as [|[name0 id0] rest IH];
    intros idx P d log i name artist_id Hend Hi HP Hearlier; [inversion Hi|].
  destruct i as [|i].
  - simpl in Hi. injection Hi as -> ->. rewrite Nat.add_0_r. simpl in *.
    destruct (decide (artist_id ∈ P)); [contradiction|].
    assert (Hstep : forall P' d',
              idx ∈ harvested (main_loop lower fuel world rest (S idx) P' d' (log ++ [idx]))).
    { intros P' d'. destruct (main_loop_log_grows rest (S idx) P' d' (log ++ [idx]))
        as (lognew & ->).
      apply elem_of_app. left. apply elem_of_app. right. left. }
    destruct (get_collaborators_for_artist_id lower fuel (world idx) name artist_id)
      as [[collabs|e]|]; [apply Hstep| |discriminate].
    destruct (is_Exception e); [apply Hstep|discriminate].
  - simpl in Hi, Hearlier. apply not_elem_of_cons in Hearlier as [Hne Hearlier].
    replace (idx + S i)%nat with (S idx + i)%nat by lia.
    simpl in *.
    destruct (decide (id0 ∈ P)); [apply (IH (S idx) _ _ _ i name artist_id); assumption|].
    destruct (get_collaborators_for_artist_id lower fuel (world idx) name0 id0)
      as [[collabs|e]|]; [| |discriminate].
    + apply (IH (S idx) _ _ _ i name artist_id); try assumption.
      intros Hin. apply elem_of_union in Hin as [Hin|Hin]; [|contradiction].
      apply elem_of_singleton in Hin. contradiction.
    + destruct (is_Exception e); [|discriminate].
      apply (IH (S idx) _ _ _ i name artist_id); assumption.
Qed.

(** The lines of such an artist are in the file of a run that reached
    the end of the roster. *)
Lemma main_loop_writes_harvest artists : forall idx P d log i name artist_id cs c,
  ending (main_loop lower fuel world artists idx P d log) = Completed ->
  artists !! i = Some (name, artist_id) ->
  artist_id ∉ P ->
  artist_id ∉ (take i artists).*2 ->
  get_collaborators_for_artist_id lower fuel (world (idx + i)) name artist_id
    = Some (Returns (map (collab_row name artist_id) cs)) ->
  c ∈ cs ->
  written_line name artist_id c
    ∈ csv_lines (final_csv (main_loop lower fuel world artists idx P d log)).
Proof.
  induction artists as [|[name0 id0] rest IH];
    intros idx P d log i name artist_id cs c Hend Hi HP Hearlier Hharvest Hc; [inversion Hi|].
  destruct i as [|i].
  - simpl in Hi. injection Hi as -> ->. rewrite Nat.add_0_r in Hharvest. simpl in *.
    destruct (decide (artist_id ∈ P)); [contradiction|].
    rewrite Hharvest in *.
    destruct (main_loop_lines_grow rest (S idx) ({[artist_id]} ∪ P)
                (append_collaborators_to_csv (map (collab_row name artist_id) cs) d)
                (log ++ [idx])) as (new & ->).
    rewrite append_collaborators_lines.
    apply elem_of_app. left. apply elem_of_app. right.
    apply list_elem_of_fmap. exists c. split; [reflexivity|exact Hc].
  - simpl in Hi, Hearlier. apply not_elem_of_cons in Hearlier as [Hne Hearlier].
    replace (idx + S i)%nat with (S idx + i)%nat in Hharvest by lia.
    simpl in *.
    destruct (decide (id0 ∈ P)); [apply (IH (S idx) _ _ _ i name artist_id cs); assumption|].
    destruct (get_collaborators_for_artist_id lower fuel (world idx) name0 id0)
      as [[collabs|e]|]; [| |discriminate].
    + apply (IH (S idx) _ _ _ i name artist_id cs); try assumption.
      intros Hin. apply elem_of_union in Hin as [Hin|Hin]; [|contradiction].
      apply elem_of_singleton in Hin. contradiction.
    + destruct (is_Exception e); [|discriminate].
      apply (IH (S idx) _ _ _ i name artist_id cs); assumption.
Qed.
End DriverRuns.

(** X20. A run over a roster whose artists all have lines in the
    output file does nothing: no artist is harvested, the file is left
    as it was, and the run reaches the end of the roster, whatever the
    API would answer. *)
Theorem main_on_processed_roster
    (lower : string -> string) (fuel : nat) (world : nat -> api)
    (input_csv : csv_file) (output_csv : option csv_file) :
  (forall name artist_id,
     (name, artist_id) ∈ load_artists_from_input input_csv ->
     artist_id ∈ load_already_processed_artists output_csv) ->
  main lower fuel world input_csv output_csv
  = RunResult output_csv [] (load_already_processed_artists output_csv) Completed.
Proof. intros Hall. unfold main. apply main_loop_all_processed. exact Hall. Qed.

Definition complete_file : option csv_file :=
  Some (CsvFile FIELDNAMES [["P"; "p"; "c"; "C"]; ["Q"; "q"; "c"; "C"]; ["R"; "r"; "c"; "C"]]).

Lemma main_on_processed_roster_witness :
  main ascii_lower 2 (fun _ => interrupting) roster_csv complete_file
  = RunResult complete_file [] (load_already_processed_artists complete_file) Completed.
Proof.
  apply (main_on_processed_roster ascii_lower 2 (fun _ => interrupting) roster_csv complete_file).
  intros name artist_id Hin. apply list_elem_of_In in Hin.
  destruct Hin as [H|[H|[H|[]]]]; injection H as <- <-; vm_compute; reflexivity.
Defined.

(** X21. One artist's failure does not stop the run: when the harvest
    of every artist of the roster returns rows or raises an error
    other than [KeyboardInterrupt], [main] reaches the end of the
    roster, and it has harvested every artist that had no line in the
    output file and does not occur earlier in the roster. *)
Theorem main_survives_failed_harvests
    (lower : string -> string) (fuel : nat) (world : nat -> api)
    (input_csv : csv_file) (output_csv : option csv_file) :
  let artists := load_artists_from_input input_csv in
  (forall i name artist_id,
     artists !! i = Some (name, artist_id) ->
     match get_collaborators_for_artist_id lower fuel (world (1 + i)%nat) name artist_id with
     | Some (Returns _) => True
     | Some (Raises e) => is_Exception e = true
     | None => False
     end) ->
  let r := main lower fuel world input_csv output_csv in
  ending r = Completed /\
  forall i name artist_id,
    artists !! i = Some (name, artist_id) ->
    artist_id ∉ load_already_processed_artists output_csv ->
    artist_id ∉ (take i artists).*2 ->
    (1 + i)%nat ∈ harvested r.
Proof.
  intros artists Hends r.
  assert (Hend : ending r = Completed).
  { unfold r, main. apply main_loop_completes. exact Hends. }
  split; [exact Hend|].
  intros i name artist_id Hi Hout Hearlier.
  unfold r, main. apply (main_loop_harvests_all _ _ _ _ _ _ _ _ i name artist_id); assumption.
Qed.

(** The API fails for the second artist of the roster. *)
Definition faulty_world (idx : nat) : api :=
  match idx with
  | 2%nat => Api (fun _ => Raises (HTTPError 500 None)) (fun _ _ => Raises (HTTPError 500 None))
  | _ => second_world idx
  end.

Example faulty_run :
  main ascii_lower 2 faulty_world roster_csv None
  = RunResult (Some (CsvFile FIELDNAMES [["P"; "p"; "c"; "C"]; ["R"; "r"; "c"; "C"]]))
              [1; 2; 3]%nat {["p"; "r"]} Completed.
Proof. vm_compute. reflexivity. Qed.

Lemma main_survives_failed_harvests_witness :
  let artists := load_artists_from_input roster_csv in
  let r := main ascii_lower 2 faulty_world roster_csv None in
  ending r = Completed /\
  forall i name artist_id,
    artists !! i = Some (name, artist_id) ->
    artist_id ∉ load_already_processed_artists None ->
    artist_id ∉ (take i artists).*2 ->
    (1 + i)%nat ∈ harvested r.
Proof.
  apply (main_survives_failed_harvests ascii_lower 2 faulty_world roster_csv None).
  intros [|[|[|i]]] name artist_id Hi; simpl in Hi; try discriminate;
    injection Hi as <- <-; vm_compute; reflexivity.
Defined.

(** X22. A run that reaches the end of the roster has written what it
    harvested: for every artist that had no line in the output file
    and does not occur earlier in the roster, the line of each
    collaborator its harvest returned is in the final file. *)
Theorem completed_run_writes_every_harvest
    (lower : string -> string) (fuel : nat) (world : nat -> api)
    (input_csv : csv_file) (output_csv : option csv_file)
    (i : nat) (name artist_id : string) (cs : list (string * string)) (c : string * string) :
  let artists := load_artists_from_input input_csv in
  let r := main lower fuel world input_csv output_csv in
  ending r = Completed ->
  artists !! i = Some (name, artist_id) ->
  artist_id ∉ load_already_processed_artists output_csv ->
  artist_id ∉ (take i artists).*2 ->
  get_collaborators_for_artist_id lower fuel (world (1 + i)%nat) name artist_id
    = Some (Returns (map (collab_row name artist_id) cs)) ->
  c ∈ cs ->
  written_line name artist_id c ∈ csv_lines (final_csv r).
Proof.
  intros artists r Hend Hi Hout Hearlier Hharvest Hc.
  unfold r, main.
  apply (main_loop_writes_harvest _ _ _ _ _ _ _ _ i name artist_id cs c); assumption.
Qed.

Lemma completed_run_writes_every_harvest_witness :
  written_line "R" "r" ("c", "C")
    ∈ csv_lines (final_csv (main ascii_lower 2 faulty_world roster_csv None)).
Proof.
  apply (completed_run_writes_every_harvest ascii_lower 2 faulty_world roster_csv None
           2 "R" "r" [("c", "C")] ("c", "C")).
  - vm_compute. reflexivity.
  - reflexivity.
  - vm_compute. intros H. discriminate H.
  - vm_compute. intros H. apply list_elem_of_In in H. simpl in H.
    destruct H as [H|[H|[]]]; discriminate H.
  - vm_compute. reflexivity.
  - left.
Defined.

(** ** Restricted mode: the batches of step 2 *)

Lemma batch_count_step n : (1 <= n)%nat -> ((n + 20 - 1) / 20 = S ((n - 20 + 20 - 1) / 20))%nat.
Proof.
  intros Hn. destruct (decide (n < 20)%nat) as [Hlt|Hge].
  - replace (n - 20 + 20 - 1)%nat with 19%nat by lia.
    rewrite (Nat.div_small 19 20) by lia.
    symmetry. apply (Nat.div_unique _ 20 1 (n - 1)); lia.
  - replace (n + 20 - 1)%nat with ((n - 20 + 20 - 1) + 1 * 20)%nat by lia.
    rewrite Nat.div_add by lia. lia.
Qed.

Lemma batches_nil : batches [] = [].
Proof. reflexivity. Qed.

Lemma batches_cons (album_ids : list string) :
  album_ids <> [] ->
  batches album_ids = take 20 album_ids :: batches (drop 20 album_ids).
Proof.
  intros Hne. unfold batches, range_step.
  assert (Hlen : (1 <= length album_ids)%nat).
  { destruct album_ids; [contradiction|simpl; lia]. }
  rewrite (batch_count_step _ Hlen), length_drop.
  rewrite !map_map. simpl. f_equal.
  rewrite <- seq_shift, map_map. apply map_ext. intros k.
  rewrite drop_drop. reflexivity.
Qed.

Lemma batches_ind (P : list string -> Prop) :
  P [] ->
  (forall l, l <> [] -> P (drop 20 l) -> P l) ->
  forall l, P l.
Proof.
  intros Hnil Hstep l.
  remember (length l) as n eqn:Hn. revert l Hn.
  induction n as [n IH] using lt_wf_ind. intros l Hn.
  destruct l as [|a l']; [exact Hnil|].
  apply Hstep; [discriminate|].
  apply (IH (length (drop 20 (a :: l')))); [|reflexivity].
  rewrite Hn, length_drop. simpl. lia.
Qed.

(** X23. The batches of [get_albums_with_tracks_batched] cut the list
    of album ids into consecutive slices: put end to end they are the
    list, so every album id is requested in one batch, at its place;
    no batch is empty or longer than 20; and there are
    [(total_albums + 19) // 20] of them, the number the function
    prints. *)
Theorem batches_partition (album_ids : list string) :
  concat (batches album_ids) = album_ids /\
  Forall (fun batch => (1 <= length batch <= 20)%nat) (batches album_ids) /\
  length (batches album_ids) = ((length album_ids + 20 - 1) / 20)%nat.
Proof.
  split; [|split].
  - induction album_ids as [|l Hne IH] using batches_ind; [reflexivity|].
    rewrite (batches_cons l Hne). simpl. rewrite IH. apply take_drop.
  - induction album_ids as [|l Hne IH] using batches_ind; [constructor|].
    rewrite (batches_cons l Hne). constructor; [|exact IH].
    rewrite length_take.
    assert (1 <= length l)%nat by (destruct l; [contradiction|simpl; lia]). lia.
  - unfold batches, range_step. rewrite !length_map, length_seq. reflexivity.
Qed.

Example batches_of_45 :
  map length (batches (replicate 45 "album"))
  = [20; 20; 5]%nat.
Proof. vm_compute. reflexivity. Qed.

(** ** Restricted mode: the album ids of step 1 *)

Section AlbumIdsRuns.
Variable artist_albums : nat -> string -> nat -> outcome (list album).
Variable fuel : nat.

(** The pages [from .. k - 1] of an artist were answered with 50
    releases or more: the loop goes on to page [k]. *)
Definition full_pages (idx : nat) (artist_id : string) (from k : nat) : Prop :=
  forall j, (from <= j < k)%nat ->
    exists results_items,
      artist_albums idx artist_id j = Returns results_items /\
      (50 <= length results_items)%nat.

(** Page [k] ends the listing: fewer than 50 releases, or an error. *)
Definition ends_listing (idx : nat) (artist_id : string) (k : nat) : Prop :=
  match artist_albums idx artist_id k with
  | Returns results_items => (length results_items < 50)%nat
  | Raises _ => True
  end.

Lemma elem_of_add_album_ids items : forall album_ids x,
  x ∈ add_album_ids album_ids items <-> x ∈ album_ids \/ x ∈ alb_id <$> items.
Proof.
  induction items as [|a items IH]; intros album_ids x; simpl.
  - split; [tauto|]. intros [H|H]; [exact H|inversion H].
  - unfold add_album_ids in IH. rewrite IH, elem_of_union, elem_of_singleton, elem_of_cons.
    tauto.
Qed.

Lemma full_pages_first idx artist_id from k :
  (from < k)%nat -> full_pages idx artist_id from k ->
  exists results_items,
    artist_albums idx artist_id from = Returns results_items /\
    (50 <= length results_items)%nat.
Proof. intros Hlt Hfull. apply Hfull. lia. Qed.

Lemma artist_albums_loop_elem idx artist_id : forall todo page album_ids album_ids' e,
  artist_albums_loop artist_albums idx artist_id todo page album_ids = Some (album_ids', e) ->
  forall x, x ∈ album_ids' <->
    x ∈ album_ids \/
    exists k results_items,
      (page <= k)%nat /\ full_pages idx artist_id page k /\
      artist_albums idx artist_id k = Returns results_items /\
      x ∈ alb_id <$> results_items.
Proof.
  induction todo as [|todo IH]; intros page album_ids album_ids' e Hrun x; [discriminate|].
  simpl in Hrun.
  destruct (artist_albums idx artist_id page) as [items0|e0] eqn:Hpage.
  - destruct (length items0 <? 50)%nat eqn:Hshort.
    + injection Hrun as <- <-. apply Nat.ltb_lt in Hshort.
      rewrite elem_of_add_album_ids. split.
      * intros [H|H]; [left; exact H|]. right. exists page, items0.
        split; [lia|]. split; [intros j Hj; lia|]. split; assumption.
      * intros [H|(k & its & Hk & Hfull & Hret & Hx)]; [left; exact H|].
        destruct (decide (k = page)) as [->|Hne].
        { right. rewrite Hpage in Hret. injection Hret as <-. exact Hx. }
        { destruct (full_pages_first idx artist_id page k ltac:(lia) Hfull)
            as (its' & Hret' & Hlen).
          rewrite Hpage in Hret'. injection Hret' as <-. lia. }
    + apply Nat.ltb_ge in Hshort.
      rewrite (IH _ _ _ _ Hrun x), elem_of_add_album_ids. split.
      * intros [[H|H]|(k & its & Hk & Hfull & Hret & Hx)]; [left; exact H| |].
        { right. exists page, items0.
          split; [lia|]. split; [intros j Hj; lia|]. split; assumption. }
        { right. exists k, its. split; [lia|]. split; [|split; assumption].
          intros j Hj. destruct (decide (j = page)) as [->|Hne]; [eauto|].
          apply Hfull. lia. }
      * intros [H|(k & its & Hk & Hfull & Hret & Hx)]; [left; left; exact H|].
        destruct (decide (k = page)) as [->|Hne].
        { left. right. rewrite Hpage in Hret. injection Hret as <-. exact Hx. }
        { right. exists k, its. split; [lia|]. split; [|split; assumption].
          intros j Hj. apply Hfull. lia. }
  - injection Hrun as <- <-. split; [intros H; left; exact H|].
    intros [H|(k & its & Hk & Hfull & Hret & Hx)]; [exact H|].
    destruct (decide (k = page)) as [->|Hne]; [congruence|].
    destruct (full_pages_first idx artist_id page k ltac:(lia) Hfull) as (its' & Hret' & _).
    congruence.
Qed.

Lemma artist_albums_loop_error idx artist_id : forall todo page album_ids album_ids' e,
  artist_albums_loop artist_albums idx artist_id todo page album_ids
    = Some (album_ids', Some e) ->
  exists k, artist_albums idx artist_id k = Raises e.
Proof.
  induction todo as [|todo IH]; intros page album_ids album_ids' e Hrun; [discriminate|].
  simpl in Hrun.
  destruct (artist_albums idx artist_id page) as [items0|e0] eqn:Hpage.
  - destruct (length items0 <? 50)%nat; [discriminate|]. apply (IH _ _ _ _ Hrun).
  - injection Hrun as _ <-. exists page. exact Hpage.
Qed.

Lemma artist_albums_loop_ends idx artist_id : forall todo page album_ids k,
  (page <= k < page + todo)%nat ->
  ends_listing idx artist_id k ->
  exists r, artist_albums_loop artist_albums idx artist_id todo page album_ids = Some r.
Proof.
  induction todo as [|todo IH]; intros page album_ids k Hk Hends; [lia|].
  simpl. unfold ends_listing in Hends.
  destruct (artist_albums idx artist_id page) as [items0|e0] eqn:Hpage; [|eauto].
  destruct (length items0 <? 50)%nat eqn:Hshort; [eauto|].
  apply Nat.ltb_ge in Hshort.
  assert (k <> page) by (intros ->; rewrite Hpage in Hends; lia).
  apply (IH _ _ k); [lia|exact Hends].
Qed.

(** What the set holds when the loop over the artists returns. *)
Lemma all_album_ids_loop_elem artists : forall idx album_ids result,
  all_album_ids_loop artist_albums fuel artists idx album_ids = Some (Returns result) ->
  forall x, x ∈ result <->
    x ∈ album_ids \/
    exists i name artist_id k results_items,
      artists !! i = Some (name, artist_id) /\
      full_pages (idx + i) artist_id 0 k /\
      artist_albums (idx + i)%nat artist_id k = Returns results_items /\
      x ∈ alb_id <$> results_items.
Proof.
  induction artists as [|[name0 id0] rest IH]; intros idx album_ids result Hrun x.
  - simpl in Hrun. injection Hrun as <-. split; [tauto|].
    intros [H|(i & name & artist_id & k & its & Hi & _)]; [exact H|inversion Hi].
  - simpl in Hrun.
    destruct (artist_albums_loop artist_albums idx id0 fuel 0 album_ids)
      as [[album_ids' oe]|] eqn:Hone; [|discriminate].
    assert (Hrest : all_album_ids_loop artist_albums fuel rest (S idx) album_ids'
                    = Some (Returns result)).
    { destruct oe as [e|]; [|exact Hrun]. destruct (is_Exception e); [exact Hrun|discriminate]. }
    rewrite (IH _ _ _ Hrest x), (artist_albums_loop_elem _ _ _ _ _ _ _ Hone x). split.
    + intros [[H|(k & its & _ & Hfull & Hret & Hx)]|(i & name & artist_id & k & its & Hi & Hfull & Hret & Hx)].
      * left. exact H.
      * right. exists 0%nat, name0, id0, k, its. rewrite Nat.add_0_r.
        repeat split; assumption.
      * right. exists (S i), name, artist_id, k, its.
        replace (idx + S i)%nat with (S idx + i)%nat by lia. repeat split; assumption.
    + intros [H|(i & name & artist_id & k & its & Hi & Hfull & Hret & Hx)]; [left; left; exact H|].
      destruct i as [|i].
      * simpl in Hi. injection Hi as <- <-. rewrite Nat.add_0_r in Hfull, Hret.
        left. right. exists k, its. split; [lia|]. repeat split; assumption.
      * right. exists i, name, artist_id, k, its.
        replace (idx + S i)%nat with (S idx + i)%nat in Hfull, Hret by lia.
        repeat split; assumption.
Qed.

Lemma all_album_ids_loop_returns artists : forall idx album_ids,
  (forall i artist_id k e, artist_albums i artist_id k = Raises e -> is_Exception e = true) ->
  (forall i name artist_id,
     artists !! i = Some (name, artist_id) ->
     exists k, (k < fuel)%nat /\ ends_listing (idx + i) artist_id k) ->
  exists result,
    all_album_ids_loop artist_albums fuel artists idx album_ids = Some (Returns result).
Proof.
  induction artists as [|[name0 id0] rest IH]; intros idx album_ids Hcaught Hends; simpl.
  - eauto.
  - destruct (Hends 0%nat name0 id0 eq_refl) as (k & Hk & Hend). rewrite Nat.add_0_r in Hend.
    destruct (artist_albums_loop_ends idx id0 fuel 0 album_ids k ltac:(lia) Hend)
      as ([album_ids' oe] & Hone).
    rewrite Hone.
    assert (Hrest : exists result,
              all_album_ids_loop artist_albums fuel rest (S idx) album_ids'
              = Some (Returns result)).
    { apply IH; [exact Hcaught|]. intros i name artist_id Hi.
      replace (S idx + i)%nat with (idx + S i)%nat by lia.
      apply (Hends (S i) name artist_id). exact Hi. }
    destruct oe as [e|]; [|exact Hrest].
    destruct (artist_albums_loop_error _ _ _ _ _ _ _ Hone) as (k' & Hraise).
    rewrite (Hcaught _ _ _ _ Hraise). exact Hrest.
Qed.

Lemma all_album_ids_loop_escape artists : forall idx album_ids e,
  all_album_ids_loop artist_albums fuel artists idx album_ids = Some (Raises e) ->
  is_Exception e = false /\
  exists i name artist_id k,
    artists !! i = Some (name, artist_id) /\
    artist_albums (idx + i)%nat artist_id k = Raises e.
Proof.
  induction artists as [|[name0 id0] rest IH]; intros idx album_ids e Hrun; [discriminate|].
  simpl in Hrun.
  destruct (artist_albums_loop artist_albums idx id0 fuel 0 album_ids)
    as [[album_ids' oe]|] eqn:Hone; [|discriminate].
  assert (Hrest : all_album_ids_loop artist_albums fuel rest (S idx) album_ids'
                  = Some (Raises e) ->
                  is_Exception e = false /\
                  exists i name artist_id k,
                    ((name0, id0) :: rest) !! i = Some (name, artist_id) /\
                    artist_albums (idx + i)%nat artist_id k = Raises e).
  { intros H. destruct (IH _ _ _ H) as (He & i & name & artist_id & k & Hi & Hraise).
    split; [exact He|]. exists (S i), name, artist_id, k.
    replace (idx + S i)%nat with (S idx + i)%nat by lia. split; assumption. }
  destruct oe as [e0|]; [|apply Hrest; exact Hrun].
  destruct (is_Exception e0) eqn:He0; [apply Hrest; exact Hrun|].
  injection Hrun as <-. split; [exact He0|].
  destruct (artist_albums_loop_error _ _ _ _ _ _ _ Hone) as (k & Hraise).
  exists 0%nat, name0, id0, k. rewrite Nat.add_0_r. split; [reflexivity|exact Hraise].
Qed.
End AlbumIdsRuns.

(** X24. [get_all_album_ids] returns the ids of the pages it reached,
    whatever went wrong for single artists. When no call is
    interrupted and the listing of every artist ends within the
    rounds available (a page of fewer than 50 releases, or an error),
    the function returns, and an id is in [album_ids] exactly when it
    is on a page of an artist of the roster all of whose earlier pages
    held 50 releases or more: nothing is read past a short page or an
    error, and the pages read before an error are kept. *)
Theorem get_all_album_ids_reached_pages
    (artist_albums : nat -> string -> nat -> outcome (list album)) (fuel : nat)
    (artists : list (string * string)) :
  (forall i artist_id k e, artist_albums i artist_id k = Raises e -> is_Exception e = true) ->
  (forall i name artist_id,
     artists !! i = Some (name, artist_id) ->
     exists k, (k < fuel)%nat /\ ends_listing artist_albums i artist_id k) ->
  exists album_ids,
    get_all_album_ids artist_albums fuel artists = Some (Returns album_ids) /\
    forall x, x ∈ album_ids <->
      exists i name artist_id k results_items,
        artists !! i = Some (name, artist_id) /\
        full_pages artist_albums i artist_id 0 k /\
        artist_albums i artist_id k = Returns results_items /\
        x ∈ alb_id <$> results_items.
Proof.
  intros Hcaught Hends. unfold get_all_album_ids.
  destruct (all_album_ids_loop_returns artist_albums fuel artists 0 ∅ Hcaught Hends)
    as (result & Hrun).
  exists result. split; [exact Hrun|]. intros x.
  rewrite (all_album_ids_loop_elem _ _ _ _ _ _ Hrun x). split.
  - intros [H|H]; [set_solver|exact H].
  - intros H. right. exact H.
Qed.

(** The first artist has 50 releases on the first page and an error on
    the second; the second artist has one release. *)
Definition two_listings (idx : nat) (artist_id : string) (k : nat) : outcome (list album) :=
  match idx, k with
  | 0%nat, 0%nat => Returns (replicate 50 (Album "p0" "Zero"))
  | 0%nat, _ => Raises (MaxRetriesExceeded 5)
  | 1%nat, 0%nat => Returns [Album "q0" "One"]
  | _, _ => Returns []
  end.

Example two_listings_ids :
  get_all_album_ids two_listings 2 [("P", "p"); ("Q", "q")] = Some (Returns {["p0"; "q0"]}).
Proof. vm_compute. reflexivity. Qed.

Lemma get_all_album_ids_reached_pages_witness :
  exists album_ids,
    get_all_album_ids two_listings 2 [("P", "p"); ("Q", "q")] = Some (Returns album_ids) /\
    forall x, x ∈ album_ids <->
      exists i name artist_id k results_items,
        [("P", "p"); ("Q", "q")] !! i = Some (name, artist_id) /\
        full_pages two_listings i artist_id 0 k /\
        two_listings i artist_id k = Returns results_items /\
        x ∈ alb_id <$> results_items.
Proof.
  apply (get_all_album_ids_reached_pages two_listings 2 [("P", "p"); ("Q", "q")]).
  - intros [|[|i]] artist_id [|k] e H; simpl in H; try discriminate H.
    injection H as <-. reflexivity.
  - intros [|[|i]] name artist_id H; simpl in H; try discriminate H.
    + exists 1%nat. split; [lia|]. unfold ends_listing. simpl. exact I.
    + exists 0%nat. split; [lia|]. unfold ends_listing. simpl. lia.
Defined.

(** X25. No error of the API stops [get_all_album_ids]: the only
    errors that leave it are errors raised by one of its calls that
    [except Exception] does not catch, such as [KeyboardInterrupt]. *)
Theorem get_all_album_ids_only_interrupt_escapes
    (artist_albums : nat -> string -> nat -> outcome (list album)) (fuel : nat)
    (artists : list (string * string)) (e : exn) :
  get_all_album_ids artist_albums fuel artists = Some (Raises e) ->
  is_Exception e = false /\
  exists i name artist_id k,
    artists !! i = Some (name, artist_id) /\
    artist_albums i artist_id k = Raises e.
Proof.
  intros Hrun. unfold get_all_album_ids in Hrun.
  apply (all_album_ids_loop_escape artist_albums fuel artists 0 ∅ e Hrun).
Qed.

Definition interrupted_listing (idx : nat) (artist_id : string) (k : nat)
  : outcome (list album) :=
  match idx with
  | 0%nat => Raises (HTTPError 500 None)
  | _ => Raises KeyboardInterrupt
  end.

Lemma get_all_album_ids_only_interrupt_escapes_witness :
  is_Exception KeyboardInterrupt = false /\
  exists i name artist_id k,
    [("P", "p"); ("Q", "q")] !! i = Some (name, artist_id) /\
    interrupted_listing i artist_id k = Raises KeyboardInterrupt.
Proof.
  apply (get_all_album_ids_only_interrupt_escapes interrupted_listing 1
           [("P", "p"); ("Q", "q")] KeyboardInterrupt).
  vm_compute. reflexivity.
Defined.

(** ** Restricted mode: the tracks of step 2 *)

(** The tracks an album of an answer carries itself. *)
Definition first_page (album : option full_album) : list track :=
  match album with
  | Some (FullAlbum _ (Some tracks)) => items tracks
  | _ => []
  end.

Section BatchedRuns.
Variable sp_albums : nat -> list string -> outcome (list (option full_album)).
Variable sp_album_tracks : nat -> nat -> string -> nat -> outcome (list track).
Variable fuel : nat.

(** What a batch adds when none of its albums needs a further page. *)
Definition batch_tracks (n : nat) (batch : list string) : list track :=
  match sp_albums n batch with
  | Returns albums => concat (map first_page albums)
  | Raises _ => []
  end.

Lemma more_tracks_loop_extends n pos album_id : forall todo page all_tracks result,
  more_tracks_loop sp_album_tracks n pos album_id todo page all_tracks
    = Some (Returns result) ->
  exists more, result = all_tracks ++ more.
Proof.
  induction todo as [|todo IH]; intros page all_tracks result Hrun; [discriminate|].
  simpl in Hrun.
  destruct (sp_album_tracks n pos album_id page) as [[|t more_items]|e].
  - injection Hrun as <-. exists []. rewrite app_nil_r. reflexivity.
  - destruct (length (t :: more_items) <? 50)%nat.
    + injection Hrun as <-. eauto.
    + destruct (IH _ _ _ Hrun) as (more & ->). rewrite <- app_assoc. eauto.
  - destruct (is_Exception e); [|discriminate].
    injection Hrun as <-. exists []. rewrite app_nil_r. reflexivity.
Qed.

Lemma more_tracks_loop_escape n pos album_id : forall todo page all_tracks e,
  more_tracks_loop sp_album_tracks n pos album_id todo page all_tracks = Some (Raises e) ->
  is_Exception e = false /\ exists k, sp_album_tracks n pos album_id k = Raises e.
Proof.
  induction todo as [|todo IH]; intros page all_tracks e Hrun; [discriminate|].
  simpl in Hrun.
  destruct (sp_album_tracks n pos album_id page) as [[|t more_items]|e0] eqn:Hpage.
  - discriminate.
  - destruct (length (t :: more_items) <? 50)%nat; [discriminate|]. apply (IH _ _ _ Hrun).
  - destruct (is_Exception e0) eqn:He0; [discriminate|].
    injection Hrun as <-. split; [exact He0|]. exists page. exact Hpage.
Qed.

Lemma batch_albums_loop_extends n albums : forall pos all_tracks result,
  batch_albums_loop sp_album_tracks fuel n albums pos all_tracks = Some (Returns result) ->
  (exists more, result = all_tracks ++ more) /\
  forall album t, album ∈ albums -> t ∈ first_page album -> t ∈ result.
Proof.
  induction albums as [|album rest IH]; intros pos all_tracks result Hrun.
  - simpl in Hrun. injection Hrun as <-.
    split; [exists []; rewrite app_nil_r; reflexivity|]. intros album t Hin. inversion Hin.
  - simpl in Hrun.
    assert (Hskip : first_page album = [] ->
              batch_albums_loop sp_album_tracks fuel n rest (S pos) all_tracks
              = Some (Returns result) ->
              (exists more, result = all_tracks ++ more) /\
              forall album' t, album' ∈ album :: rest -> t ∈ first_page album' -> t ∈ result).
    { intros Hnone H. destruct (IH _ _ _ H) as [Hext Hall]. split; [exact Hext|].
      intros album' t Hin Ht. apply elem_of_cons in Hin as [->|Hin].
      - rewrite Hnone in Ht. inversion Ht.
      - apply (Hall album'); assumption. }
    assert (Hkeep : forall tracks all_tracks',
              first_page album = items tracks ->
              (exists more, all_tracks' = (all_tracks ++ items tracks) ++ more) ->
              batch_albums_loop sp_album_tracks fuel n rest (S pos) all_tracks'
              = Some (Returns result) ->
              (exists more, result = all_tracks ++ more) /\
              forall album' t, album' ∈ album :: rest -> t ∈ first_page album' -> t ∈ result).
    { intros tracks all_tracks' Hfirst (more & ->) H.
      destruct (IH _ _ _ H) as [(more' & ->) Hall]. split.
      - rewrite <- !app_assoc. eauto.
      - intros album' t Hin Ht. apply elem_of_cons in Hin as [->|Hin].
        + rewrite Hfirst in Ht. rewrite !elem_of_app. left. left. right. exact Ht.
        + apply (Hall album'); assumption. }
    destruct album as [[album_id [tracks|]]|]; [|apply Hskip; [reflexivity|exact Hrun]..].
    destruct (next tracks).
    + destruct (more_tracks_loop sp_album_tracks n pos album_id fuel 0
                  (all_tracks ++ items tracks)) as [[all_tracks'|e]|] eqn:Hmore;
        [|discriminate..].
      apply (Hkeep tracks all_tracks'); [reflexivity| |exact Hrun].
      apply (more_tracks_loop_extends _ _ _ _ _ _ _ Hmore).
    + apply (Hkeep tracks (all_tracks ++ items tracks)); [reflexivity| |exact Hrun].
      exists []. rewrite app_nil_r. reflexivity.
Qed.

Lemma batch_albums_loop_escape n albums : forall pos all_tracks e,
  batch_albums_loop sp_album_tracks fuel n albums pos all_tracks = Some (Raises e) ->
  is_Exception e = false /\
  exists pos' album_id k, sp_album_tracks n pos' album_id k = Raises e.
Proof.
  induction albums as [|album rest IH]; intros pos all_tracks e Hrun; [discriminate|].
  simpl in Hrun.
  destruct album as [[album_id [tracks|]]|]; [|apply (IH _ _ _ Hrun)..].
  destruct (next tracks); [|apply (IH _ _ _ Hrun)].
  destruct (more_tracks_loop sp_album_tracks n pos album_id fuel 0
              (all_tracks ++ items tracks)) as [[all_tracks'|e0]|] eqn:Hmore;
    [apply (IH _ _ _ Hrun)| |discriminate].
  injection Hrun as <-.
  destruct (more_tracks_loop_escape _ _ _ _ _ _ _ Hmore) as (He & k & Hraise).
  split; [exact He|]. eauto.
Qed.

Lemma batch_albums_loop_short n albums : forall pos all_tracks,
  (forall album_id tracks,
     Some (FullAlbum album_id (Some tracks)) ∈ albums -> next tracks = false) ->
  batch_albums_loop sp_album_tracks fuel n albums pos all_tracks
  = Some (Returns (all_tracks ++ concat (map first_page albums))).
Proof.
  induction albums as [|album rest IH]; intros pos all_tracks Hshort; simpl.
  - rewrite app_nil_r. reflexivity.
  - assert (Hrest : forall album_id tracks,
              Some (FullAlbum album_id (Some tracks)) ∈ rest -> next tracks = false).
    { intros album_id tracks Hin. apply (Hshort album_id). right. exact Hin. }
    destruct album as [[album_id [tracks|]]|]; [|apply IH; exact Hrest..].
    rewrite (Hshort album_id tracks) by left.
    rewrite IH by exact Hrest. rewrite <- app_assoc. reflexivity.
Qed.

Lemma batches_loop_extends bs : forall n0 all_tracks result,
  batches_loop sp_albums sp_album_tracks fuel bs n0 all_tracks = Some (Returns result) ->
  (exists more, result = all_tracks ++ more) /\
  forall i batch albums album t,
    bs !! i = Some batch ->
    sp_albums (n0 + i)%nat batch = Returns albums ->
    album ∈ albums -> t ∈ first_page album -> t ∈ result.
Proof.
  induction bs as [|batch0 rest IH]; intros n0 all_tracks result Hrun.
  - simpl in Hrun. injection Hrun as <-.
    split; [exists []; rewrite app_nil_r; reflexivity|]. intros i batch albums album t Hi.
    inversion Hi.
  - simpl in Hrun.
    destruct (sp_albums n0 batch0) as [albums0|e0] eqn:Hcall.
    + destruct (batch_albums_loop sp_album_tracks fuel n0 albums0 0 all_tracks)
        as [[all_tracks'|e]|] eqn:Hbatch; [|discriminate..].
      destruct (batch_albums_loop_extends _ _ _ _ _ Hbatch) as [(more & ->) Hfirst].
      destruct (IH _ _ _ Hrun) as [(more' & ->) Hall]. split.
      * rewrite <- app_assoc. eauto.
      * intros [|i] batch albums album t Hi Hret Hin Ht.
        { simpl in Hi. injection Hi as <-. rewrite Nat.add_0_r, Hcall in Hret.
          injection Hret as <-. apply elem_of_app. left. apply (Hfirst album); assumption. }
        { apply (Hall i batch albums album); try assumption.
          replace (S n0 + i)%nat with (n0 + S i)%nat by lia. exact Hret. }
    + destruct (is_Exception e0); [|discriminate].
      destruct (IH _ _ _ Hrun) as [Hext Hall]. split; [exact Hext|].
      intros [|i] batch albums album t Hi Hret Hin Ht.
      * simpl in Hi. injection Hi as <-. rewrite Nat.add_0_r, Hcall in Hret. discriminate.
      * apply (Hall i batch albums album); try assumption.
        replace (S n0 + i)%nat with (n0 + S i)%nat by lia. exact Hret.
Qed.

Lemma batches_loop_escape bs : forall n0 all_tracks e,
  batches_loop sp_albums sp_album_tracks fuel bs n0 all_tracks = Some (Raises e) ->
  is_Exception e = false /\
  ((exists n batch, sp_albums n batch = Raises e) \/
   (exists n pos album_id k, sp_album_tracks n pos album_id k = Raises e)).
Proof.
  induction bs as [|batch0 rest IH]; intros n0 all_tracks e Hrun; [discriminate|].
  simpl in Hrun.
  destruct (sp_albums n0 batch0) as [albums0|e0] eqn:Hcall.
  - destruct (batch_albums_loop sp_album_tracks fuel n0 albums0 0 all_tracks)
      as [[all_tracks'|e1]|] eqn:Hbatch; [apply (IH _ _ _ Hrun)| |discriminate].
    injection Hrun as <-.
    destruct (batch_albums_loop_escape _ _ _ _ _ Hbatch) as (He & pos & album_id & k & Hraise).
    split; [exact He|]. right. eauto.
  - destruct (is_Exception e0) eqn:He0; [apply (IH _ _ _ Hrun)|].
    injection Hrun as <-. split; [exact He0|]. left. eauto.
Qed.

Lemma batches_loop_short bs : forall n0 all_tracks,
  (forall i batch e,
     bs !! i = Some batch -> sp_albums (n0 + i)%nat batch = Raises e ->
     is_Exception e = true) ->
  (forall i batch albums album_id tracks,
     bs !! i = Some batch -> sp_albums (n0 + i)%nat batch = Returns albums ->
     Some (FullAlbum album_id (Some tracks)) ∈ albums -> next tracks = false) ->
  batches_loop sp_albums sp_album_tracks fuel bs n0 all_tracks
  = Some (Returns (all_tracks ++ concat (imap (fun i => batch_tracks (n0 + i)) bs))).
Proof.
  induction bs as [|batch0 rest IH]; intros n0 all_tracks Hcaught Hshort; simpl.
  - rewrite app_nil_r. reflexivity.
  - assert (Hrest : forall all_tracks',
              batches_loop sp_albums sp_album_tracks fuel rest (S n0) all_tracks'
              = Some (Returns (all_tracks' ++
                  concat (imap (fun i => batch_tracks (n0 + S i)) rest)))).
    { intros all_tracks'. rewrite IH.
      - f_equal. f_equal. f_equal. f_equal. apply imap_ext. intros i batch _.
        f_equal. lia.
      - intros i batch e Hi. replace (S n0 + i)%nat with (n0 + S i)%nat by lia.
        apply (Hcaught (S i)). exact Hi.
      - intros i batch albums album_id tracks Hi.
        replace (S n0 + i)%nat with (n0 + S i)%nat by lia.
        apply (Hshort (S i)). exact Hi. }
    unfold batch_tracks at 1. rewrite Nat.add_0_r.
    destruct (sp_albums n0 batch0) as [albums0|e0] eqn:Hcall.
    + rewrite batch_albums_loop_short.
      * rewrite Hrest, <- app_assoc. reflexivity.
      * intros album_id tracks. apply (Hshort 0%nat batch0); [reflexivity|].
        rewrite Nat.add_0_r. exact Hcall.
    + rewrite (Hcaught 0%nat batch0 e0 eq_refl) by (rewrite Nat.add_0_r; exact Hcall).
      apply Hrest.
Qed.
End BatchedRuns.

(** X26. When no album of an answer has a further page and no call
    for a batch is interrupted, [get_albums_with_tracks_batched]
    returns, in the order of the batches and of the albums of each
    answer, the tracks the answers carry; a batch whose call failed
    adds nothing and stops nothing. The result depends neither on the
    calls for further pages nor on the rounds available for them. *)
Theorem get_albums_with_tracks_batched_short_albums
    (sp_albums : nat -> list string -> outcome (list (option full_album)))
    (sp_album_tracks : nat -> nat -> string -> nat -> outcome (list track))
    (fuel : nat) (album_ids : list string) :
  (forall n batch e,
     batches album_ids !! n = Some batch -> sp_albums n batch = Raises e ->
     is_Exception e = true) ->
  (forall n batch albums album_id tracks,
     batches album_ids !! n = Some batch -> sp_albums n batch = Returns albums ->
     Some (FullAlbum album_id (Some tracks)) ∈ albums -> next tracks = false) ->
  get_albums_with_tracks_batched sp_albums sp_album_tracks fuel album_ids
  = Some (Returns (concat (imap (batch_tracks sp_albums) (batches album_ids)))).
Proof.
  intros Hcaught Hshort. unfold get_albums_with_tracks_batched.
  rewrite batches_loop_short; [reflexivity|exact Hcaught|exact Hshort].
Qed.

(** 45 album ids in three batches; the second call fails. *)
Definition forty_five : list string := replicate 45 "album".

Definition second_batch_fails (n : nat) (batch : list string)
  : outcome (list (option full_album)) :=
  match n with
  | 0%nat => Returns [Some (FullAlbum "x" (Some (Page [shared_x] false))); None]
  | 1%nat => Raises (MaxRetriesExceeded 5)
  | _ => Returns [Some (FullAlbum "y" None); Some (FullAlbum "z" (Some (Page [shared_y] false)))]
  end.

Definition no_further_pages (n pos : nat) (album_id : string) (k : nat)
  : outcome (list track) :=
  Raises KeyboardInterrupt.

Example second_batch_fails_tracks :
  get_albums_with_tracks_batched second_batch_fails no_further_pages 0 forty_five
  = Some (Returns [shared_x; shared_y]).
Proof. vm_compute. reflexivity. Qed.

Lemma get_albums_with_tracks_batched_short_albums_witness :
  get_albums_with_tracks_batched second_batch_fails no_further_pages 0 forty_five
  = Some (Returns (concat (imap (batch_tracks second_batch_fails) (batches forty_five)))).
Proof.
  apply (get_albums_with_tracks_batched_short_albums
           second_batch_fails no_further_pages 0 forty_five).
  - intros [|[|n]] batch e _ H; simpl in H; try discriminate H.
    injection H as <-. reflexivity.
  - intros [|[|n]] batch albums album_id tracks _ H Hin; simpl in H; try discriminate H;
      injection H as <-; apply list_elem_of_In in Hin; simpl in Hin;
      destruct Hin as [Hin|[Hin|[]]]; try discriminate Hin;
      injection Hin as _ <-; reflexivity.
Defined.

(** X27. [get_albums_with_tracks_batched] never gives up tracks it has
    read: whenever it returns, the tracks that the answer to a batch
    carries for an album are in the result, whatever happened to the
    further pages of that album and to the other batches. *)
Theorem get_albums_with_tracks_batched_keeps_answers
    (sp_albums : nat -> list string -> outcome (list (option full_album)))
    (sp_album_tracks : nat -> nat -> string -> nat -> outcome (list track))
    (fuel : nat) (album_ids : list string) (all_tracks : list track)
    (n : nat) (batch : list string) (albums : list (option full_album))
    (album : option full_album) (t : track) :
  get_albums_with_tracks_batched sp_albums sp_album_tracks fuel album_ids
    = Some (Returns all_tracks) ->
  batches album_ids !! n = Some batch ->
  sp_albums n batch = Returns albums ->
  album ∈ albums ->
  t ∈ first_page album ->
  t ∈ all_tracks.
Proof.
  intros Hrun Hn Hret Hin Ht. unfold get_albums_with_tracks_batched in Hrun.
  destruct (batches_loop_extends _ _ _ _ _ _ _ Hrun) as [_ Hall].
  apply (Hall n batch albums album t); assumption.
Qed.

(** The first album of the only batch has further pages, the call for
    them fails; the second album is complete. *)
Definition long_album_batch (n : nat) (batch : list string)
  : outcome (list (option full_album)) :=
  Returns [Some (FullAlbum "x" (Some (Page [shared_x] true)));
           Some (FullAlbum "y" (Some (Page [shared_y] false)))].

Definition further_pages_fail (n pos : nat) (album_id : string) (k : nat)
  : outcome (list track) :=
  Raises (MaxRetriesExceeded 5).

Lemma get_albums_with_tracks_batched_keeps_answers_witness :
  shared_x ∈ [shared_x; shared_y].
Proof.
  apply (get_albums_with_tracks_batched_keeps_answers long_album_batch further_pages_fail
           1 ["x"; "y"] [shared_x; shared_y] 0 ["x"; "y"]
           [Some (FullAlbum "x" (Some (Page [shared_x] true)));
            Some (FullAlbum "y" (Some (Page [shared_y] false)))]
           (Some (FullAlbum "x" (Some (Page [shared_x] true)))) shared_x).
  - vm_compute. reflexivity.
  - vm_compute. reflexivity.
  - reflexivity.
  - left.
  - left.
Defined.

(** X28. No error of the API stops [get_albums_with_tracks_batched]:
    the only errors that leave it are errors raised by one of its
    calls that [except Exception] does not catch, such as
    [KeyboardInterrupt]. *)
Theorem get_albums_with_tracks_batched_only_interrupt_escapes
    (sp_albums : nat -> list string -> outcome (list (option full_album)))
    (sp_album_tracks : nat -> nat -> string -> nat -> outcome (list track))
    (fuel : nat) (album_ids : list string) (e : exn) :
  get_albums_with_tracks_batched sp_albums sp_album_tracks fuel album_ids
    = Some (Raises e) ->
  is_Exception e = false /\
  ((exists n batch, sp_albums n batch = Raises e) \/
   (exists n pos album_id k, sp_album_tracks n pos album_id k = Raises e)).
Proof.
  intros Hrun. unfold get_albums_with_tracks_batched in Hrun.
  apply (batches_loop_escape _ _ _ _ _ _ _ Hrun).
Qed.

Lemma get_albums_with_tracks_batched_only_interrupt_escapes_witness :
  is_Exception KeyboardInterrupt = false /\
  ((exists n batch, long_album_batch n batch = Raises KeyboardInterrupt) \/
   (exists n pos album_id k, no_further_pages n pos album_id k = Raises KeyboardInterrupt)).
Proof.
  apply (get_albums_with_tracks_batched_only_interrupt_escapes
           long_album_batch no_further_pages 1 ["x"; "y"] KeyboardInterrupt).
  vm_compute. reflexivity.
Defined.

(** ** Restricted mode: the adjacency matrix *)

(** [matrix[i][j]] *)
Definition entry (matrix : list (list nat)) (i j : nat) : option nat :=
  matrix !! i ≫= (.!! j).

(** [n] rows of length [n]. *)
Definition square (n : nat) (matrix : list (list nat)) : Prop :=
  length matrix = n /\ Forall (fun row => length row = n) matrix.

Lemma square_zeros n : square n (replicate n (replicate n 0%nat)).
Proof.
  split; [apply length_replicate|].
  apply Forall_forall. intros row Hrow. apply elem_of_replicate in Hrow as [-> _].
  apply length_replicate.
Qed.

Lemma entry_zeros n i j :
  (i < n)%nat -> (j < n)%nat -> entry (replicate n (replicate n 0%nat)) i j = Some 0%nat.
Proof.
  intros Hi Hj. unfold entry. rewrite lookup_replicate_2 by exact Hi. simpl.
  apply lookup_replicate_2. exact Hj.
Qed.

Lemma square_set_entry n matrix i j : square n matrix -> square n (set_entry matrix i j).
Proof.
  intros [Hlen Hrows]. unfold set_entry. split; [rewrite length_alter; exact Hlen|].
  apply Forall_alter; [exact Hrows|]. intros row _ Hrow. rewrite length_insert. exact Hrow.
Qed.

Lemma entry_set_entry n matrix i j i' j' :
  square n matrix -> (i < n)%nat -> (j < n)%nat ->
  entry (set_entry matrix i j) i' j'
  = if decide (i' = i /\ j' = j) then Some 1%nat else entry matrix i' j'.
Proof.
  intros [Hlen Hrows] Hi Hj. unfold entry, set_entry.
  destruct (decide (i' = i)) as [->|Hne].
  - rewrite list_lookup_alter_eq.
    destruct (lookup_lt_is_Some_2 matrix i ltac:(lia)) as (row & Hrow).
    rewrite Hrow. simpl.
    assert (Hlenrow : length row = n).
    { rewrite Forall_forall in Hrows. apply Hrows.
      apply (list_elem_of_lookup_2 _ _ _ Hrow). }
    destruct (decide (j' = j)) as [->|Hnej].
    + rewrite list_lookup_insert_eq by lia.
      destruct (decide (i = i /\ j = j)) as [_|Hno]; [reflexivity|tauto].
    + rewrite list_lookup_insert_ne by congruence.
      destruct (decide (i = i /\ j' = j)) as [[_ ?]|_]; [contradiction|reflexivity].
  - rewrite list_lookup_alter_ne by congruence.
    destruct (decide (i' = i /\ j' = j)) as [[? _]|_]; [contradiction|reflexivity].
Qed.

Lemma idx_fold (l : list (nat * (string * string))) a i : forall m : gmap string nat,
  foldl (fun m (p : nat * (string * string)) => <[p.2.2 := p.1]> m) m l !! a = Some i ->
  m !! a = Some i \/ exists name, (i, (name, a)) ∈ l.
Proof.
  induction l as [|[i0 [name0 a0]] l IH]; intros m Hlook; simpl in Hlook; [left; exact Hlook|].
  destruct (IH _ Hlook) as [H|(name & H)].
  - simpl in H. destruct (decide (a0 = a)) as [->|Hne].
    + rewrite lookup_insert_eq in H. injection H as ->. right. exists name0. left.
    + rewrite lookup_insert_ne in H by exact Hne. left. exact H.
  - right. exists name. right. exact H.
Qed.

Lemma idx_fold_is_Some (l : list (nat * (string * string))) a : forall m : gmap string nat,
  is_Some (foldl (fun m (p : nat * (string * string)) => <[p.2.2 := p.1]> m) m l !! a)
  <-> is_Some (m !! a) \/ a ∈ (l.*2).*2.
Proof.
  induction l as [|[i0 [name0 a0]] l IH]; intros m; simpl.
  - split; [tauto|]. intros [H|H]; [exact H|inversion H].
  - rewrite IH, elem_of_cons. simpl. destruct (decide (a0 = a)) as [->|Hne].
    + rewrite lookup_insert_eq. split; [intros _; right; left; reflexivity|eauto].
    + rewrite lookup_insert_ne by exact Hne.
      split; [tauto|]. intros [H|[H|H]]; [tauto|congruence|tauto].
Qed.

(** The index of an id is the position of an artist with that id. *)
Lemma artist_id_to_idx_Some artists a i :
  artist_id_to_idx artists !! a = Some i ->
  (i < length artists)%nat /\ exists name, artists !! i = Some (name, a).
Proof.
  unfold artist_id_to_idx. intros Hlook.
  destruct (idx_fold _ _ _ _ Hlook) as [H|(name & H)]; [rewrite lookup_empty in H; discriminate|].
  apply list_elem_of_lookup_1 in H as (k & Hk).
  apply lookup_zip_Some in Hk as [Hseq Hart].
  apply lookup_seq in Hseq as [-> Hlt]. simpl. split; [exact Hlt|]. eauto.
Qed.

Lemma artist_id_to_idx_is_Some artists a :
  is_Some (artist_id_to_idx artists !! a) <-> a ∈ artists.*2.
Proof.
  unfold artist_id_to_idx. rewrite idx_fold_is_Some, lookup_empty.
  rewrite snd_zip by (rewrite length_seq; lia).
  split; [intros [[? H]|H]; [discriminate|exact H]|tauto].
Qed.

(** The pair of indices [(i, j)] is that of a key of the items, in one
    order or the other. *)
Definition linked (idx_of : gmap string nat)
    (items : list ((string * string) * list string)) (i j : nat) : Prop :=
  exists artist1_id artist2_id tracks,
    ((artist1_id, artist2_id), tracks) ∈ items /\
    (idx_of !! artist1_id = Some i /\ idx_of !! artist2_id = Some j \/
     idx_of !! artist1_id = Some j /\ idx_of !! artist2_id = Some i).

Lemma linked_sym idx_of items i j : linked idx_of items i j -> linked idx_of items j i.
Proof.
  intros (a1 & a2 & tracks & Hin & Hor). exists a1, a2, tracks. split; [exact Hin|tauto].
Qed.

Lemma fill_matrix_spec n idx_of items : forall matrix,
  (forall a i, idx_of !! a = Some i -> (i < n)%nat) ->
  (forall artist1_id artist2_id tracks,
     ((artist1_id, artist2_id), tracks) ∈ items ->
     is_Some (idx_of !! artist1_id) /\ is_Some (idx_of !! artist2_id)) ->
  square n matrix ->
  exists result,
    fill_matrix idx_of items matrix = Returns result /\
    square n result /\
    forall i j,
      (entry result i j = Some 1%nat <->
       entry matrix i j = Some 1%nat \/ linked idx_of items i j) /\
      (entry result i j = Some 1%nat \/ entry result i j = entry matrix i j).
Proof.
  induction items as [|[[a1 a2] tracks] items IH]; intros matrix Hrange Hknown Hsq; simpl.
  - exists matrix. split; [reflexivity|]. split; [exact Hsq|]. intros i j. split; [|tauto].
    split; [tauto|]. intros [H|(b1 & b2 & tr & Hin & _)]; [exact H|inversion Hin].
  - destruct (Hknown a1 a2 tracks ltac:(left)) as [[idx1 H1] [idx2 H2]].
    rewrite H1, H2.
    pose proof (Hrange _ _ H1) as Hlt1. pose proof (Hrange _ _ H2) as Hlt2.
    pose proof (square_set_entry n matrix idx1 idx2 Hsq) as Hsq1.
    pose proof (square_set_entry n _ idx2 idx1 Hsq1) as Hsq2.
    destruct (IH (set_entry (set_entry matrix idx1 idx2) idx2 idx1) Hrange
                ltac:(intros b1 b2 tr Hin; apply (Hknown b1 b2 tr); right; exact Hin) Hsq2)
      as (result & Hrun & Hsq' & Hentries).
    exists result. split; [exact Hrun|]. split; [exact Hsq'|].
    intros i j. destruct (Hentries i j) as [Hiff Hor].
    rewrite (entry_set_entry n _ idx2 idx1 i j Hsq1 Hlt2 Hlt1) in Hiff, Hor.
    rewrite (entry_set_entry n _ idx1 idx2 i j Hsq Hlt1 Hlt2) in Hiff, Hor.
    split.
    + rewrite Hiff. split.
      * intros [H|(b1 & b2 & tr & Hin & Hlink)].
        { destruct (decide (i = idx2 /\ j = idx1)) as [[-> ->]|_].
          - right. exists a1, a2, tracks. split; [left|]. right. split; assumption.
          - destruct (decide (i = idx1 /\ j = idx2)) as [[-> ->]|_]; [|left; exact H].
            right. exists a1, a2, tracks. split; [left|]. left. split; assumption. }
        { right. exists b1, b2, tr. split; [right; exact Hin|exact Hlink]. }
      * intros [H|(b1 & b2 & tr & Hin & Hlink)].
        { left. destruct (decide (i = idx2 /\ j = idx1)); [reflexivity|].
          destruct (decide (i = idx1 /\ j = idx2)); [reflexivity|exact H]. }
        { apply elem_of_cons in Hin as [Heq|Hin].
          - injection Heq as -> -> ->. left.
            destruct Hlink as [[Hi Hj]|[Hj Hi]]; rewrite H1 in *; rewrite H2 in *;
              injection Hi as <-; injection Hj as <-.
            + destruct (decide (idx1 = idx2 /\ idx2 = idx1)); [reflexivity|].
              destruct (decide (idx1 = idx1 /\ idx2 = idx2)); [reflexivity|tauto].
            + destruct (decide (idx2 = idx2 /\ idx1 = idx1)); [reflexivity|tauto].
          - right. exists b1, b2, tr. split; assumption. }
    + destruct Hor as [H|H]; [left; exact H|].
      destruct (decide (i = idx2 /\ j = idx1)).
      * left. rewrite H. reflexivity.
      * destruct (decide (i = idx1 /\ j = idx2)); [left; rewrite H; reflexivity|].
        right. exact H.
Qed.

(** X29. [build_adjacency_matrix], given items whose keys hold ids of
    [artists] only, returns a square matrix over the roster with
    entries 0 and 1 that is symmetric; the entry at [(i, j)] is 1
    exactly when [i] and [j] are the indices, in [artist_id_to_idx],
    of the two artists of a key. *)
Theorem build_adjacency_matrix_symmetric
    (artists : list (string * string))
    (collaborations : list ((string * string) * list string)) :
  (forall artist1_id artist2_id tracks,
     ((artist1_id, artist2_id), tracks) ∈ collaborations ->
     artist1_id ∈ artists.*2 /\ artist2_id ∈ artists.*2) ->
  exists matrix,
    build_adjacency_matrix artists collaborations = Returns matrix /\
    square (length artists) matrix /\
    forall i j, (i < length artists)%nat -> (j < length artists)%nat ->
      (entry matrix i j = Some 1%nat \/ entry matrix i j = Some 0%nat) /\
      entry matrix i j = entry matrix j i /\
      (entry matrix i j = Some 1%nat <->
       linked (artist_id_to_idx artists) collaborations i j).
Proof.
  intros Hknown. unfold build_adjacency_matrix.
  destruct (fill_matrix_spec (length artists) (artist_id_to_idx artists) collaborations
              (replicate (length artists) (replicate (length artists) 0%nat)))
    as (matrix & Hrun & Hsq & Hentries).
  - intros a i Hlook. apply (artist_id_to_idx_Some _ _ _ Hlook).
  - intros a1 a2 tracks Hin. destruct (Hknown a1 a2 tracks Hin) as [H1 H2].
    split; apply artist_id_to_idx_is_Some; assumption.
  - apply square_zeros.
  - exists matrix. split; [exact Hrun|]. split; [exact Hsq|].
    assert (Hone : forall i j, (i < length artists)%nat -> (j < length artists)%nat ->
              (entry matrix i j = Some 1%nat <->
               linked (artist_id_to_idx artists) collaborations i j)).
    { intros i j Hi Hj. destruct (Hentries i j) as [Hiff _]. rewrite Hiff.
      rewrite entry_zeros by assumption. split; [intros [H|H]; [discriminate|exact H]|tauto]. }
    assert (Hbin : forall i j, (i < length artists)%nat -> (j < length artists)%nat ->
              entry matrix i j = Some 1%nat \/ entry matrix i j = Some 0%nat).
    { intros i j Hi Hj. destruct (Hentries i j) as [_ [H|H]]; [left; exact H|].
      right. rewrite H. apply entry_zeros; assumption. }
    intros i j Hi Hj. split; [apply Hbin; assumption|]. split; [|apply Hone; assumption].
    destruct (Hbin i j Hi Hj) as [Hij|Hij].
    + rewrite Hij. symmetry. apply Hone; [assumption..|].
      apply linked_sym. apply Hone; assumption.
    + destruct (Hbin j i Hj Hi) as [Hji|Hji]; [|congruence].
      exfalso. apply (Hone j i Hj Hi) in Hji. apply linked_sym in Hji.
      apply (Hone i j Hi Hj) in Hji. congruence.
Qed.

Example matrix_of_three :
  build_adjacency_matrix [("A", "a"); ("B", "b"); ("C", "c")] [(("a", "c"), ["Trio"])]
  = Returns [[0; 0; 1]; [0; 0; 0]; [1; 0; 0]]%nat.
Proof. vm_compute. reflexivity. Qed.

Example matrix_unknown_artist :
  build_adjacency_matrix [("A", "a")] [(("a", "c"), ["Trio"])] = Raises (KeyError "c").
Proof. vm_compute. reflexivity. Qed.

Lemma build_adjacency_matrix_symmetric_witness :
  exists matrix,
    build_adjacency_matrix [("A", "a"); ("B", "b"); ("C", "c")] [(("a", "c"), ["Trio"])]
      = Returns matrix /\
    square 3 matrix /\
    forall i j, (i < 3)%nat -> (j < 3)%nat ->
      (entry matrix i j = Some 1%nat \/ entry matrix i j = Some 0%nat) /\
      entry matrix i j = entry matrix j i /\
      (entry matrix i j = Some 1%nat <->
       linked (artist_id_to_idx [("A", "a"); ("B", "b"); ("C", "c")])
              [(("a", "c"), ["Trio"])] i j).
Proof.
  apply (build_adjacency_matrix_symmetric [("A", "a"); ("B", "b"); ("C", "c")]
           [(("a", "c"), ["Trio"])]).
  intros artist1_id artist2_id tracks Hin. apply list_elem_of_In in Hin.
  destruct Hin as [Hin|[]]. injection Hin as <- <- <-.
  split; apply list_elem_of_In; simpl; tauto.
Defined.

(** ** Ego mode: a rerun after Ctrl+C *)

(** The line [csv.DictWriter] writes for a row of the pipeline. *)
Definition row_line (r : row) : list string :=
  map (fun k => default "" (dict_get k r)) FIELDNAMES.

(** The file holds a line whose primary artist id is [artist_id]. *)
Definition has_line (file_lines : list (list string)) (artist_id : string) : bool :=
  existsb (fun line => bool_decide (primary_of line = Some artist_id)) file_lines.

Lemma has_line_true file_lines artist_id :
  has_line file_lines artist_id = true <->
  exists line, line ∈ file_lines /\ primary_of line = Some artist_id.
Proof.
  unfold has_line. rewrite existsb_exists. split.
  - intros (line & Hin & Hb). exists line. split; [apply list_elem_of_In; exact Hin|].
    apply bool_decide_eq_true in Hb. exact Hb.
  - intros (line & Hin & Hp). exists line. split; [apply list_elem_of_In; exact Hin|].
    apply bool_decide_eq_true. exact Hp.
Qed.

Lemma has_line_app l1 l2 artist_id :
  has_line (l1 ++ l2) artist_id = has_line l1 artist_id || has_line l2 artist_id.
Proof. unfold has_line. apply existsb_app. Qed.

(** The processed set read from a file of the pipeline marks the
    artists that have a line in it. *)
Lemma processed_has_line d artist_id :
  pipeline_file d -> artist_id <> "" ->
  bool_decide (artist_id ∈ load_already_processed_artists d)
  = has_line (csv_lines d) artist_id.
Proof.
  intros Hwf Hne. destruct (has_line (csv_lines d) artist_id) eqn:Hhas.
  - apply bool_decide_eq_true. apply (load_already_processed_spec _ _ Hwf).
    split; [exact Hne|]. apply has_line_true. exact Hhas.
  - apply bool_decide_eq_false. intros Hin.
    apply (load_already_processed_spec _ _ Hwf) in Hin as [_ Hin].
    apply has_line_true in Hin. congruence.
Qed.

Lemma row_line_collab_row name artist_id c :
  row_line (collab_row name artist_id c) = written_line name artist_id c.
Proof. reflexivity. Qed.

Lemma row_lines_collab_rows name artist_id cs :
  map row_line (map (collab_row name artist_id) cs) = map (written_line name artist_id) cs.
Proof. rewrite map_map. apply map_ext. intros c. apply row_line_collab_row. Qed.

Lemma interrupted_append_spec name artist_id cs n d :
  pipeline_file d ->
  let d' := interrupted_append (map (collab_row name artist_id) cs) n d in
  pipeline_file d' /\
  csv_lines d' = csv_lines d ++ take n (map (written_line name artist_id) cs).
Proof.
  intros Hwf. destruct cs as [|c cs]; [simpl; rewrite take_nil, app_nil_r; tauto|].
  assert (Ht : take n (collab_row name artist_id c :: map (collab_row name artist_id) cs)
               = map (collab_row name artist_id) (take n (c :: cs))).
  { exact (firstn_map (collab_row name artist_id) n (c :: cs)). }
  cbv zeta. unfold interrupted_append.
  change (map (collab_row name artist_id) (c :: cs))
    with (collab_row name artist_id c :: map (collab_row name artist_id) cs).
  cbv iota beta. rewrite Ht, firstn_map.
  destruct (take n (c :: cs)) as [|c' cs'].
  - simpl. rewrite app_nil_r. destruct d as [f|]; [split; [exact Hwf|reflexivity]|].
    split; reflexivity.
  - assert (Hgoal : pipeline_file (append_collaborators_to_csv
                        (map (collab_row name artist_id) (c' :: cs')) d) /\
                    csv_lines (append_collaborators_to_csv
                        (map (collab_row name artist_id) (c' :: cs')) d)
                    = csv_lines d ++ map (written_line name artist_id) (c' :: cs')).
    { apply append_collaborators_spec. exact Hwf. }
    destruct d as [f|]; exact Hgoal.
Qed.

Section SignalledRuns.
Variable lower : string -> string.
Variable fuel : nat.
Variable world : nat -> api.

(** The lines of the rows the harvest of an artist returns. *)
Definition harvest_lines (srv : api) (a : string * string) : list (list string) :=
  match get_collaborators_for_artist_id lower fuel srv a.1 a.2 with
  | Some (Returns rows) => map row_line rows
  | _ => []
  end.

(** The lines of the harvests of a roster, in the order of the roster,
    the artists that [skip] marks left out; artist number [idx] first. *)
Fixpoint roster_lines (skip : string -> bool) (idx : nat)
    (artists : list (string * string)) : list (list string) :=
  match artists with
  | [] => []
  | a :: rest =>
      (if skip a.2 then [] else harvest_lines (world idx) a)
      ++ roster_lines skip (S idx) rest
  end.

Lemma harvest_lines_written srv name artist_id line :
  line ∈ harvest_lines srv (name, artist_id) ->
  exists c, line = written_line name artist_id c.
Proof.
  unfold harvest_lines. simpl.
  destruct (get_collaborators_for_artist_id lower fuel srv name artist_id)
    as [[rows|e]|] eqn:Hharvest; [|intros H; inversion H..].
  destruct (get_collaborators_rows _ _ _ _ _ _ Hharvest) as (tracks & ->).
  rewrite row_lines_collab_rows. intros Hin.
  apply list_elem_of_fmap in Hin as (c & -> & _). eauto.
Qed.

Lemma roster_lines_ext skip skip' artists : forall idx,
  (forall a, a ∈ artists -> skip a.2 = skip' a.2) ->
  roster_lines skip idx artists = roster_lines skip' idx artists.
Proof.
  induction artists as [|a rest IH]; intros idx Hsame; simpl; [reflexivity|].
  rewrite (Hsame a) by left. f_equal. apply IH. intros a' Hin. apply Hsame. right. exact Hin.
Qed.

Lemma elem_of_roster_lines skip artists line : forall idx,
  line ∈ roster_lines skip idx artists ->
  exists i a,
    artists !! i = Some a /\ skip a.2 = false /\
    line ∈ harvest_lines (world (idx + i)) a.
Proof.
  induction artists as [|a rest IH]; intros idx Hin; simpl in Hin; [inversion Hin|].
  apply elem_of_app in Hin as [Hin|Hin].
  - destruct (skip a.2) eqn:Hskip; [inversion Hin|].
    exists 0%nat, a. rewrite Nat.add_0_r. repeat split; assumption.
  - destruct (IH _ Hin) as (i & a' & Hi & Hskip & Hline).
    exists (S i), a'. replace (idx + S i)%nat with (S idx + i)%nat by lia.
    repeat split; assumption.
Qed.

Lemma roster_lines_intro skip artists line i a : forall idx,
  artists !! i = Some a -> skip a.2 = false ->
  line ∈ harvest_lines (world (idx + i)) a ->
  line ∈ roster_lines skip idx artists.
Proof.
  revert i. induction artists as [|a0 rest IH]; intros i idx Hi Hskip Hline; [inversion Hi|].
  simpl. apply elem_of_app. destruct i as [|i].
  - simpl in Hi. injection Hi as ->. left. rewrite Hskip.
    rewrite Nat.add_0_r in Hline. exact Hline.
  - right. apply (IH i); [exact Hi|exact Hskip|].
    replace (S idx + i)%nat with (idx + S i)%nat by lia. exact Hline.
Qed.

Variable signals : nat -> option interrupt.

(** What a run of the loop with interrupts leaves: the lines of the
    harvests of the first [q] artists that were not processed, then
    the lines that were written of the artist at which it stopped. *)
Definition signalled_spec (artists : list (string * string)) (idx : nat)
    (P : gset string) (d : option csv_file) (log : list nat)
    (r : interrupted_run) : Prop :=
  pipeline_file (file_left r) /\
  exists q partial lognew,
    csv_lines (file_left r)
    = csv_lines d
      ++ roster_lines (fun artist_id => bool_decide (artist_id ∈ P)) idx (take q artists)
      ++ partial /\
    harvest_log r = log ++ lognew /\
    (forall j, j ∈ lognew ->
       exists i a, j = (idx + i)%nat /\ artists !! i = Some a /\ a.2 ∉ P) /\
    match how r with
    | Finished =>
        q = length artists /\ partial = [] /\
        forall i a, artists !! i = Some a -> a.2 ∉ P -> (idx + i)%nat ∈ lognew
    | CaughtCtrlC j =>
        j = (idx + q)%nat /\
        exists a m,
          artists !! q = Some a /\ a.2 ∉ P /\
          partial = take m (harvest_lines (world j) a)
    | UncaughtCtrlC j | Unfinished j =>
        j = (idx + q)%nat /\ (q < length artists)%nat /\ partial = []
    end.

Lemma signalled_spec_cons name0 id0 rest idx P P' d d' log first r :
  NoDup ((name0, id0) :: rest).*2 ->
  P ⊆ P' ->
  (forall x, x ∈ P' -> x ∈ P \/ x = id0) ->
  csv_lines d' = csv_lines d ++
    (if bool_decide (id0 ∈ P) then [] else harvest_lines (world idx) (name0, id0)) ->
  (first = [] /\ id0 ∈ P \/ first = [idx] /\ id0 ∉ P) ->
  signalled_spec rest (S idx) P' d' (log ++ first) r ->
  signalled_spec ((name0, id0) :: rest) idx P d log r.
Proof.
  intros Hnd Hsub HP' Hlines Hfirst (Hwf & q & partial & lognew & Hfile & Hlog & Hnew & Hhow).
  simpl in Hnd. apply NoDup_cons in Hnd as [Hfresh Hnd].
  assert (Hother : forall a, a ∈ rest -> a.2 <> id0).
  { intros a Hin Heq. apply Hfresh. apply list_elem_of_fmap. exists a.
    split; [symmetry; exact Heq|exact Hin]. }
  assert (Hsame : forall a, a ∈ rest -> a.2 ∉ P -> a.2 ∉ P').
  { intros a Hin Hout HinP'. destruct (HP' _ HinP') as [H|H]; [contradiction|].
    apply (Hother a Hin H). }
  split; [exact Hwf|]. exists (S q), partial, (first ++ lognew).
  split; [|split; [|split]].
  - rewrite Hfile, Hlines. simpl. rewrite <- !app_assoc. do 2 f_equal.
    f_equal. apply roster_lines_ext. intros a Hin.
    apply elem_of_take in Hin as (i & Hi & _). apply list_elem_of_lookup_2 in Hi.
    destruct (decide (a.2 ∈ P)) as [HinP|HoutP].
    + rewrite !bool_decide_eq_true_2; [reflexivity|exact HinP|apply Hsub; exact HinP].
    + rewrite !bool_decide_eq_false_2; [reflexivity|exact HoutP|apply Hsame; assumption].
  - rewrite Hlog, <- app_assoc. reflexivity.
  - intros j Hj. apply elem_of_app in Hj as [Hj|Hj].
    + destruct Hfirst as [[-> _]|[-> Hout]]; [inversion Hj|].
      apply list_elem_of_singleton in Hj. subst j.
      exists 0%nat, (name0, id0). rewrite Nat.add_0_r. repeat split. exact Hout.
    + destruct (Hnew j Hj) as (i & a & -> & Hi & Hout).
      exists (S i), a. split; [lia|]. split; [exact Hi|]. intros HinP. apply Hout, Hsub, HinP.
  - destruct (how r) as [|j|j|j].
    + destruct Hhow as (-> & -> & Hall). split; [reflexivity|]. split; [reflexivity|].
      intros [|i] a Hi Hout.
      * simpl in Hi. injection Hi as <-. simpl in Hout.
        destruct Hfirst as [[_ Hin]|[-> _]]; [contradiction|].
        rewrite Nat.add_0_r. apply elem_of_app. left. left.
      * simpl in Hi. apply elem_of_app. right.
        replace (idx + S i)%nat with (S idx + i)%nat by lia.
        apply (Hall i a Hi). apply Hsame; [|exact Hout].
        apply (list_elem_of_lookup_2 _ _ _ Hi).
    + destruct Hhow as (-> & a & m & Hq & Hout & Hpartial). split; [lia|].
      exists a, m. split; [exact Hq|]. split; [intros HinP; apply Hout, Hsub, HinP|].
      replace (idx + S q)%nat with (S idx + q)%nat by lia. exact Hpartial.
    + destruct Hhow as (-> & Hq & ->). split; [lia|]. split; [simpl; lia|reflexivity].
    + destruct Hhow as (-> & Hq & ->). split; [lia|]. split; [simpl; lia|reflexivity].
Qed.

(** The run stops in the iteration of the first artist. *)
Lemma signalled_spec_stop name0 id0 rest idx P d d' log m :
  pipeline_file d' -> id0 ∉ P ->
  csv_lines d' = csv_lines d ++ take m (harvest_lines (world idx) (name0, id0)) ->
  signalled_spec ((name0, id0) :: rest) idx P d log
    (InterruptedRun d' (log ++ [idx]) (CaughtCtrlC idx)).
Proof.
  intros Hwf Hout Hlines. split; [exact Hwf|].
  exists 0%nat, (take m (harvest_lines (world idx) (name0, id0))), [idx].
  split; [exact Hlines|]. split; [reflexivity|]. split.
  - intros j Hj. apply list_elem_of_singleton in Hj. subst j.
    exists 0%nat, (name0, id0). rewrite Nat.add_0_r. repeat split. exact Hout.
  - simpl. split; [lia|]. exists (name0, id0), m. repeat split. exact Hout.
Qed.

Lemma signalled_loop_spec artists : forall idx P d log,
  NoDup artists.*2 ->
  pipeline_file d ->
  signalled_spec artists idx P d log
    (signalled_loop lower fuel world signals artists idx P d log).
Proof.
  induction artists as [|[name0 id0] rest IH]; intros idx P d log Hnd Hwf.
  - split; [exact Hwf|]. exists 0%nat, [], []. simpl.
    split; [rewrite !app_nil_r; reflexivity|]. split; [rewrite app_nil_r; reflexivity|].
    split; [intros j Hj; inversion Hj|]. split; [reflexivity|]. split; [reflexivity|].
    intros i a Hi. inversion Hi.
  - pose proof Hnd as Hnd'. simpl in Hnd'. apply NoDup_cons in Hnd' as [_ Hndrest].
    assert (Hskip : id0 ∈ P ->
              signalled_spec ((name0, id0) :: rest) idx P d log
                (signalled_loop lower fuel world signals rest (S idx) P d log)).
    { intros Hin.
      apply (signalled_spec_cons name0 id0 rest idx P P d d log []);
        [exact Hnd|set_solver|tauto| | |].
      - rewrite bool_decide_eq_true_2 by exact Hin. rewrite app_nil_r. reflexivity.
      - left. split; [reflexivity|exact Hin].
      - rewrite app_nil_r. apply IH; assumption. }
    assert (Hhead : signalled_spec ((name0, id0) :: rest) idx P d log
                      (InterruptedRun d log (UncaughtCtrlC idx))).
    { split; [exact Hwf|]. exists 0%nat, [], []. simpl.
      split; [rewrite !app_nil_r; reflexivity|]. split; [rewrite app_nil_r; reflexivity|].
      split; [intros j Hj; inversion Hj|]. split; [lia|]. split; [lia|reflexivity]. }
    assert (Hbreak : id0 ∉ P ->
              signalled_spec ((name0, id0) :: rest) idx P d log
                (InterruptedRun d (log ++ [idx]) (CaughtCtrlC idx))).
    { intros Hout. apply (signalled_spec_stop name0 id0 rest idx P d d log 0);
        [exact Hwf|exact Hout|]. rewrite take_0, app_nil_r. reflexivity. }
    assert (Hdiverge : id0 ∉ P ->
              signalled_spec ((name0, id0) :: rest) idx P d log
                (InterruptedRun d (log ++ [idx]) (Unfinished idx))).
    { intros Hout. split; [exact Hwf|]. exists 0%nat, [], [idx]. simpl.
      split; [rewrite !app_nil_r; reflexivity|]. split; [reflexivity|].
      split; [|split; [lia|split; [lia|reflexivity]]].
      intros j Hj. apply list_elem_of_singleton in Hj. subst j.
      exists 0%nat, (name0, id0). rewrite Nat.add_0_r. repeat split. exact Hout. }
    assert (Hfailed : forall e, id0 ∉ P ->
              get_collaborators_for_artist_id lower fuel (world idx) name0 id0
                = Some (Raises e) ->
              signalled_spec ((name0, id0) :: rest) idx P d log
                (signalled_loop lower fuel world signals rest (S idx) P d (log ++ [idx]))).
    { intros e Hout Hharvest.
      apply (signalled_spec_cons name0 id0 rest idx P P d d log [idx]);
        [exact Hnd|set_solver|tauto| | |].
      - rewrite bool_decide_eq_false_2 by exact Hout.
        unfold harvest_lines. simpl. rewrite Hharvest, app_nil_r. reflexivity.
      - right. split; [reflexivity|exact Hout].
      - apply IH; assumption. }
    assert (Hwritten : forall cs, id0 ∉ P ->
              get_collaborators_for_artist_id lower fuel (world idx) name0 id0
                = Some (Returns (map (collab_row name0 id0) cs)) ->
              harvest_lines (world idx) (name0, id0) = map (written_line name0 id0) cs).
    { intros cs Hout Hharvest. unfold harvest_lines. simpl.
      rewrite Hharvest. apply row_lines_collab_rows. }
    assert (Hdone : forall cs, id0 ∉ P ->
              get_collaborators_for_artist_id lower fuel (world idx) name0 id0
                = Some (Returns (map (collab_row name0 id0) cs)) ->
              signalled_spec ((name0, id0) :: rest) idx P d log
                (signalled_loop lower fuel world signals rest (S idx) ({[id0]} ∪ P)
                   (append_collaborators_to_csv (map (collab_row name0 id0) cs) d)
                   (log ++ [idx]))).
    { intros cs Hout Hharvest.
      destruct (append_collaborators_spec name0 id0 cs d Hwf) as [Hwf' Hlines].
      apply (signalled_spec_cons name0 id0 rest idx P ({[id0]} ∪ P) d
               (append_collaborators_to_csv (map (collab_row name0 id0) cs) d) log [idx]);
        [exact Hnd|set_solver|set_solver| | |].
      - rewrite bool_decide_eq_false_2 by exact Hout.
        rewrite (Hwritten cs Hout Hharvest). exact Hlines.
      - right. split; [reflexivity|exact Hout].
      - apply IH; assumption. }
    assert (Hpartial : forall cs m, id0 ∉ P ->
              get_collaborators_for_artist_id lower fuel (world idx) name0 id0
                = Some (Returns (map (collab_row name0 id0) cs)) ->
              signalled_spec ((name0, id0) :: rest) idx P d log
                (InterruptedRun (interrupted_append (map (collab_row name0 id0) cs) m d)
                   (log ++ [idx]) (CaughtCtrlC idx))).
    { intros cs m Hout Hharvest.
      destruct (interrupted_append_spec name0 id0 cs m d Hwf) as [Hwf' Hlines].
      apply (signalled_spec_stop name0 id0 rest idx P d _ log m); [exact Hwf'|exact Hout|].
      rewrite (Hwritten cs Hout Hharvest). exact Hlines. }
    assert (Hwhole : forall cs, id0 ∉ P ->
              get_collaborators_for_artist_id lower fuel (world idx) name0 id0
                = Some (Returns (map (collab_row name0 id0) cs)) ->
              signalled_spec ((name0, id0) :: rest) idx P d log
                (InterruptedRun (append_collaborators_to_csv (map (collab_row name0 id0) cs) d)
                   (log ++ [idx]) (CaughtCtrlC idx))).
    { intros cs Hout Hharvest.
      destruct (append_collaborators_spec name0 id0 cs d Hwf) as [Hwf' Hlines].
      apply (signalled_spec_stop name0 id0 rest idx P d _ log (length cs));
        [exact Hwf'|exact Hout|].
      rewrite (Hwritten cs Hout Hharvest), Hlines. f_equal.
      rewrite take_ge by (rewrite length_map; lia). reflexivity. }
    simpl.
    destruct (signals idx) as [[| |m|]|]; [exact Hhead|..];
      (destruct (decide (id0 ∈ P)) as [Hin|Hout]; [apply Hskip; exact Hin|]);
      try (apply Hbreak; exact Hout);
      (destruct (get_collaborators_for_artist_id lower fuel (world idx) name0 id0)
         as [[collabs|e]|] eqn:Hharvest;
       [destruct (get_collaborators_rows _ _ _ _ _ _ Hharvest) as (tracks & ->)
       |destruct (is_Exception e);
          [apply (Hfailed e Hout eq_refl)|apply Hbreak; exact Hout]
       |apply Hdiverge; exact Hout]).
    + apply (Hpartial _ m Hout eq_refl).
    + apply (Hwhole _ Hout eq_refl).
    + apply (Hdone _ Hout eq_refl).
Qed.
End SignalledRuns.

(** Without interrupts other than those the API raises, the run is the
    run of [main]. *)
Lemma signalled_loop_quiet lower fuel world signals artists : forall idx P d log,
  (forall i, signals i = None) ->
  signalled_loop lower fuel world signals artists idx P d log
  = let r := main_loop lower fuel world artists idx P d log in
    InterruptedRun (final_csv r) (harvested r)
      match ending r with
      | Completed => Finished
      | Interrupted j => CaughtCtrlC j
      | Diverged j => Unfinished j
      end.
Proof.
  induction artists as [|[name0 id0] rest IH]; intros idx P d log Hquiet; simpl; [reflexivity|].
  rewrite (Hquiet idx).
  destruct (decide (id0 ∈ P)); [apply IH; exact Hquiet|].
  destruct (get_collaborators_for_artist_id lower fuel (world idx) name0 id0)
    as [[collabs|e]|]; [apply IH; exact Hquiet| |reflexivity].
  destruct (is_Exception e); [apply IH; exact Hquiet|reflexivity].
Qed.

Lemma main_with_interrupts_quiet lower fuel world signals input_csv output_csv :
  (forall i, signals i = None) ->
  main_with_interrupts lower fuel world signals input_csv output_csv
  = let r := main lower fuel world input_csv output_csv in
    InterruptedRun (final_csv r) (harvested r)
      match ending r with
      | Completed => Finished
      | Interrupted j => CaughtCtrlC j
      | Diverged j => Unfinished j
      end.
Proof.
  intros Hquiet. unfold main_with_interrupts, main. apply signalled_loop_quiet. exact Hquiet.
Qed.

Lemma NoDup_ids_lookup (artists : list (string * string)) i j a b :
  NoDup artists.*2 ->
  artists !! i = Some a -> artists !! j = Some b -> a.2 = b.2 ->
  i = j.
Proof.
  intros Hnd Hi Hj Heq.
  apply (NoDup_lookup _ i j a.2 Hnd).
  - rewrite list_lookup_fmap, Hi. reflexivity.
  - rewrite list_lookup_fmap, Hj, Heq. reflexivity.
Qed.

Lemma harvest_lines_primary lower fuel srv a line :
  line ∈ harvest_lines lower fuel srv a -> primary_of line = Some a.2.
Proof.
  destruct a as [name artist_id]. intros Hin.
  destruct (harvest_lines_written _ _ _ _ _ _ Hin) as (c & ->). apply primary_of_written.
Qed.

(** C9. The roster read from the input has pairwise different artist
    ids. A first run, started without an output file, is ended by
    Ctrl+C in the iteration of artist [k + 1], at whatever point; a
    second run, with interrupts of its own, is started on the same
    input and the file the first one left. Then the file the first run
    left holds the lines of the harvests of the artists [1..k], in
    order, followed by the lines [partial] it had written of artist
    [k + 1], a prefix of the lines of that artist's harvest; an artist
    has a line in it exactly when it is one of [1..k] with a harvest
    that returned rows, or artist [k + 1] with [partial] not empty.
    After the second run the file is these lines, unchanged and in
    place, followed by new lines, each a line that a harvest of the
    second run returned for an artist that had no line; an artist that
    had a line is not harvested again. When the second run reaches
    the end of the roster, the new lines are the lines of the harvests
    of all artists that had no line, in order, and each of them was
    harvested. *)
Theorem rerun_after_ctrl_c
    (lower : string -> string) (fuel : nat) (world1 world2 : nat -> api)
    (signals1 signals2 : nat -> option interrupt)
    (input_csv : csv_file) (k : nat) :
  let artists := load_artists_from_input input_csv in
  let run1 := main_with_interrupts lower fuel world1 signals1 input_csv None in
  let old := csv_lines (file_left run1) in
  let run2 := main_with_interrupts lower fuel world2 signals2 input_csv (file_left run1) in
  NoDup artists.*2 ->
  how run1 = CaughtCtrlC (S k) \/ how run1 = UncaughtCtrlC (S k) ->
  exists next partial m,
    artists !! k = Some next /\
    partial = take m (harvest_lines lower fuel (world1 (S k)) next) /\
    old = roster_lines lower fuel world1 (fun _ => false) 1 (take k artists) ++ partial /\
    (forall j a, artists !! j = Some a ->
       (has_line old a.2 = true <->
        (j < k)%nat /\ harvest_lines lower fuel (world1 (S j)) a <> [] \/
        j = k /\ partial <> [])) /\
    (exists new,
       csv_lines (file_left run2) = old ++ new /\
       (forall line, line ∈ new ->
          exists j a,
            artists !! j = Some a /\ has_line old a.2 = false /\
            line ∈ harvest_lines lower fuel (world2 (S j)) a) /\
       (how run2 = Finished ->
        new = roster_lines lower fuel world2 (has_line old) 1 artists)) /\
    (forall j a, artists !! j = Some a -> has_line old a.2 = true ->
       S j ∉ harvest_log run2) /\
    (how run2 = Finished ->
     forall j a, artists !! j = Some a -> has_line old a.2 = false ->
       S j ∈ harvest_log run2).
Proof.
  intros artists run1 old run2 Hnd Hstop.
  (* the first run *)
  destruct (signalled_loop_spec lower fuel world1 signals1 artists 1 ∅ None [] Hnd I)
    as (Hwf1 & q1 & partial & lognew1 & Hfile1 & _ & _ & Hhow1).
  change (signalled_loop lower fuel world1 signals1 artists 1 ∅ None []) with run1 in *.
  fold old in Hfile1. simpl in Hfile1.
  assert (Hold : exists next m,
            q1 = k /\ artists !! k = Some next /\
            partial = take m (harvest_lines lower fuel (world1 (S k)) next)).
  { destruct Hstop as [Hs|Hs]; rewrite Hs in Hhow1.
    - destruct Hhow1 as (Hj & a & m & Ha & _ & Hp).
      assert (q1 = k) by lia. subst q1. exists a, m. repeat split; assumption.
    - destruct Hhow1 as (Hj & Hlt & ->).
      assert (q1 = k) by lia. subst q1.
      destruct (lookup_lt_is_Some_2 artists k Hlt) as (a & Ha).
      exists a, 0%nat. rewrite take_0. repeat split; assumption. }
  destruct Hold as (next & m & -> & Hnext & Hpartial).
  assert (Hold : old = roster_lines lower fuel world1 (fun _ => false) 1 (take k artists)
                       ++ partial).
  { rewrite Hfile1. reflexivity. }
  assert (Hfilled : forall j a, artists !! j = Some a -> a.2 <> "").
  { intros j [name artist_id] Hj. apply list_elem_of_lookup_2 in Hj.
    apply (load_artists_from_input_filled input_csv name artist_id Hj). }
  assert (Hmark : forall j a, artists !! j = Some a ->
            bool_decide (a.2 ∈ load_already_processed_artists (file_left run1))
            = has_line old a.2).
  { intros j a Hj. apply processed_has_line; [exact Hwf1|apply (Hfilled j a Hj)]. }
  assert (Hlines : forall j a, artists !! j = Some a ->
            (has_line old a.2 = true <->
             (j < k)%nat /\ harvest_lines lower fuel (world1 (S j)) a <> [] \/
             j = k /\ partial <> [])).
  { intros j a Hj. rewrite has_line_true. split.
    - intros (line & Hin & Hprim). rewrite Hold in Hin.
      apply elem_of_app in Hin as [Hin|Hin].
      + apply elem_of_roster_lines in Hin as (i & a' & Hi & _ & Hline).
        apply lookup_take_Some in Hi as [Hi Hlt].
        pose proof (harvest_lines_primary _ _ _ _ _ Hline) as Hprim'.
        assert (i = j).
        { apply (NoDup_ids_lookup artists i j a' a Hnd Hi Hj). congruence. }
        subst i. assert (a' = a) by congruence. subst a'.
        left. split; [exact Hlt|]. intros Hnil. simpl in Hline. rewrite Hnil in Hline.
        inversion Hline.
      + right. split.
        * rewrite Hpartial in Hin. apply elem_of_take in Hin as (i & Hi & _).
          apply list_elem_of_lookup_2 in Hi.
          pose proof (harvest_lines_primary _ _ _ _ _ Hi) as Hprim'.
          apply (NoDup_ids_lookup artists j k a next Hnd Hj Hnext). congruence.
        * intros Hnil. rewrite Hnil in Hin. inversion Hin.
    - intros [[Hlt Hne]|[-> Hne]].
      + destruct (harvest_lines lower fuel (world1 (S j)) a) as [|line ls] eqn:Hh;
          [contradiction|].
        exists line. split.
        * rewrite Hold. apply elem_of_app. left.
          apply (roster_lines_intro lower fuel world1 _ _ line j a 1);
            [apply lookup_take_Some; split; assumption|reflexivity|].
          simpl. rewrite Hh. left.
        * apply (harvest_lines_primary lower fuel (world1 (S j)) a). rewrite Hh. left.
      + assert (a = next) by congruence. subst a.
        destruct partial as [|line ls] eqn:Hp; [contradiction|].
        exists line. split.
        * rewrite Hold. apply elem_of_app. right. left.
        * apply (harvest_lines_primary lower fuel (world1 (S k)) next).
          assert (Hin : line ∈ take m (harvest_lines lower fuel (world1 (S k)) next)).
          { rewrite <- Hpartial. left. }
          apply elem_of_take in Hin as (i & Hi & _).
          apply (list_elem_of_lookup_2 _ _ _ Hi). }
  (* the second run *)
  destruct (signalled_loop_spec lower fuel world2 signals2 artists 1
              (load_already_processed_artists (file_left run1)) (file_left run1) [] Hnd Hwf1)
    as (_ & q2 & partial2 & lognew2 & Hfile2 & Hlog2 & Hnew2 & Hhow2).
  change (signalled_loop lower fuel world2 signals2 artists 1
            (load_already_processed_artists (file_left run1)) (file_left run1) [])
    with run2 in *.
  fold old in Hfile2. simpl in Hlog2.
  exists next, partial, m.
  split; [exact Hnext|]. split; [exact Hpartial|]. split; [exact Hold|].
  split; [exact Hlines|]. split; [|split].
  - exists (roster_lines lower fuel world2
              (fun artist_id =>
                 bool_decide (artist_id ∈ load_already_processed_artists (file_left run1)))
              1 (take q2 artists) ++ partial2).
    split; [exact Hfile2|]. split.
    + intros line Hin. apply elem_of_app in Hin as [Hin|Hin].
      * apply elem_of_roster_lines in Hin as (i & a & Hi & Hskip & Hline).
        apply lookup_take_Some in Hi as [Hi _].
        exists i, a. split; [exact Hi|]. split; [|exact Hline].
        rewrite <- (Hmark i a Hi). exact Hskip.
      * destruct (how run2) as [|j|j|j].
        { destruct Hhow2 as (_ & -> & _). inversion Hin. }
        { destruct Hhow2 as (-> & a & m2 & Ha & Hout & ->).
          exists q2, a. split; [exact Ha|]. split.
          - rewrite <- (Hmark q2 a Ha). apply bool_decide_eq_false_2. exact Hout.
          - apply elem_of_take in Hin as (i & Hi & _).
            apply (list_elem_of_lookup_2 _ _ _ Hi). }
        { destruct Hhow2 as (_ & _ & ->). inversion Hin. }
        { destruct Hhow2 as (_ & _ & ->). inversion Hin. }
    + intros Hfin. rewrite Hfin in Hhow2. destruct Hhow2 as (-> & -> & _).
      rewrite app_nil_r, take_ge by lia. apply roster_lines_ext.
      intros a Hin. apply list_elem_of_lookup_1 in Hin as (i & Hi). apply (Hmark i a Hi).
  - intros j a Hj Hhas Hin. rewrite Hlog2 in Hin.
    destruct (Hnew2 _ Hin) as (i & a' & Heq & Hi & Hout).
    assert (i = j) by lia. subst i. assert (a' = a) by congruence. subst a'.
    rewrite <- (Hmark j a Hj) in Hhas. apply bool_decide_eq_true in Hhas. contradiction.
  - intros Hfin j a Hj Hhas. rewrite Hfin in Hhow2. destruct Hhow2 as (_ & _ & Hall).
    rewrite Hlog2. apply (Hall j a Hj).
    rewrite <- (Hmark j a Hj) in Hhas. apply bool_decide_eq_false in Hhas. exact Hhas.
Qed.

(** The second artist of the roster has two collaborators; in the
    first run Ctrl+C arrives when one of its two rows is written. *)
Definition track_of_q : track :=
  Track (Some "t5") "W" [Artist (Some "q") "Q"; Artist (Some "c") "C"; Artist (Some "d") "D"].

Definition cut_world (idx : nat) : api :=
  match idx with
  | 2%nat => Api (fun _ => Returns (Some (Page [Album "q1" "One"] false)))
                 (fun _ _ => Returns (Some (Page [track_of_q] false)))
  | _ => two_shared_tracks
  end.

Definition cut_signals (idx : nat) : option interrupt :=
  match idx with
  | 2%nat => Some (InAppend 1)
  | _ => None
  end.

Definition no_signals (idx : nat) : option interrupt := None.

(** The claim fails there: the first run completed artist 1 and was
    interrupted in artist 2, whose harvest returns two rows in either
    run; the rerun reaches the end of the roster without processing
    artist 2, and the second row of artist 2 is never written. *)
Lemma ctrl_c_while_writing_loses_rows :
  let run1 := main_with_interrupts ascii_lower 2 cut_world cut_signals roster_csv None in
  let run2 :=
    main_with_interrupts ascii_lower 2 cut_world no_signals roster_csv (file_left run1) in
  how run1 = CaughtCtrlC 2 /\
  harvest_log run1 = [1; 2]%nat /\
  harvest_lines ascii_lower 2 (cut_world 2) ("Q", "q")
    = [["Q"; "q"; "c"; "C"]; ["Q"; "q"; "d"; "D"]] /\
  how run2 = Finished /\
  ~ (forall j, (1 < j <= 3)%nat -> j ∈ harvest_log run2) /\
  ["Q"; "q"; "d"; "D"] ∉ csv_lines (file_left run2).
Proof.
  vm_compute. repeat split.
  - intros Hall. specialize (Hall 2%nat ltac:(lia)).
    apply list_elem_of_In in Hall. simpl in Hall. destruct Hall as [H|[]]. discriminate H.
  - intros Hin. apply list_elem_of_In in Hin. simpl in Hin.
    destruct Hin as [H|[H|[]]]; discriminate H.
Qed.

Example cut_runs :
  let run1 := main_with_interrupts ascii_lower 2 cut_world cut_signals roster_csv None in
  let run2 :=
    main_with_interrupts ascii_lower 2 cut_world no_signals roster_csv (file_left run1) in
  run1 = InterruptedRun (Some (CsvFile FIELDNAMES [["P"; "p"; "c"; "C"]; ["Q"; "q"; "c"; "C"]]))
           [1; 2]%nat (CaughtCtrlC 2) /\
  run2 = InterruptedRun (Some (CsvFile FIELDNAMES [["P"; "p"; "c"; "C"]; ["Q"; "q"; "c"; "C"]]))
           [3]%nat Finished.
Proof. vm_compute. split; reflexivity. Qed.

Lemma rerun_after_ctrl_c_witness :
  let artists := load_artists_from_input roster_csv in
  let run1 := main_with_interrupts ascii_lower 2 cut_world cut_signals roster_csv None in
  let old := csv_lines (file_left run1) in
  let run2 :=
    main_with_interrupts ascii_lower 2 cut_world no_signals roster_csv (file_left run1) in
  exists next partial m,
    artists !! 1%nat = Some next /\
    partial = take m (harvest_lines ascii_lower 2 (cut_world 2) next) /\
    old = roster_lines ascii_lower 2 cut_world (fun _ => false) 1 (take 1 artists) ++ partial /\
    (forall j a, artists !! j = Some a ->
       (has_line old a.2 = true <->
        (j < 1)%nat /\ harvest_lines ascii_lower 2 (cut_world (S j)) a <> [] \/
        j = 1%nat /\ partial <> [])) /\
    (exists new,
       csv_lines (file_left run2) = old ++ new /\
       (forall line, line ∈ new ->
          exists j a,
            artists !! j = Some a /\ has_line old a.2 = false /\
            line ∈ harvest_lines ascii_lower 2 (cut_world (S j)) a) /\
       (how run2 = Finished ->
        new = roster_lines ascii_lower 2 cut_world (has_line old) 1 artists)) /\
    (forall j a, artists !! j = Some a -> has_line old a.2 = true ->
       S j ∉ harvest_log run2) /\
    (how run2 = Finished ->
     forall j a, artists !! j = Some a -> has_line old a.2 = false ->
       S j ∈ harvest_log run2).
Proof.
  apply (rerun_after_ctrl_c ascii_lower 2 cut_world cut_world cut_signals no_signals
           roster_csv 1).
  - vm_compute. repeat (apply NoDup_cons; split; [set_solver|]). apply NoDup_nil_2.
  - left. vm_compute. reflexivity.
Defined.
